(** * PieChart.js: the arms-import pie chart component

    A shallow embedding of [src/components/layouts/PieChart.js]: the
    transformer run on the rows [d3.csv] delivers, the legend and slice
    colours, the promise chain of the effect, and the tooltip state with the
    [div] the component renders from it.

    JavaScript values are kept as the code meets them: a parsed row is an
    object from column names to strings, a cell read with [d[year]] may be
    [undefined], the year cells are overwritten with numbers.  Numbers are
    reached through the interface [JSNumber]; its instance is IEEE-754
    binary64, what a JavaScript engine computes with, after [SpecFloat] of
    the standard library.  What holds of the structure of the pipeline is
    proved for the interface, what depends on the arithmetic (the stored
    quotients, the total, the percentages) for binary64 with its rounding,
    its infinities and its NaN.

    Of d3, [d3.group], [d3.sum] and [d3.scaleOrdinal] are modelled after
    their documented behaviour.  The angles and paths of [d3.pie] and
    [d3.arc], the transitions of a hovered slice and the texts that depend
    on the locale are outside the model. *)

From Stdlib Require Import ZArith QArith Qabs Qround Qpower Lia Lqa String Ascii List Bool.
From Stdlib Require Import SpecFloat.
From stdpp Require Import gmap strings list pretty.

Open Scope Z_scope.

(** ** Strings as sequences of code points

    A cell is a [string]; its bytes are read as UTF-8, which is how the text
    of the response reaches the parser.  Only white space needs code points
    beyond ASCII. *)

Definition byte_of (a : ascii) : N := N_of_ascii a.

Fixpoint code_points_go (fuel : nat) (l : list N) : list N :=
  match fuel with
  | O => []
  | S fuel =>
    match l with
    | [] => []
    | b :: l1 =>
      if (b <? 128)%N then b :: code_points_go fuel l1
      else if ((192 <=? b) && (b <? 224))%N then
        match l1 with
        | c :: l2 => ((b - 192) * 64 + (c - 128))%N :: code_points_go fuel l2
        | _ => [65533%N]
        end
      else if ((224 <=? b) && (b <? 240))%N then
        match l1 with
        | c :: d :: l3 =>
          ((b - 224) * 4096 + (c - 128) * 64 + (d - 128))%N :: code_points_go fuel l3
        | _ => [65533%N]
        end
      else if (240 <=? b)%N then
        match l1 with
        | c :: d :: e :: l4 =>
          ((b - 240) * 262144 + (c - 128) * 4096 + (d - 128) * 64 + (e - 128))%N
            :: code_points_go fuel l4
        | _ => [65533%N]
        end
      else 65533%N :: code_points_go fuel l1
    end
  end.

Definition code_points (s : string) : list N :=
  let bytes := map byte_of (list_ascii_of_string s) in
  code_points_go (length bytes) bytes.

(** WhiteSpace and LineTerminator of the language: TAB, LF, VT, FF, CR, SP,
    NBSP, the Unicode space separators, LS, PS and the byte order mark. *)
Definition is_white_space (c : N) : bool :=
  (existsb (N.eqb c)
     [9; 10; 11; 12; 13; 32; 160; 5760; 8232; 8233; 8239; 8287; 12288; 65279]
   || ((8192 <=? c) && (c <=? 8202)))%N.

Fixpoint drop_white_space (l : list N) : list N :=
  match l with
  | c :: l' => if is_white_space c then drop_white_space l' else l
  | [] => []
  end.

Definition trim (l : list N) : list N :=
  rev (drop_white_space (rev (drop_white_space l))).

(** ** StringToNumber: the grammar of StringNumericLiteral

    The result of reading a string as a number, before any rounding:
    not a number, an infinity, or the decimal [(-1)^neg * m * 10^e]. *)

Inductive literal :=
| LNaN
| LInf (neg : bool)
| LDec (neg : bool) (m : N) (e : Z).

Definition digit_of (base : N) (c : N) : option N :=
  let v :=
    if ((48 <=? c) && (c <=? 57))%N then Some (c - 48)%N
    else if ((97 <=? c) && (c <=? 102))%N then Some (c - 87)%N
    else if ((65 <=? c) && (c <=? 70))%N then Some (c - 55)%N
    else None in
  match v with
  | Some d => if (d <? base)%N then Some d else None
  | None => None
  end.

(** [digits base l acc cnt] reads the longest run of digits at the head of
    [l]: the number read so far, how many digits, and what follows. *)
Fixpoint digits (base : N) (l : list N) (acc : N) (cnt : nat) : N * nat * list N :=
  match l with
  | c :: l' =>
    match digit_of base c with
    | Some d => digits base l' (acc * base + d)%N (S cnt)
    | None => (acc, cnt, l)
    end
  | [] => (acc, cnt, [])
  end.

(** ExponentPart, or nothing; [None] when what follows is neither. *)
Definition exponent_part (l : list N) : option Z :=
  match l with
  | [] => Some 0
  | c :: l1 =>
    if ((c =? 101) || (c =? 69))%N then
      let '(neg, l2) :=
        match l1 with
        | 43%N :: l2 => (false, l2)
        | 45%N :: l2 => (true, l2)
        | _ => (false, l1)
        end in
      match digits 10 l2 0 0 with
      | (_, O, _) => None
      | (x, S _, []) => Some (if neg then - Z.of_N x else Z.of_N x)
      | (_, S _, _ :: _) => None
      end
    else None
  end.

Definition Infinity_points : list N := [73; 110; 102; 105; 110; 105; 116; 121]%N.

(** StrUnsignedDecimalLiteral. *)
Definition unsigned_decimal (neg : bool) (l : list N) : literal :=
  if decide (l = Infinity_points) then LInf neg
  else
    let '(ip, ni, l1) := digits 10 l 0 0 in
    match l1 with
    | 46%N :: l2 =>
      let '(m, nf, l3) := digits 10 l2 ip 0 in
      match ni, nf with
      | O, O => LNaN
      | _, _ =>
        match exponent_part l3 with
        | Some x => LDec neg m (x - Z.of_nat nf)
        | None => LNaN
        end
      end
    | _ =>
      match ni with
      | O => LNaN
      | S _ =>
        match exponent_part l1 with
        | Some x => LDec neg ip x
        | None => LNaN
        end
      end
    end.

(** NonDecimalIntegerLiteral: [0x], [0o], [0b] and their digits, unsigned. *)
Definition non_decimal (l : list N) : option literal :=
  match l with
  | 48%N :: p :: l' =>
    let base :=
      if ((p =? 120) || (p =? 88))%N then Some 16%N
      else if ((p =? 111) || (p =? 79))%N then Some 8%N
      else if ((p =? 98) || (p =? 66))%N then Some 2%N
      else None in
    match base with
    | Some b =>
      match digits b l' 0 0 with
      | (x, S _, []) => Some (LDec false x 0)
      | _ => Some LNaN
      end
    | None => None
    end
  | _ => None
  end.

Definition parse_numeric (s : string) : literal :=
  match trim (code_points s) with
  | [] => LDec false 0 0
  | l =>
    match non_decimal l with
    | Some r => r
    | None =>
      match l with
      | 43%N :: l' => unsigned_decimal false l'
      | 45%N :: l' => unsigned_decimal true l'
      | _ => unsigned_decimal false l
      end
    end
  end.

(** ** Numbers

    The operations of the Number type the component uses.  [n_round f x] is
    the heart of [toFixed]: for a finite [x] below [10^21] in magnitude, the
    sign flag and the integer [n] nearest to [|x| * 10^f], the larger one on
    a tie; nothing otherwise, where [toFixed] falls back to [ToString]. *)

Class JSNumber (num : Type) := {
  of_literal : literal → num;
  n_add : num → num → num;
  n_mul : num → num → num;
  n_div : num → num → num;
  n_truthy : num → bool;
  n_eq : num → num → bool;
  n_le : num → num → bool;
  n_round : nat → num → option (bool * N)
}.

Section Numbers.
Context {num : Type} `{JSNumber num}.

Definition of_Z (z : Z) : num := of_literal (LDec (z <? 0) (Z.abs_N z) 0).
Definition zero : num := of_Z 0.
Definition NaN : num := of_literal LNaN.

(** [x || 0] on a number. *)
Definition n_or_zero (x : num) : num := if n_truthy x then x else zero.

(** The string [x.toFixed(f)] by its parts: a sign and the digits of [n],
    the last [f] of them after the point, or the fallback [ToString(x)]. *)
Inductive fixed_string :=
| FixedDigits (neg : bool) (n : N)
| FixedToString (x : num).

Definition toFixed (f : nat) (x : num) : fixed_string :=
  match n_round f x with
  | Some (neg, n) => FixedDigits neg n
  | None => FixedToString x
  end.
End Numbers.
Arguments fixed_string : clear implicits.

(** The few facts about numbers the transformer relies on. *)

Class JSNumberLaws (num : Type) `{JSNumber num} := {
  NaN_div_falsy : ∀ y : num, n_truthy (n_div NaN y) = false;
  zero_le_zero : n_le (zero : num) zero = true;
  div_1000_nonneg :
    ∀ x : num, n_le zero x = true → n_le zero (n_div x (of_Z 1000)) = true
}.

(** *** IEEE-754 binary64 *)

Module B64.
Definition prec : Z := 53.
Definition emax : Z := 1024.

(** The double nearest to [(-1)^s * m * 10^e], ties to even. *)
Definition of_decimal (s : bool) (m : positive) (e : Z) : spec_float :=
  if 0 <=? e then binary_round prec emax s (m * Z.to_pos (10 ^ e))%positive 0
  else SFdiv prec emax (S754_finite s m 0)
                       (S754_finite false (Z.to_pos (10 ^ (- e))) 0).

Definition read (l : literal) : spec_float :=
  match l with
  | LNaN => S754_nan
  | LInf s => S754_infinity s
  | LDec s N0 _ => S754_zero s
  | LDec s (Npos m) e => of_decimal s m e
  end.

Definition truthy (x : spec_float) : bool :=
  match x with
  | S754_zero _ | S754_nan => false
  | _ => true
  end.

Definition round (f : nat) (x : spec_float) : option (bool * N) :=
  match x with
  | S754_zero _ => Some (false, 0%N)
  | S754_finite s m e =>
    let scaled := Zpos m * 10 ^ Z.of_nat f in
    if 0 <=? e then
      if 10 ^ 21 <=? Zpos m * 2 ^ e then None
      else Some (s, Z.to_N (scaled * 2 ^ e))
    else
      if 10 ^ 21 * 2 ^ (- e) <=? Zpos m then None
      else Some (s, Z.to_N ((2 * scaled + 2 ^ (- e)) / (2 * 2 ^ (- e))))
  | _ => None
  end.

#[global] Instance number : JSNumber spec_float := {|
  of_literal := read;
  n_add := SFadd prec emax;
  n_mul := SFmul prec emax;
  n_div := SFdiv prec emax;
  n_truthy := truthy;
  n_eq := SFeqb;
  n_le := SFleb;
  n_round := round
|}.
End B64.


(** *** The value of a binary floating-point number *)

(** The rational that a finite floating-point number is; 0 for the
    others. *)
Definition SF2Q (x : spec_float) : Q :=
  match x with
  | S754_finite s m e =>
    ((if s then - inject_Z (Zpos m) else inject_Z (Zpos m)) * 2 ^ e)%Q
  | _ => 0%Q
  end.

(** A zero, or a finite number of sign [+]. *)
Definition finite_nonneg (x : spec_float) : bool :=
  match x with
  | S754_zero _ | S754_finite false _ _ => true
  | _ => false
  end.

(** The exponent of a finite number is not below the least one of the
    format. *)
Definition above_emin (prec emax : Z) (x : spec_float) : Prop :=
  match x with
  | S754_finite _ _ e => emin prec emax ≤ e
  | _ => True
  end.

(** ** Values, rows and the d3 helpers *)

Section Values.
Context {num : Type} `{JSNumber num}.

(** What a property of a row holds: the string of the CSV cell, or the
    number the transformer stores over it.  Reading an absent property
    gives [undefined], here [None]. *)
Inductive value :=
| VStr (s : string)
| VNum (n : num).

(** Unary plus. *)
Definition ToNumber (v : option value) : num :=
  match v with
  | None => NaN
  | Some (VStr s) => of_literal (parse_numeric s)
  | Some (VNum n) => n
  end.

Definition ToBoolean (v : option value) : bool :=
  match v with
  | None => false
  | Some (VStr s) => negb (String.eqb s EmptyString)
  | Some (VNum n) => n_truthy n
  end.

(** [v || 0]. *)
Definition or_zero (v : option value) : value :=
  match v with
  | Some x => if ToBoolean v then x else VNum zero
  | None => VNum zero
  end.
End Values.
Arguments value : clear implicits.

(** [d3.group(values, key)]: a map from each key to the array of the values
    with that key, keys in the order of their first value. *)
Section Group.
Context {K A : Type} `{EqDecision K}.

Fixpoint group_add (k : K) (a : A) (g : list (K * list A)) : list (K * list A) :=
  match g with
  | [] => [(k, [a])]
  | (k', vs) :: g' =>
    if decide (k = k') then (k', vs ++ [a]) :: g'
    else (k', vs) :: group_add k a g'
  end.

Definition group (values : list A) (key : A → K) : list (K * list A) :=
  foldl (λ g a, group_add (key a) a g) [] values.
End Group.

(** [d3.scaleOrdinal(range)] with its implicit domain: an unknown key is
    appended to the domain, and a key is mapped to the colour at its index
    in the domain, modulo the length of the range. *)
Section Ordinal.
Context {K : Type} `{EqDecision K}.

Fixpoint index_of (k : K) (domain : list K) : option nat :=
  match domain with
  | [] => None
  | k' :: domain' =>
    if decide (k = k') then Some O else S <$> index_of k domain'
  end.

Definition scaleOrdinal (range : list string) (domain : list K) (k : K)
  : string * list K :=
  match index_of k domain with
  | Some i => (nth (i mod length range) range EmptyString, domain)
  | None => (nth (length domain mod length range) range EmptyString, domain ++ [k])
  end.

(** The scale has settled on colour [c] for key [k]: whatever is added
    to the domain later, [k] is answered with [c]. *)
Definition known (range : list string) (domain : list K) (k : K) (c : string) : Prop :=
  ∀ ext, scaleOrdinal range (domain ++ ext) k = (c, domain ++ ext).

(** The domain after the scale was asked for the keys [ks] in turn. *)
Definition domain_after (range : list string) (domain : list K) (ks : list K) : list K :=
  foldl (λ dom k, snd (scaleOrdinal range dom k)) domain ks.
End Ordinal.

Definition schemeCategory10 : list string :=
  ["#1f77b4"; "#ff7f0e"; "#2ca02c"; "#d62728"; "#9467bd";
   "#8c564b"; "#e377c2"; "#7f7f7f"; "#bcbd22"; "#17becf"].

(** ** The component *)

Section Component.
Context {num : Type} `{JSNumber num}.

(** A row as [d3.csv] delivers it, every cell a string, and the object
    the callback works on, whose year cells it overwrites with numbers. *)
Abbreviation csv_row := (gmap string string).
Abbreviation row := (gmap string (value num)).

(** *** The transformer *)

Definition years : list Z := seqZ 1950 74.

(** The property key of a year: [ToString] of the number, which for an
    integer below [10^21] in magnitude is its decimal numeral. *)
Definition key (year : Z) : string := pretty year.

(** [d[year] = +d[year] / 1000 || 0] *)
Definition convert_year (d : row) (year : Z) : row :=
  <[key year := VNum (n_or_zero (n_div (ToNumber (d !! key year)) (of_Z 1000)))]> d.

Definition convert_row (d : row) : row := foldl convert_year d years.

(** [d['Imports by Regions']], a string or [undefined]: the loop over the
    years leaves this cell as [d3.csv] delivered it ([label_transformed]
    below). *)
Definition label (d : row) : option string :=
  match d !! "Imports by Regions" with
  | Some (VStr s) => Some s
  | _ => None
  end.

Definition filteredData (data : list row) : list row :=
  filter (λ d, label d ≠ Some "World total"
               ∧ label d ≠ Some "International organizations") data.

Record RegionDatum := { region : option string; armsTrade : value num }.

(** [values[0][selectedYear] || 0]; a group of [d3.group] is never empty
    ([group_nonempty] below), so the second case is not reached. *)
Definition first_value (selectedYear : Z) (values : list row) : value num :=
  match values with
  | d :: _ => or_zero (d !! key selectedYear)
  | [] => VNum zero
  end.

(** [data.forEach(d => { for (year ...) ... })] *)
Definition transformed (data : list csv_row) : list row :=
  map (λ d, convert_row (VStr <$> d)) data.

Definition regionArmsData (selectedYear : Z) (data : list csv_row) : list RegionDatum :=
  map (λ '(r, values), {| region := r; armsTrade := first_value selectedYear values |})
      (group (filteredData (transformed data)) label).

(** [d3.sum(values, valueof)]: the values that are zero or not numbers
    are skipped.  [d3_sum_step] is the body of its loop. *)
Definition d3_sum_step {A : Type} (valueof : A → value num) (sum : num) (a : A) : num :=
  let v := ToNumber (Some (valueof a)) in
  if n_truthy v then n_add sum v else sum.

Definition d3_sum {A : Type} (values : list A) (valueof : A → value num) : num :=
  foldl (d3_sum_step valueof) zero values.

Definition total (selectedYear : Z) (data : list csv_row) : num :=
  d3_sum (regionArmsData selectedYear data) armsTrade.

(** *** Legend and colours *)

(** [((d.armsTrade / totalArmsTrade) * 100)] *)
Definition percent (t : num) (d : RegionDatum) : num :=
  n_mul (n_div (ToNumber (Some (armsTrade d))) t) (of_Z 100).

Record LegendEntry := {
  l_region : option string;
  l_color : string;
  l_percentage : fixed_string num;
  l_armsTrade : value num
}.

(** [regionArmsData.map(d => ({ ..., color: colorScale(d.region), ... }))],
    the domain of the scale threaded through the calls. *)
Fixpoint legendInfo_from (t : num) (domain : list (option string))
    (ds : list RegionDatum) : list LegendEntry * list (option string) :=
  match ds with
  | [] => ([], domain)
  | d :: ds' =>
    let '(c, domain1) := scaleOrdinal schemeCategory10 domain (region d) in
    let e := {| l_region := region d; l_color := c;
                l_percentage := toFixed 2 (percent t d);
                l_armsTrade := armsTrade d |} in
    let '(es, domain2) := legendInfo_from t domain1 ds' in
    (e :: es, domain2)
  end.

(** A slice: the path of a datum, with its fill.  The geometry of the arc
    and the fixed stroke and opacity are left out. *)
Record slice := { fill : string; datum : RegionDatum }.

(** [.attr('fill', d => colorScale(d.data.region))] over the data of
    [pie(regionArmsData)], which keeps their order. *)
Fixpoint slices_from (domain : list (option string)) (ds : list RegionDatum)
  : list slice * list (option string) :=
  match ds with
  | [] => ([], domain)
  | d :: ds' =>
    let '(c, domain1) := scaleOrdinal schemeCategory10 domain (region d) in
    let '(ss, domain2) := slices_from domain1 ds' in
    ({| fill := c; datum := d |} :: ss, domain2)
  end.

(** *** The drawing surface and the state of the component *)

Inductive node :=
| text (x y : Z) (content : string)
| paths (g : list slice)
| percent_labels (g : list (fixed_string num)).

Record TooltipState := {
  visible : bool;
  x : num;
  y : num;
  content : string
}.

Definition error := string.

Record component := {
  svg : list node;
  tooltip : TooltipState;
  legendData : list LegendEntry;
  totalArmsTrade : num;
  console : list (string * error);
  requests : list string
}.

Definition dataUrl : string :=
  "https://raw.githubusercontent.com/nguyenlamvu88/dsci_554_arms_sales_project/main/data/processed/processed_regional_transfers.csv".

Definition initial : component := {|
  svg := [];
  tooltip := {| visible := false; x := zero; y := zero; content := EmptyString |};
  legendData := [];
  totalArmsTrade := zero;
  console := [];
  requests := []
|}.

Definition width : Z := 500.
Definition height : Z := 600.

Definition title (selectedYear : Z) : node :=
  text (width / 2) 30 ("Arms Imports by Region (" +:+ key selectedYear +:+ ")").

Definition placeholder : node :=
  text (width / 2) (height / 2) "No data available for this year".

(** *** The promise chain of the effect

    A promise is run against the state of the component and settles with
    a value or with an error. *)

Definition promise (A : Type) : Type := component → (A + error) * component.

Definition then_ {A B : Type} (p : promise A) (f : A → promise B) : promise B :=
  λ st, match p st with
        | (inl a, st') => f a st'
        | (inr e, st') => (inr e, st')
        end.

Definition catch_ {A : Type} (p : promise A) (h : error → promise A) : promise A :=
  λ st, match p st with
        | (inl a, st') => (inl a, st')
        | (inr e, st') => h e st'
        end.

(** [d3.csv(dataUrl)] settled by the network: the parsed rows, or the
    error of the fetch or of the parse. *)
Definition d3_csv (response : list csv_row + error) : promise (list csv_row) :=
  λ st, (response, st).

Definition draw (n : list node) (st : component) : component :=
  {| svg := svg st ++ n; tooltip := tooltip st; legendData := legendData st;
     totalArmsTrade := totalArmsTrade st; console := console st;
     requests := requests st |}.

Definition setTotalArmsTrade (t : num) (st : component) : component :=
  {| svg := svg st; tooltip := tooltip st; legendData := legendData st;
     totalArmsTrade := t; console := console st; requests := requests st |}.

Definition setLegendData (l : list LegendEntry) (st : component) : component :=
  {| svg := svg st; tooltip := tooltip st; legendData := l;
     totalArmsTrade := totalArmsTrade st; console := console st;
     requests := requests st |}.

Definition setTooltip (f : TooltipState → TooltipState) (st : component) : component :=
  {| svg := svg st; tooltip := f (tooltip st); legendData := legendData st;
     totalArmsTrade := totalArmsTrade st; console := console st;
     requests := requests st |}.

Definition console_error (msg : string) (e : error) (st : component) : component :=
  {| svg := svg st; tooltip := tooltip st; legendData := legendData st;
     totalArmsTrade := totalArmsTrade st; console := console st ++ [(msg, e)];
     requests := requests st |}.

(** The callback of [then]. *)
Definition on_data (selectedYear : Z) (data : list csv_row) : promise unit :=
  λ st,
    let ds := regionArmsData selectedYear data in
    let t := d3_sum ds armsTrade in
    let st1 := setTotalArmsTrade t st in
    if n_eq t zero then (inl tt, draw [placeholder] st1)
    else
      let '(legend, domain) := legendInfo_from t [] ds in
      let st2 := setLegendData legend st1 in
      let '(g, _) := slices_from domain ds in
      (inl tt,
       draw [percent_labels (map (λ d, toFixed 1 (percent t d)) ds)]
            (draw [paths g] st2)).

(** The callback of [catch]. *)
Definition on_error (e : error) : promise unit :=
  λ st, (inl tt, console_error "Error loading data:" e st).

(** The synchronous part of the effect: the surface is cleared, the title
    drawn, the request sent. *)
Definition effect_start (selectedYear : Z) (st : component) : component :=
  {| svg := [title selectedYear]; tooltip := tooltip st;
     legendData := legendData st; totalArmsTrade := totalArmsTrade st;
     console := console st; requests := requests st ++ [dataUrl] |}.

(** One run of the effect, from the change of [selectedYear] to the
    settling of [d3.csv(dataUrl).then(...).catch(...)]. *)
Definition useEffect (selectedYear : Z) (response : list csv_row + error)
  : promise unit :=
  λ st, catch_ (then_ (d3_csv response) (on_data selectedYear)) on_error
               (effect_start selectedYear st).

(** *** The tooltip

    The handlers as the updates they pass to [setTooltip]; the transition
    they start on the hovered path is not modelled. *)

Record MouseEvent := { pageX : num; pageY : num }.

Definition on_mousemove (event : MouseEvent) (prev : TooltipState) : TooltipState :=
  {| visible := visible prev;
     x := n_add (pageX event) (of_Z 10);
     y := n_add (pageY event) (of_Z 10);
     content := content prev |}.

Definition on_mouseleave (prev : TooltipState) : TooltipState :=
  {| visible := false; x := zero; y := zero; content := EmptyString |}.

(** [{tooltip.visible && <div style={{ top: tooltip.y + 10,
    left: tooltip.x + 10, ... }}>{tooltip.content}</div>}] *)
Record tooltip_div := { top : num; left : num; children : string }.

Definition tooltip_view (t : TooltipState) : option tooltip_div :=
  if visible t then
    Some {| top := n_add (y t) (of_Z 10);
            left := n_add (x t) (of_Z 10);
            children := content t |}
  else None.

(** What only the host can tell: the text of a number in the locale of
    the user, and [ToString] of a number, which [toFixed] returns past
    [10^21]. *)
Section Host.
Variable toLocaleString : value num → string.
Variable NumberToString : num → string.

Definition show_fixed (f : nat) (s : fixed_string num) : string :=
  match s with
  | FixedDigits neg n =>
    let ds := pretty n in
    let padded := String.concat EmptyString (replicate (S f - String.length ds) "0") +:+ ds in
    let k := (String.length padded - f)%nat in
    (if neg then "-" else EmptyString)
      +:+ substring 0 k padded
      +:+ match f with
          | O => EmptyString
          | S _ => "." +:+ substring k f padded
          end
  | FixedToString x => NumberToString x
  end.

Definition show_region (r : option string) : string :=
  match r with
  | Some s => s
  | None => "undefined"
  end.

Definition on_mouseenter (t : num) (event : MouseEvent) (d : RegionDatum)
    (prev : TooltipState) : TooltipState :=
  let regionPercentage := show_fixed 2 (toFixed 2 (percent t d)) in
  {| visible := true;
     x := pageX event;
     y := pageY event;
     content := show_region (region d) +:+ String (ascii_of_nat 10) "Arms Imports: "
                +:+ toLocaleString (armsTrade d) +:+ " billion USD ("
                +:+ regionPercentage +:+ "%)" |}.
End Host.
End Component.
Arguments RegionDatum : clear implicits.
Arguments LegendEntry : clear implicits.
Arguments slice : clear implicits.
Arguments node : clear implicits.
Arguments TooltipState : clear implicits.
Arguments component : clear implicits.
Arguments MouseEvent : clear implicits.
Arguments tooltip_div : clear implicits.

(** ** What the claims measure *)

Section Measures.
Context {num : Type} `{JSNumber num}.

(** The legend one run of the callback computes, when the total is not
    zero. *)
Definition legendInfo (selectedYear : Z) (data : list (gmap string string))
  : list (LegendEntry num) :=
  fst (legendInfo_from (total selectedYear data) []
                       (regionArmsData selectedYear data)).

(** The slices and labels the same run draws. *)
Definition slicesInfo (selectedYear : Z) (data : list (gmap string string))
  : list (slice num) :=
  let ds := regionArmsData selectedYear data in
  fst (slices_from (snd (legendInfo_from (total selectedYear data) [] ds)) ds).

Definition labelsInfo (selectedYear : Z) (data : list (gmap string string))
  : list (fixed_string num) :=
  (λ d, toFixed 1 (percent (total selectedYear data) d))
    <$> regionArmsData selectedYear data.

(** [t > 0]. *)
Definition is_positive (t : num) : bool := n_le zero t && negb (n_eq t zero).

(** The number a string of [toFixed(f)] denotes, when it is a decimal. *)
Definition fixed_value (f : nat) (s : fixed_string num) : option Q :=
  match s with
  | FixedDigits neg n =>
    let q := (inject_Z (Z.of_N n) / inject_Z (10 ^ Z.of_nat f))%Q in
    Some (if neg then - q else q)%Q
  | FixedToString _ => None
  end.

(** The sum of the percentages of a legend. *)
Fixpoint percentage_sum (legend : list (LegendEntry num)) : option Q :=
  match legend with
  | [] => Some 0%Q
  | e :: legend' =>
    match fixed_value 2 (l_percentage e), percentage_sum legend' with
    | Some q, Some s => Some (q + s)%Q
    | _, _ => None
    end
  end.

(** The colour each region label carries in what the component shows:
    in the legend, and on the slices of the surface. *)
Definition slice_colors (n : node num) : list (option string * string) :=
  match n with
  | paths g => (λ s, (region (datum s), fill s)) <$> g
  | _ => []
  end.

Definition assigned_colors (st : component num) : list (option string * string) :=
  ((λ e, (l_region e, l_color e)) <$> legendData st)
    ++ concat (slice_colors <$> svg st).
End Measures.

(** The sum of the values of the regions, as the rationals they are. *)
Definition value_sum (ds : list (RegionDatum spec_float)) : Q :=
  foldr (λ d acc, SF2Q (ToNumber (Some (armsTrade d))) + acc)%Q 0%Q ds.

(** ** The first value of each group

    [values[0]] for each entry of the map that [d3.group] returns. *)

Definition heads {K A : Type} (g : list (K * list A)) : list (K * option A) :=
  (λ kv, (kv.1, head kv.2)) <$> g.

(** ** Sample rows *)

Definition csv (l : string) (cells : list (string * string)) : gmap string string :=
  <["Imports by Regions" := l]> (list_to_map cells).

Definition europe_asia : list (gmap string string) :=
  [csv "Europe" [("2020", "5000")]; csv "Asia" [("2020", "3000")]].

Definition asia_europe : list (gmap string string) :=
  [csv "Asia" [("2020", "3000")]; csv "Europe" [("2020", "5000")]].

Definition with_aggregates : list (gmap string string) :=
  [csv "World total" [("2020", "8000")]; csv "Europe" [("2020", "5000")];
   csv "International organizations" [("2020", "10")]; csv "Asia" [("2020", "3000")]].

Definition europe_twice : list (gmap string string) :=
  [csv "Europe" [("2020", "5000")]; csv "Asia" [("2020", "3000")];
   csv "Europe" [("2020", "7000")]].

Definition europe_negative : list (gmap string string) :=
  [csv "Europe" [("2020", "-5000")]].

Definition europe_not_numeric : list (gmap string string) :=
  [csv "Europe" [("2020", "n/a")]].

Definition two_years : list (gmap string string) :=
  [csv "Europe" [("2019", "4000"); ("2020", "5000")];
   csv "Asia" [("2019", "1000"); ("2020", "3000")]].

(** A row with a cell for 2024, a year that the loop does not reach. *)
Definition europe_2024 : list (gmap string string) :=
  [csv "Europe" [("2020", "5000"); ("2024", "6000")]].

(** A cell that reads as the infinity. *)
Definition infinite_cell : list (gmap string string) :=
  [csv "Europe" [("2020", "Infinity")]; csv "Asia" [("2020", "3000")]].

(** Two cells of a year outside the loop, so large that their sum is past
    the largest double. *)
Definition two_huge : list (gmap string string) :=
  [csv "Europe" [("2024", "1e308")]; csv "Asia" [("2024", "1e308")]].

(** A large value and a negative one that all but cancels it. *)
Definition cancelling : list (gmap string string) :=
  [csv "Europe" [("2020", "3000000000000000000")];
   csv "Asia" [("2020", "-2999999999999999000")]].

(** Twenty-two regions whose values add up to 20000 and whose percentages
    all end in half a hundredth or just above it. *)
Definition twenty_two_regions : list (gmap string string) :=
  zip_with (λ (i : nat) (v : Z), csv ("R" +:+ pretty i) [("2020", pretty (1000 * v))])
           (seq 0 22)
           [33; 127; 137; 179; 181; 313; 433; 475; 791; 939; 1013; 1041; 1105;
            1155; 1163; 1223; 1297; 1489; 1603; 1635; 1683; 1985].

(** Thirty-two regions [R0] ... [R31] with the same cell [1000]. *)
Definition thirty_two_regions : list (gmap string string) :=
  (λ i : nat, csv ("R" +:+ pretty i) [("2020", "1000")]) <$> seq 0 32.

(** * Properties *)

(** ** Reading and printing numbers *)

Example parse_5000 : parse_numeric "5000" = LDec false 5000 0.
Proof. reflexivity. Qed.
Example parse_fraction : parse_numeric " -12.50e1 " = LDec true 1250 (-1).
Proof. reflexivity. Qed.
Example parse_empty : parse_numeric EmptyString = LDec false 0 0.
Proof. reflexivity. Qed.
Example parse_words : parse_numeric "n/a" = LNaN.
Proof. reflexivity. Qed.
Example parse_dots : parse_numeric ". ." = LNaN.
Proof. reflexivity. Qed.
Example parse_hex : parse_numeric "0x1F" = LDec false 31 0.
Proof. reflexivity. Qed.
Example parse_infinity : parse_numeric "-Infinity" = LInf true.
Proof. reflexivity. Qed.
Example parse_trailing : parse_numeric "12abc" = LNaN.
Proof. reflexivity. Qed.
Example parse_lone_exponent : parse_numeric "1e" = LNaN.
Proof. reflexivity. Qed.

Example b64_tenth :
  B64.read (parse_numeric "0.1") = S754_finite false 7205759403792794 (-56).
Proof. vm_compute. reflexivity. Qed.
Example b64_round_to_even :
  B64.read (parse_numeric "9007199254740993") = B64.read (parse_numeric "9007199254740992").
Proof. vm_compute. reflexivity. Qed.
Example b64_overflow : B64.read (parse_numeric "1e400") = S754_infinity false.
Proof. vm_compute. reflexivity. Qed.
Example b64_toFixed_tie :
  toFixed 2 (B64.read (parse_numeric "3.125")) = FixedDigits false 313.
Proof. vm_compute. reflexivity. Qed.
Example b64_toFixed_below :
  toFixed 2 (B64.read (parse_numeric "1.005")) = FixedDigits false 100.
Proof. vm_compute. reflexivity. Qed.
Example show_fixed_6250 :
  show_fixed (num := spec_float) (λ _, EmptyString) 2 (FixedDigits false 6250) = "62.50".
Proof. vm_compute. reflexivity. Qed.

(** ** [d3.group] *)

Section GroupFacts.
Context {K A : Type} `{EqDecision K}.
Implicit Types (g : list (K * list A)) (l : list A) (key : A → K).

Lemma group_snoc l a key :
  group (l ++ [a]) key = group_add (key a) a (group l key).
Proof. unfold group. by rewrite foldl_app. Qed.

Lemma group_add_keys k a g :
  (group_add k a g).*1 = if decide (k ∈ g.*1) then g.*1 else g.*1 ++ [k].
Proof.
  induction g as [|[k' vs] g IH]; [done|].
  cbn [group_add]. destruct (decide (k = k')) as [->|Hne].
  - rewrite decide_True; [done | by left].
  - rewrite !fmap_cons, IH. cbn [fst]. destruct (decide (k ∈ g.*1)) as [Hin|Hnin].
    + rewrite decide_True; [done | by right].
    + rewrite decide_False; [done |].
      intros [?|?]%elem_of_cons; congruence.
Qed.

Lemma elem_of_group_add k a g k' vs' :
  NoDup g.*1 →
  (k', vs') ∈ group_add k a g ↔
    (k' ≠ k ∧ (k', vs') ∈ g)
    ∨ (k' = k ∧ ∃ vs, vs' = vs ++ [a] ∧ ((k, vs) ∈ g ∨ (vs = [] ∧ k ∉ g.*1))).
Proof.
  induction g as [|[k0 vs0] g IH]; intros Hnd.
  - cbn [group_add]. rewrite list_elem_of_singleton.
    setoid_rewrite elem_of_nil. split.
    + intros [= -> ->]. right. split; [done|]. exists []. split; [done|].
      right. split; [done|]. tauto.
    + intros [[_ []]|[-> (vs & -> & [[]|[-> _]])]]. done.
  - rewrite fmap_cons in Hnd. cbn [fst] in Hnd.
    apply NoDup_cons in Hnd as [Hk0 Hnd]. specialize (IH Hnd).
    assert (Hfst : ∀ v, (k0, v) ∈ g → False).
    { intros v Hv. apply Hk0. apply list_elem_of_fmap. by exists (k0, v). }
    cbn [group_add]. rewrite fmap_cons. cbn [fst].
    destruct (decide (k = k0)) as [->|Hne].
    + setoid_rewrite elem_of_cons. split.
      * intros [[= -> ->]|Hin].
        -- right. split; [done|]. exists vs0. split; [done|]. left. by left.
        -- left. split; [|by right]. intros ->. by eapply Hfst.
      * intros [[Hne [[= ? ?]|Hin]]|[-> (vs & -> & [[[= ->]|Hin]|[_ Hnin]])]].
        -- done.
        -- by right.
        -- by left.
        -- destruct (Hfst _ Hin).
        -- destruct Hnin. by left.
    + setoid_rewrite elem_of_cons. rewrite IH. clear IH. split.
      * intros [[= -> ->]|[[Hne' Hin]|[-> (vs & -> & [Hin|[-> Hnin]])]]].
        -- left. split; [congruence | by left].
        -- left. split; [done | by right].
        -- right. split; [done|]. exists vs. split; [done|]. left. by right.
        -- right. split; [done|]. exists []. split; [done|]. right.
           split; [done|]. intros [?|?]; congruence.
      * intros [[Hne' [[= -> ->]|Hin]]|[-> (vs & -> & [[[= ? ?]|Hin]|[-> Hnin]])]].
        -- by left.
        -- right. left. by split.
        -- congruence.
        -- right. right. split; [done|]. exists vs. split; [done|]. by left.
        -- right. right. split; [done|]. exists []. split; [done|]. right.
           split; [done|]. intros Hin. apply Hnin. by right.
Qed.

Lemma NoDup_group_add k a g : NoDup g.*1 → NoDup (group_add k a g).*1.
Proof.
  intros Hnd. rewrite group_add_keys. case_decide as Hin; [done|].
  apply NoDup_app. split; [done|]. split.
  - intros x Hx ->%list_elem_of_singleton. done.
  - apply NoDup_singleton.
Qed.

(** The groups of [d3.group]: keys without repetition, and under each key
    the values with that key, in their order, at least one. *)
Lemma group_spec l key :
  NoDup (group l key).*1
  ∧ ∀ k vs, (k, vs) ∈ group l key ↔ vs = filter (λ a, key a = k) l ∧ vs ≠ [].
Proof.
  induction l as [|a l [IHnd IH]] using rev_ind.
  - split; [constructor|]. intros k vs. simpl. split.
    + by intros ?%elem_of_nil.
    + intros [-> ?]. done.
  - rewrite group_snoc. split; [by apply NoDup_group_add|].
    intros k vs. rewrite elem_of_group_add by done.
    rewrite filter_app, filter_cons, filter_nil. split.
    + intros [[Hne Hin]|[-> (vs0 & -> & [Hin|[-> Hnin]])]].
      * apply IH in Hin as [-> Hne']. rewrite decide_False by done.
        by rewrite app_nil_r.
      * apply IH in Hin as [-> _]. rewrite decide_True by done.
        split; [done|]. by destruct (filter _ l).
      * rewrite decide_True by done. split; [|done]. f_equal.
        destruct (filter (λ a0, key a0 = key a) l) as [|b bs] eqn:Hf; [done|].
        exfalso. apply Hnin. apply list_elem_of_fmap.
        exists (key a, b :: bs). split; [done|]. apply IH. by rewrite Hf.
    + intros [-> Hne]. destruct (decide (key a = k)) as [<-|Hk].
      * right. split; [done|]. eexists. split; [done|].
        destruct (filter (λ a0, key a0 = key a) l) as [|b bs] eqn:Hf.
        -- right. split; [done|]. intros ([k' vs'] & Hk' & Hin)%list_elem_of_fmap.
           simpl in Hk'. subst k'. apply IH in Hin as [-> Hne'].
           by rewrite Hf in Hne'.
        -- left. apply IH. by rewrite Hf.
      * left. split; [done|]. apply IH. by rewrite app_nil_r in *.
Qed.

Lemma group_nonempty l key k vs : (k, vs) ∈ group l key → vs ≠ [].
Proof. intros Hin. by apply (group_spec l key) in Hin as [_ ?]. Qed.

Lemma elem_of_group_keys l key k : k ∈ (group l key).*1 ↔ k ∈ key <$> l.
Proof.
  destruct (group_spec l key) as [_ Hg]. split.
  - intros ([k' vs] & -> & Hin)%list_elem_of_fmap. simpl.
    apply Hg in Hin as [-> Hne].
    destruct (filter (λ a, key a = k') l) as [|b bs] eqn:Hf; [done|].
    assert (b ∈ filter (λ a, key a = k') l) as Hb by (rewrite Hf; by left).
    apply list_elem_of_filter in Hb as [<- Hb]. by apply list_elem_of_fmap_2.
  - intros (a & -> & Hin)%list_elem_of_fmap. apply list_elem_of_fmap.
    exists (key a, filter (λ a0, key a0 = key a) l). split; [done|].
    apply Hg. split; [done|].
    assert (a ∈ filter (λ a0, key a0 = key a) l) as Hb
      by (by apply list_elem_of_filter).
    intros Hf. rewrite Hf in Hb. by apply elem_of_nil in Hb.
Qed.
End GroupFacts.

(** ** Laws of the numbers in binary64 *)

Section RoundingSign.
Variables prec emax : Z.

Lemma iter_pos_invariant {A : Type} (P : A → Prop) (f : A → A) :
  (∀ a, P a → P (f a)) → ∀ n a, P a → P (SpecFloat.iter_pos f n a).
Proof.
  intros Hf n. induction n as [n IH|n IH|]; intros a Ha; simpl; auto.
Qed.

Lemma shr_1_nonneg mrs : 0 ≤ shr_m mrs → 0 ≤ shr_m (shr_1 mrs).
Proof.
  destruct mrs as [m r s]. simpl. intros Hm.
  destruct m as [|[p|p|]|p]; simpl; lia.
Qed.

Lemma shr_nonneg mrs e n : 0 ≤ shr_m mrs → 0 ≤ shr_m (fst (shr mrs e n)).
Proof.
  intros Hm. destruct n as [|p|p]; simpl; try done.
  apply (iter_pos_invariant (λ r, 0 ≤ shr_m r)); [apply shr_1_nonneg | done].
Qed.

Lemma shr_fexp_nonneg m e l :
  0 ≤ m → 0 ≤ shr_m (fst (shr_fexp prec emax m e l)).
Proof.
  intros Hm. unfold shr_fexp. apply shr_nonneg.
  by destruct l as [|[]].
Qed.

Lemma round_nearest_even_nonneg m l : 0 ≤ m → 0 ≤ round_nearest_even m l.
Proof.
  intros Hm. unfold round_nearest_even.
  destruct l as [|[]]; try destruct (Z.even m); lia.
Qed.

(** Rounding a non-negative mantissa under the sign [+] gives a zero, a
    finite number or the infinity of that sign. *)
Lemma binary_round_aux_nonneg m e l :
  0 ≤ m → SFleb (S754_zero false) (binary_round_aux prec emax false m e l) = true.
Proof.
  intros Hm. unfold binary_round_aux.
  pose proof (shr_fexp_nonneg m e l Hm) as H1.
  destruct (shr_fexp prec emax m e l) as [mrs' e'] eqn:E1. simpl in H1.
  pose proof (shr_fexp_nonneg
                (round_nearest_even (shr_m mrs') (loc_of_shr_record mrs'))
                e' loc_Exact (round_nearest_even_nonneg _ _ H1)) as H2.
  destruct (shr_fexp prec emax _ e' loc_Exact) as [mrs'' e''] eqn:E2.
  simpl in H2. destruct (shr_m mrs'') as [|p|p]; [done| |lia].
  by destruct (e'' <=? emax - prec).
Qed.
End RoundingSign.

#[global] Instance B64_laws : JSNumberLaws spec_float.
Proof.
  split.
  - by intros [].
  - done.
  - intros x Hx.
    change (n_div x (of_Z 1000))
      with (SFdiv B64.prec B64.emax x (B64.read (LDec false 1000 0))).
    change (n_le (zero : spec_float))
      with (SFleb (S754_zero false)) in *.
    assert (B64.read (LDec false 1000 0) = S754_finite false 8796093022208000 (-43))
      as -> by (vm_compute; reflexivity).
    destruct x as [s|[]| |[] m e]; try done.
    unfold SFdiv.
    destruct (SFdiv_core_binary _ _ _ _ _ _) as [[mz ez] lz] eqn:Hcore.
    apply binary_round_aux_nonneg.
    unfold SFdiv_core_binary in Hcore.
    match type of Hcore with
    | context [Z.div_eucl ?a ?b] =>
      pose proof (Z.div_eucl_eq a b ltac:(done)) as Heq;
      pose proof (Z.mod_pos_bound a b ltac:(done)) as Hmod;
      assert (0 ≤ a) as Ha;
      [|unfold Z.modulo in Hmod; destruct (Z.div_eucl a b) as [q r] eqn:Hqr]
    end.
    + match goal with
      | |- 0 ≤ match ?s with _ => _ end => destruct s
      end; try done. apply Z.shiftl_nonneg. done.
    + injection Hcore as <- _ _. nia.
Qed.

(** ** The transformer *)

Section TransformerFacts.
Context {num : Type} `{JSNumberLaws num}.
Implicit Types (d : gmap string (value num)) (raw : gmap string string).

Lemma key_inj y1 y2 : key y1 = key y2 → y1 = y2.
Proof. unfold key. apply (inj pretty). Qed.

(** The loop over the years writes the cells of the years and no other. *)
Lemma convert_years_other ys d k :
  k ∉ key <$> ys → foldl convert_year d ys !! k = d !! k.
Proof.
  revert d. induction ys as [|y ys IH]; intros d Hk; [done|].
  rewrite fmap_cons in Hk. apply not_elem_of_cons in Hk as [Hne Hk].
  cbn [foldl]. rewrite IH by done. unfold convert_year.
  by rewrite lookup_insert_ne.
Qed.

Lemma convert_years_lookup ys d y :
  NoDup ys → y ∈ ys →
  foldl convert_year d ys !! key y
  = Some (VNum (n_or_zero (n_div (ToNumber (d !! key y)) (of_Z 1000)))).
Proof.
  revert d. induction ys as [|y0 ys IH]; intros d Hnd Hin.
  - by apply elem_of_nil in Hin.
  - apply NoDup_cons in Hnd as [Hy0 Hnd]. cbn [foldl].
    apply elem_of_cons in Hin as [->|Hin].
    + rewrite convert_years_other.
      * unfold convert_year. by rewrite lookup_insert_eq.
      * intros (y' & Hk & Hy')%list_elem_of_fmap.
        apply key_inj in Hk. by subst.
    + rewrite IH by done. unfold convert_year.
      rewrite lookup_insert_ne; [done|].
      intros Hk. apply key_inj in Hk. by subst.
Qed.

Lemma convert_row_lookup d year :
  1950 ≤ year ≤ 2023 →
  convert_row d !! key year
  = Some (VNum (n_or_zero (n_div (ToNumber (d !! key year)) (of_Z 1000)))).
Proof.
  intros Hy. apply convert_years_lookup; [apply NoDup_seqZ|].
  apply elem_of_seqZ. lia.
Qed.

Lemma label_column_not_a_year : "Imports by Regions" ∉ key <$> years.
Proof.
  apply (bool_decide_unpack _ (dec := decide _)). vm_compute. exact I.
Qed.

Lemma label_convert_row d : label (convert_row d) = label d.
Proof.
  unfold label, convert_row.
  by rewrite convert_years_other by apply label_column_not_a_year.
Qed.

Lemma label_transformed raw :
  label (convert_row (VStr <$> raw) : gmap string (value num))
  = raw !! "Imports by Regions".
Proof.
  rewrite label_convert_row. unfold label. rewrite lookup_fmap.
  by destruct (raw !! "Imports by Regions").
Qed.

(** Storing [q || 0] and reading it back with [|| 0] gives it again. *)
Lemma or_zero_n_or_zero (q : num) :
  or_zero (Some (VNum (n_or_zero q))) = VNum (n_or_zero q).
Proof.
  unfold or_zero, n_or_zero, ToBoolean.
  destruct (n_truthy q) eqn:Hq; [by rewrite Hq|].
  by destruct (n_truthy zero).
Qed.

Lemma first_value_cons year d (rest : list (gmap string (value num))) :
  first_value year (d :: rest) = or_zero (d !! key year).
Proof. reflexivity. Qed.

Lemma elem_of_regionArmsData year data (x : RegionDatum num) :
  x ∈ regionArmsData year data ↔
    ∃ vs, (region x, vs) ∈ group (filteredData (transformed data)) label
          ∧ armsTrade x = first_value year vs.
Proof.
  unfold regionArmsData. rewrite list_elem_of_fmap. split.
  - intros ([r vs] & -> & Hin). by exists vs.
  - intros (vs & Hin & Hv). exists (region x, vs). split; [|done].
    destruct x as [r v]. simpl in *. by subst.
Qed.

Lemma regions_regionArmsData year data :
  region <$> regionArmsData year data
  = (group (filteredData (transformed data)) label).*1.
Proof.
  unfold regionArmsData. rewrite <- list_fmap_compose.
  apply list_fmap_ext. by intros ? [r vs].
Qed.

(** The first element of a filtered list is the first element of the
    list that passes the filter. *)
Lemma list_find_filter_head {A : Type} (P : A → Prop) `{∀ a, Decision (P a)}
    (l : list A) a rest :
  filter P l = a :: rest → ∃ i, list_find P l = Some (i, a).
Proof.
  induction l as [|b l IH]; [done|]. rewrite filter_cons. cbn [list_find].
  destruct (decide (P b)) as [Hb|Hb].
  - intros [= -> _]. by exists 0%nat.
  - intros Hf. destruct (IH Hf) as [i ->]. by exists (S i).
Qed.

Lemma filter_head_list_find {A : Type} (P : A → Prop) `{∀ a, Decision (P a)}
    (l : list A) i a :
  list_find P l = Some (i, a) → ∃ rest, filter P l = a :: rest.
Proof.
  revert i. induction l as [|b l IH]; intros i; [done|].
  rewrite filter_cons. cbn [list_find].
  destruct (decide (P b)) as [Hb|Hb].
  - intros [= <- <-]. by eexists.
  - destruct (list_find P l) as [[j c]|] eqn:Hl; [|done].
    intros [= <- <-]. by eapply IH.
Qed.
End TransformerFacts.

(** C2. For a row of the parsed data and a year from 1950 to 2023, the
    transformer reads the cell as a number and divides it by 1000, in
    binary64: it stores that quotient, unless the quotient is a zero or
    NaN, and then it stores 0.  A cell that is missing, empty or not a
    numeric string is stored as exactly 0. *)
Theorem transformer_converts_cell (raw : gmap string string) (year : Z) :
  1950 ≤ year ≤ 2023 →
  let cell := raw !! key year in
  let quotient : spec_float :=
    SFdiv 53 1024 (ToNumber (VStr <$> cell)) (of_Z 1000) in
  let stored :=
    (convert_row (VStr <$> raw) : gmap string (value spec_float)) !! key year in
  stored = Some (VNum match quotient with
                      | S754_zero _ | S754_nan => S754_zero false
                      | _ => quotient
                      end)
  ∧ (cell = None ∨ cell = Some EmptyString
     ∨ (∃ s, cell = Some s ∧ parse_numeric s = LNaN) →
     stored = Some (VNum (S754_zero false))).
Proof.
  intros Hy cell quotient stored.
  assert (stored = Some (VNum match quotient with
                              | S754_zero _ | S754_nan => S754_zero false
                              | _ => quotient
                              end)) as Hs.
  { unfold stored. rewrite convert_row_lookup by exact Hy.
    rewrite lookup_fmap. fold cell. do 2 f_equal.
    unfold n_or_zero.
    change (n_div (ToNumber (VStr <$> cell)) (of_Z 1000)) with quotient.
    destruct quotient; reflexivity. }
  split; [exact Hs|]. intros Hc. rewrite Hs. do 2 f_equal.
  assert (ToNumber (VStr <$> cell) = (S754_nan : spec_float)
          ∨ ToNumber (VStr <$> cell) = (S754_zero false : spec_float)) as Hn.
  { destruct Hc as [->|[->|(s & -> & Hs')]].
    - left. reflexivity.
    - right. reflexivity.
    - left. cbn [fmap option_fmap option_map ToNumber]. rewrite Hs'. reflexivity. }
  assert ((of_Z 1000 : spec_float) = S754_finite false 8796093022208000 (-43))
    as H1000 by (vm_compute; reflexivity).
  unfold quotient. rewrite H1000. destruct Hn as [-> | ->]; reflexivity.
Qed.

Section TransformerClaims.
Context {num : Type} `{JSNumberLaws num}.

(** C3. No row that reaches the grouping and no region of the output of
    the transformer carries the label "World total" or "International
    organizations". *)
Theorem reserved_labels_excluded (data : list (gmap string string)) (year : Z) :
  Forall (λ d, label d ≠ Some "World total"
               ∧ label d ≠ Some "International organizations")
         (filteredData (transformed data) : list (gmap string (value num)))
  ∧ Forall (λ x, region x ≠ Some "World total"
                 ∧ region x ≠ Some "International organizations")
           (regionArmsData year data : list (RegionDatum num)).
Proof.
  assert (Forall (λ d, label d ≠ Some "World total"
                       ∧ label d ≠ Some "International organizations")
            (filteredData (transformed data) : list (gmap string (value num))))
    as Hf.
  { apply Forall_forall. intros d Hd.
    by apply list_elem_of_filter in Hd as [? _]. }
  split; [done|]. apply Forall_forall. intros x Hx.
  assert (region x ∈ region <$> regionArmsData year data) as Hr
    by (by apply list_elem_of_fmap_2).
  rewrite regions_regionArmsData in Hr.
  apply (elem_of_group_keys _ (label (num := num))) in Hr.
  apply list_elem_of_fmap in Hr as (d & -> & Hd).
  by apply (proj1 (Forall_forall _ _) Hf).
Qed.

(** C4. When [r] is the first of the rows that reach the grouping to
    carry the label [l], the output has one datum for [l], and its value
    is the cell of [r] for the selected year (with [|| 0]): later rows
    with the label add nothing. *)
Theorem first_occurrence_wins (data : list (gmap string string)) (year : Z)
    (l : option string) (i : nat) (r : gmap string (value num)) :
  list_find (λ d, label d = l) (filteredData (transformed data)) = Some (i, r) →
  ∃ x, x ∈ regionArmsData year data
       ∧ region x = l
       ∧ armsTrade x = or_zero (r !! key year)
       ∧ ∀ x', x' ∈ regionArmsData year data → region x' = l → x' = x.
Proof.
  intros Hfind. apply filter_head_list_find in Hfind as [rest Hfilter].
  destruct (group_spec (filteredData (transformed data)) (label (num := num)))
    as [_ Hg].
  exists {| region := l; armsTrade := or_zero (r !! key year) |}.
  split; [|split; [reflexivity|split; [reflexivity|]]].
  - apply elem_of_regionArmsData. exists (r :: rest). split; [|reflexivity].
    cbn [region]. apply Hg. rewrite Hfilter. split; [reflexivity|discriminate].
  - intros [l' v'] (vs & Hin & Hv)%elem_of_regionArmsData Hl.
    cbn [region armsTrade] in *. subst l'.
    apply Hg in Hin as [-> _]. rewrite Hfilter in Hv. rewrite Hv. reflexivity.
Qed.

(** C8, amended. The output has exactly one datum for each label of the
    rows that reach the grouping.  For a year from 1950 to 2023 the value
    of a datum is a number, read from a row with its label, and it is
    greater than or equal to 0 unless the cell of that row is a negative
    number. *)
Theorem one_datum_per_region (data : list (gmap string string)) (year : Z) :
  1950 ≤ year ≤ 2023 →
  NoDup (region <$> (regionArmsData year data : list (RegionDatum num)))
  ∧ (∀ l, l ∈ region <$> (regionArmsData year data : list (RegionDatum num))
          ↔ l ∈ label <$> (filteredData (transformed data)
                            : list (gmap string (value num))))
  ∧ Forall (λ x : RegionDatum num,
      ∃ raw n, raw ∈ data
        ∧ raw !! "Imports by Regions" = region x
        ∧ armsTrade x = VNum n
        ∧ (n_le zero n = true
           ∨ ∃ s, raw !! key year = Some s
                  ∧ parse_numeric s ≠ LNaN
                  ∧ n_le (zero : num) (of_literal (parse_numeric s)) = false))
      (regionArmsData year data).
Proof.
  intros Hy.
  destruct (group_spec (filteredData (transformed data)) (label (num := num)))
    as [Hnd Hg].
  split; [rewrite regions_regionArmsData; exact Hnd|].
  split; [intros l; rewrite regions_regionArmsData;
          apply (elem_of_group_keys _ (label (num := num)))|].
  apply Forall_forall.
  intros [l v] (vs & Hin & Hv)%elem_of_regionArmsData.
  cbn [region armsTrade] in *.
  apply Hg in Hin as [-> Hne].
  destruct (filter _ _) as [|r rest] eqn:Hfilter; [congruence|]. clear Hne.
  assert (r ∈ filter (λ a, label a = l) (filteredData (transformed data)))
    as Hr by (rewrite Hfilter; left).
  apply list_elem_of_filter in Hr as [Hl Hr].
  apply list_elem_of_filter in Hr as [_ Hr].
  apply list_elem_of_fmap in Hr as (raw & -> & Hraw).
  rewrite label_transformed in Hl.
  rewrite first_value_cons, convert_row_lookup, lookup_fmap,
    or_zero_n_or_zero in Hv by exact Hy.
  exists raw, (n_or_zero (n_div (ToNumber (VStr <$> raw !! key year)) (of_Z 1000))).
  split; [exact Hraw|]. split; [exact Hl|]. split; [exact Hv|].
  clear Hv Hfilter.
  assert (n_truthy (n_div (NaN : num) (of_Z 1000)) = false) as Hfalsy
    by apply NaN_div_falsy.
  assert (∀ c : num, n_le zero c = true →
            n_le zero (n_or_zero (n_div c (of_Z 1000))) = true) as Hpos.
  { intros c Hc. unfold n_or_zero.
    destruct (n_truthy (n_div c (of_Z 1000)));
      [apply div_1000_nonneg; exact Hc | apply zero_le_zero]. }
  destruct (raw !! key year) as [s|]; cbn [fmap option_fmap option_map ToNumber].
  - destruct (parse_numeric s) eqn:Hparse.
    + left. unfold n_or_zero. fold (NaN : num). rewrite Hfalsy.
      apply zero_le_zero.
    + destruct (n_le (zero : num) (of_literal (LInf neg))) eqn:Hle.
      * left. apply Hpos, Hle.
      * right. exists s. rewrite Hparse. split; [reflexivity|]. split; [discriminate|exact Hle].
    + destruct (n_le (zero : num) (of_literal (LDec neg m e))) eqn:Hle.
      * left. apply Hpos, Hle.
      * right. exists s. rewrite Hparse. split; [reflexivity|]. split; [discriminate|exact Hle].
  - left. unfold n_or_zero. fold (NaN : num). rewrite Hfalsy.
    apply zero_le_zero.
Qed.
End TransformerClaims.

Section TransformerRows.
Context {num : Type} `{JSNumber num}.
Implicit Types (raw : gmap string string) (data : list (gmap string string)).

Lemma not_a_year_key k :
  (∀ y, 1950 ≤ y ≤ 2023 → k ≠ key y) → k ∉ key <$> years.
Proof.
  intros Hk (y & -> & Hy)%list_elem_of_fmap.
  apply elem_of_seqZ in Hy. apply (Hk y); [lia | reflexivity].
Qed.

(** A datum of the output is read from a row of the data that carries its
    label. *)
Lemma regionArmsData_row year data (x : RegionDatum num) :
  x ∈ regionArmsData year data →
  ∃ raw, raw ∈ data
         ∧ raw !! "Imports by Regions" = region x
         ∧ armsTrade x = or_zero ((convert_row (VStr <$> raw)
                                   : gmap string (value num)) !! key year).
Proof.
  intros (vs & Hin & Hv)%elem_of_regionArmsData.
  destruct (group_spec (filteredData (transformed data)) (label (num := num)))
    as [_ Hg].
  apply Hg in Hin as [-> Hne].
  destruct (filter _ _) as [|r rest] eqn:Hfilter; [congruence|].
  assert (r ∈ filter (λ a, label a = region x) (filteredData (transformed data)))
    as Hr by (rewrite Hfilter; left).
  apply list_elem_of_filter in Hr as [Hl Hr].
  apply list_elem_of_filter in Hr as [_ Hr].
  apply list_elem_of_fmap in Hr as (raw & -> & Hraw).
  rewrite label_transformed in Hl. rewrite first_value_cons in Hv.
  exists raw. split; [exact Hraw|]. split; [exact Hl | exact Hv].
Qed.

(** What a cell of a converted row holds: the string that [d3.csv]
    delivered, or the number the loop stored. *)
Lemma convert_row_cell raw (k : string) :
  (convert_row (VStr <$> raw) : gmap string (value num)) !! k = VStr <$> raw !! k
  ∨ ∃ a b : num, (convert_row (VStr <$> raw) : gmap string (value num)) !! k
                 = Some (VNum (n_or_zero (n_div a b))).
Proof.
  destruct (decide (k ∈ key <$> years)) as [Hin|Hnin].
  - right. apply list_elem_of_fmap in Hin as (y & -> & Hy).
    eexists _, _. unfold convert_row.
    apply convert_years_lookup; [apply NoDup_seqZ | exact Hy].
  - left. unfold convert_row. rewrite convert_years_other by exact Hnin.
    apply lookup_fmap.
Qed.

(** Every value of the output is 0, a string of the data read as a
    number, or a quotient that the loop stored. *)
Lemma regionArmsData_values (P : num → Prop) year data :
  P zero → (∀ l, P (of_literal l)) → (∀ a b, P (n_div a b)) →
  Forall (λ d, P (ToNumber (Some (armsTrade d)))) (regionArmsData year data).
Proof.
  intros Hzero Hlit Hdiv. apply Forall_forall. intros x Hx.
  destruct (regionArmsData_row year data x Hx) as (raw & _ & _ & ->).
  destruct (convert_row_cell raw (key year)) as [->|(a & b & ->)].
  - destruct (raw !! key year) as [s|]; cbn [fmap option_fmap option_map or_zero].
    + destruct (ToBoolean (Some (VStr s))); [apply Hlit | exact Hzero].
    + exact Hzero.
  - rewrite or_zero_n_or_zero. cbn [ToNumber]. unfold n_or_zero.
    destruct (n_truthy (n_div a b)); [apply Hdiv | exact Hzero].
Qed.
End TransformerRows.

(** ** The effect and the tooltip *)

Section ComponentClaims.
Context {num : Type} `{JSNumber num}.
Implicit Types (st : component num) (data : list (gmap string string)).

Lemma useEffect_resolved year data st :
  useEffect year (inl data) st = on_data year data (effect_start year st).
Proof.
  unfold useEffect, catch_, then_, d3_csv, on_data.
  destruct (n_eq _ _); [reflexivity|].
  destruct (legendInfo_from _ _ _) as [legend domain].
  destruct (slices_from _ _) as [g domain']. reflexivity.
Qed.

(** What a run leaves when the total is not zero: the legend is replaced,
    and the surface holds the title, the slices and their labels. *)
Lemma useEffect_chart year data st :
  n_eq (total year data) zero = false →
  useEffect year (inl data) st
  = (inl tt,
     {| svg := [title year; paths (slicesInfo year data);
                percent_labels (labelsInfo year data)];
        tooltip := tooltip st;
        legendData := legendInfo year data;
        totalArmsTrade := total year data;
        console := console st;
        requests := requests st ++ [dataUrl] |}).
Proof.
  intros Ht. rewrite useEffect_resolved.
  unfold on_data, slicesInfo, legendInfo, labelsInfo.
  fold (total year data). rewrite Ht.
  destruct (legendInfo_from _ _ _) as [legend domain].
  cbn [fst snd]. destruct (slices_from _ _) as [g domain']. reflexivity.
Qed.

(** C5. When the total of the selected year is 0, the run settles without
    an error and without a word on the console, and the surface holds the
    title and, in its middle, the text "No data available for this
    year": the placeholder is drawn and no slice path is. *)
Theorem zero_total_placeholder year data st :
  n_eq (total year data) zero = true →
  fst (useEffect year (inl data) st) = inl tt
  ∧ console (snd (useEffect year (inl data) st)) = console st
  ∧ svg (snd (useEffect year (inl data) st))
    = [text 250 30 ("Arms Imports by Region (" +:+ key year +:+ ")");
       text 250 300 "No data available for this year"]
  ∧ text 250 300 "No data available for this year"
      ∈ svg (snd (useEffect year (inl data) st))
  ∧ ∀ g, paths g ∉ svg (snd (useEffect year (inl data) st)).
Proof.
  intros Ht. rewrite useEffect_resolved. unfold on_data.
  fold (total year data). rewrite Ht. cbn [fst snd].
  split; [reflexivity|]. split; [reflexivity|].
  assert (svg (draw [placeholder] (setTotalArmsTrade (total year data)
                                     (effect_start year st)))
          = [text 250 30 ("Arms Imports by Region (" +:+ key year +:+ ")");
             text 250 300 "No data available for this year"]) as ->
    by reflexivity.
  split; [reflexivity|]. split.
  - apply elem_of_cons. right. apply list_elem_of_singleton. reflexivity.
  - intros g [Hg|Hg]%elem_of_cons; [discriminate|].
    apply list_elem_of_singleton in Hg. discriminate.
Qed.

(** C6, amended. When the fetch or the parse fails, the error is caught
    and logged on the console, the chain settles without an error, no
    second request is sent, and the callback draws nothing: the surface
    keeps the title that was drawn before the request, without slices,
    labels or placeholder; legend, total and tooltip stay as they were. *)
Theorem fetch_failure_logged year (e : error) st :
  fst (useEffect year (inr e) st) = inl tt
  ∧ console (snd (useEffect year (inr e) st))
    = console st ++ [("Error loading data:", e)]
  ∧ requests (snd (useEffect year (inr e) st)) = requests st ++ [dataUrl]
  ∧ svg (snd (useEffect year (inr e) st)) = [title year]
  ∧ legendData (snd (useEffect year (inr e) st)) = legendData st
  ∧ totalArmsTrade (snd (useEffect year (inr e) st)) = totalArmsTrade st
  ∧ tooltip (snd (useEffect year (inr e) st)) = tooltip st.
Proof. repeat split. Qed.

(** The position the handlers store and the position of the [div]. *)
Lemma mousemove_stored_position (event : MouseEvent num) prev :
  x (on_mousemove event prev) = n_add (pageX event) (of_Z 10)
  ∧ y (on_mousemove event prev) = n_add (pageY event) (of_Z 10).
Proof. split; reflexivity. Qed.

Lemma mousemove_tooltip_view (event : MouseEvent num) prev :
  visible prev = true →
  tooltip_view (on_mousemove event prev)
  = Some {| top := n_add (n_add (pageY event) (of_Z 10)) (of_Z 10);
            left := n_add (n_add (pageX event) (of_Z 10)) (of_Z 10);
            children := content prev |}.
Proof. intros Hv. unfold tooltip_view, on_mousemove. cbn. by rewrite Hv. Qed.

Lemma mouseenter_tooltip_view toLocaleString NumberToString t
    (event : MouseEvent num) d prev :
  let shown := on_mouseenter toLocaleString NumberToString t event d prev in
  tooltip_view shown
  = Some {| top := n_add (pageY event) (of_Z 10);
            left := n_add (pageX event) (of_Z 10);
            children := content shown |}.
Proof. reflexivity. Qed.

(** C10. A pointer move rewrites the two position fields of the tooltip
    state and nothing else: the visible flag and the content are those of
    before the event, and so is the rest of the state of the component. *)
Theorem mousemove_frame (event : MouseEvent num) st :
  visible (on_mousemove event (tooltip st)) = visible (tooltip st)
  ∧ content (on_mousemove event (tooltip st)) = content (tooltip st)
  ∧ svg (setTooltip (on_mousemove event) st) = svg st
  ∧ legendData (setTooltip (on_mousemove event) st) = legendData st
  ∧ totalArmsTrade (setTooltip (on_mousemove event) st) = totalArmsTrade st
  ∧ console (setTooltip (on_mousemove event) st) = console st
  ∧ requests (setTooltip (on_mousemove event) st) = requests st.
Proof. repeat split. Qed.
End ComponentClaims.

(** ** Colours *)

Section OrdinalFacts.
Context {K : Type} `{EqDecision K}.
Implicit Types (k : K) (domain ext : list K) (range : list string).

Lemma index_of_app_l k domain ext i :
  index_of k domain = Some i → index_of k (domain ++ ext) = Some i.
Proof.
  revert i. induction domain as [|k' domain IH]; intros i; [discriminate|].
  cbn [index_of app]. destruct (decide (k = k')); [tauto|].
  destruct (index_of k domain) as [j|]; [|discriminate].
  intros [= <-]. by rewrite (IH j eq_refl).
Qed.

Lemma index_of_fresh k domain :
  index_of k domain = None → index_of k (domain ++ [k]) = Some (length domain).
Proof.
  induction domain as [|k' domain IH]; cbn [index_of app length].
  - intros _. by rewrite decide_True.
  - destruct (decide (k = k')); [discriminate|].
    destruct (index_of k domain); [discriminate|].
    intros _. by rewrite IH.
Qed.

Lemma scaleOrdinal_known range domain k c domain1 :
  scaleOrdinal range domain k = (c, domain1) →
  known range domain1 k c ∧ ∃ ext, domain1 = domain ++ ext.
Proof.
  unfold scaleOrdinal, known.
  destruct (index_of k domain) as [i|] eqn:Hi; intros [= <- <-].
  - split; [|exists []; by rewrite app_nil_r].
    intros ext. unfold scaleOrdinal. by rewrite (index_of_app_l _ _ _ i).
  - split; [|by eexists].
    intros ext. unfold scaleOrdinal.
    by rewrite (index_of_app_l _ _ _ (length domain)) by by apply index_of_fresh.
Qed.

Lemma known_app range domain ext k c :
  known range domain k c → known range (domain ++ ext) k c.
Proof. intros Hk ext'. rewrite <- (assoc_L (++)). apply Hk. Qed.

Lemma known_now range domain k c :
  known range domain k c → scaleOrdinal range domain k = (c, domain).
Proof. intros Hk. specialize (Hk []). by rewrite app_nil_r in Hk. Qed.

Lemma known_functional range domain k c1 c2 :
  known range domain k c1 → known range domain k c2 → c1 = c2.
Proof. intros H1%known_now H2%known_now. congruence. Qed.
End OrdinalFacts.

Section ColourClaims.
Context {num : Type} `{JSNumber num}.
Implicit Types (st : component num) (data : list (gmap string string))
  (ds : list (RegionDatum num)) (domain : list (option string)).

Lemma legendInfo_from_known t domain ds :
  (∃ ext, snd (legendInfo_from t domain ds) = domain ++ ext)
  ∧ Forall (λ e, known schemeCategory10 (snd (legendInfo_from t domain ds))
                       (l_region e) (l_color e))
           (fst (legendInfo_from t domain ds))
  ∧ Forall (λ d, ∃ c, known schemeCategory10 (snd (legendInfo_from t domain ds))
                            (region d) c) ds.
Proof.
  revert domain. induction ds as [|d ds IH]; intros domain; cbn [legendInfo_from].
  - split; [exists []; by rewrite app_nil_r|]. split; constructor.
  - destruct (scaleOrdinal schemeCategory10 domain (region d)) as [c domain1] eqn:Hc.
    apply scaleOrdinal_known in Hc as [Hk [ext1 ->]].
    specialize (IH (domain ++ ext1)).
    destruct (legendInfo_from t (domain ++ ext1) ds) as [es domain2].
    cbn [fst snd] in *. destruct IH as ([ext2 ->] & Hes & Hds).
    split; [exists (ext1 ++ ext2); by rewrite (assoc_L (++))|].
    split; constructor; try done.
    + cbn [l_region l_color]. by apply known_app.
    + exists c. by apply known_app.
Qed.

Lemma legendInfo_from_domain t domain ds :
  snd (legendInfo_from t domain ds)
  = domain_after schemeCategory10 domain (region <$> ds).
Proof.
  revert domain. induction ds as [|d ds IH]; intros domain; [done|].
  cbn [legendInfo_from fmap list_fmap]. unfold domain_after. cbn [foldl].
  destruct (scaleOrdinal schemeCategory10 domain (region d)) as [c domain1].
  specialize (IH domain1).
  destruct (legendInfo_from t domain1 ds) as [es domain2].
  cbn [snd] in *. by rewrite IH.
Qed.

Lemma slices_from_known domain ds :
  Forall (λ d, ∃ c, known schemeCategory10 domain (region d) c) ds →
  snd (slices_from domain ds) = domain
  ∧ Forall (λ s, known schemeCategory10 domain (region (datum s)) (fill s))
           (fst (slices_from domain ds)).
Proof.
  induction 1 as [|d ds [c Hc] _ IH]; cbn [slices_from]; [by split|].
  rewrite (known_now _ _ _ _ Hc).
  destruct (slices_from domain ds) as [ss domain2]. cbn [fst snd] in *.
  destruct IH as [-> Hss]. split; [done|]. by constructor.
Qed.

(** Every colour a run with a total other than zero shows, in the legend
    or on a slice, is the one the scale settled on after it was asked for
    the regions in their order. *)
Lemma assigned_colors_known year data st l c :
  n_eq (total year data) zero = false →
  (l, c) ∈ assigned_colors (snd (useEffect year (inl data) st)) →
  known schemeCategory10
        (domain_after schemeCategory10 []
           (region <$> (regionArmsData year data : list (RegionDatum num))))
        l c.
Proof.
  intros Ht. rewrite (useEffect_chart _ _ _ Ht).
  unfold assigned_colors. cbn [snd legendData svg fmap list_fmap concat slice_colors].
  rewrite !app_nil_l, app_nil_r. unfold legendInfo, slicesInfo.
  rewrite <- legendInfo_from_domain with (t := total year data).
  destruct (legendInfo_from_known (total year data) []
              (regionArmsData year data)) as (_ & Hes & Hds).
  apply slices_from_known in Hds as [_ Hss].
  intros [Hin|Hin]%elem_of_app.
  - apply list_elem_of_fmap in Hin as (e & [= -> ->] & He).
    by apply (proj1 (Forall_forall _ _) Hes).
  - apply list_elem_of_fmap in Hin as (s & [= -> ->] & Hs).
    by apply (proj1 (Forall_forall _ _) Hss).
Qed.

(** C9, amended. Two runs over the same rows, whatever the two selected
    years, both with a total other than zero, give a region label the
    same colour: the colour follows the place of the label among the
    regions, not the label alone. *)
Theorem same_rows_same_colors data year1 year2 st1 st2 l c1 c2 :
  n_eq (total year1 data) zero = false →
  n_eq (total year2 data) zero = false →
  (l, c1) ∈ assigned_colors (snd (useEffect year1 (inl data) st1)) →
  (l, c2) ∈ assigned_colors (snd (useEffect year2 (inl data) st2)) →
  c1 = c2.
Proof.
  intros Ht1 Ht2 H1 H2.
  apply (assigned_colors_known _ _ _ _ _ Ht1) in H1.
  apply (assigned_colors_known _ _ _ _ _ Ht2) in H2.
  rewrite !regions_regionArmsData in *.
  by eapply known_functional.
Qed.
End ColourClaims.

(** ** Rounding to a floating-point format *)

Section RoundingSpec.
Variables prec emax : Z.
Hypothesis prec_gt_1 : 1 < prec.
Hypothesis prec_lt_emax : prec < emax.

Lemma digits2_pos_bounds (p : positive) :
  2 ^ (Zpos (digits2_pos p) - 1) ≤ Zpos p < 2 ^ Zpos (digits2_pos p).
Proof.
  induction p as [p IH|p IH|]; cbn [digits2_pos].
  - rewrite Pos2Z.inj_succ. unfold Z.succ.
    replace (Z.pos (digits2_pos p) + 1 - 1) with (Z.succ (Z.pos (digits2_pos p) - 1)) by lia.
    rewrite Z.pow_succ_r by lia.
    replace (Z.pos (digits2_pos p) + 1) with (Z.succ (Z.pos (digits2_pos p))) by lia.
    rewrite Z.pow_succ_r by lia. lia.
  - rewrite Pos2Z.inj_succ. unfold Z.succ.
    replace (Z.pos (digits2_pos p) + 1 - 1) with (Z.succ (Z.pos (digits2_pos p) - 1)) by lia.
    rewrite Z.pow_succ_r by lia.
    replace (Z.pos (digits2_pos p) + 1) with (Z.succ (Z.pos (digits2_pos p))) by lia.
    rewrite Z.pow_succ_r by lia. lia.
  - simpl. lia.
Qed.

Lemma Zdigits2_nonneg m : 0 ≤ Zdigits2 m.
Proof. destruct m; simpl; lia. Qed.

Lemma Zdigits2_bounds m :
  0 < m → 2 ^ (Zdigits2 m - 1) ≤ m < 2 ^ Zdigits2 m.
Proof. destruct m as [|p|p]; try lia. intros _. apply digits2_pos_bounds. Qed.

(** A number below [2^k] has at most [k] digits. *)
Lemma Zdigits2_le m k : 0 ≤ k → 0 ≤ m < 2 ^ k → Zdigits2 m ≤ k.
Proof.
  intros Hk [Hm0 Hm]. destruct (Z.eq_dec m 0) as [->|Hne]; [simpl; lia|].
  pose proof (Zdigits2_bounds m ltac:(lia)) as [Hlo _].
  destruct (Z.le_gt_cases (Zdigits2 m) k) as [|Hgt]; [done|].
  assert (2 ^ k ≤ 2 ^ (Zdigits2 m - 1)) by (apply Z.pow_le_mono_r; lia). lia.
Qed.

(** A number from [2^k] on has more than [k] digits. *)
Lemma Zdigits2_gt m k : 0 ≤ k → 2 ^ k ≤ m → k < Zdigits2 m.
Proof.
  intros Hk Hm. assert (0 < m) as Hpos by (pose proof (Z.pow_pos_nonneg 2 k); lia).
  pose proof (Zdigits2_bounds m Hpos) as [_ Hhi].
  destruct (Z.lt_ge_cases k (Zdigits2 m)) as [|Hge]; [done|].
  assert (2 ^ Zdigits2 m ≤ 2 ^ k)
    by (apply Z.pow_le_mono_r; [lia | exact Hge]). lia.
Qed.

Lemma iter_pos_nat {A : Type} (f : A → A) (n : positive) (a : A) :
  SpecFloat.iter_pos f n a = Nat.iter (Pos.to_nat n) f a.
Proof.
  revert a. induction n as [n IH|n IH|]; intros a; cbn [SpecFloat.iter_pos].
  - rewrite !IH. rewrite Pos2Nat.inj_xI.
    replace (S (2 * Pos.to_nat n)) with (Pos.to_nat n + (Pos.to_nat n + 1))%nat by lia.
    rewrite !Nat.iter_add. reflexivity.
  - rewrite !IH. rewrite Pos2Nat.inj_xO.
    replace (2 * Pos.to_nat n)%nat with (Pos.to_nat n + Pos.to_nat n)%nat by lia.
    rewrite Nat.iter_add. reflexivity.
  - reflexivity.
Qed.

Lemma shr_1_div2 mrs : 0 ≤ shr_m mrs → shr_m (shr_1 mrs) = shr_m mrs / 2.
Proof.
  destruct mrs as [m r s]. cbn [shr_m shr_1]. intros Hm.
  destruct m as [|[p|p|]|p]; cbn [shr_m]; [reflexivity| | |reflexivity|lia].
  - rewrite Pos2Z.inj_xI. apply (Z.div_unique _ 2 _ 1); lia.
  - rewrite Pos2Z.inj_xO. apply (Z.div_unique _ 2 _ 0); lia.
Qed.

Lemma shr_iter_div k mrs :
  0 ≤ shr_m mrs →
  shr_m (Nat.iter k shr_1 mrs) = shr_m mrs / 2 ^ Z.of_nat k.
Proof.
  intros Hm. induction k as [|k IH].
  - simpl. by rewrite Z.div_1_r.
  - change (Nat.iter (S k) shr_1 mrs) with (shr_1 (Nat.iter k shr_1 mrs)).
    rewrite shr_1_div2.
    + rewrite IH, Nat2Z.inj_succ, Z.pow_succ_r by lia.
      rewrite Z.div_div by (try apply Z.pow_pos_nonneg; lia).
      f_equal. lia.
    + rewrite IH. apply Z.div_pos; [done|]. apply Z.pow_pos_nonneg; lia.
Qed.

(** The mantissa that [shr] leaves is the quotient by the power of two. *)
Lemma shr_spec mrs e n :
  0 ≤ shr_m mrs → 0 ≤ n →
  shr_m (fst (shr mrs e n)) = shr_m mrs / 2 ^ n ∧ snd (shr mrs e n) = e + n.
Proof.
  intros Hm Hn. destruct n as [|p|p]; [| |lia]; cbn [shr fst snd].
  - rewrite Z.div_1_r. split; [reflexivity | lia].
  - rewrite iter_pos_nat, shr_iter_div by done.
    by rewrite positive_nat_Z.
Qed.

Lemma shr_not_shifted mrs e n : n ≤ 0 → shr mrs e n = (mrs, e).
Proof. destruct n; try reflexivity. lia. Qed.

Lemma round_nearest_even_cases m l :
  round_nearest_even m l = m ∨ round_nearest_even m l = m + 1.
Proof. destruct l as [|[]]; cbn; try destruct (Z.even m); auto. Qed.

Lemma shr_record_of_loc_m m l : shr_m (shr_record_of_loc m l) = m.
Proof. by destruct l as [|[]]. Qed.

Lemma loc_of_shr_record_of_loc m l :
  loc_of_shr_record (shr_record_of_loc m l) = l.
Proof. by destruct l as [|[]]. Qed.

Lemma fexp_ge_emin e : emin prec emax ≤ fexp prec emax e.
Proof. unfold fexp. lia. Qed.

Lemma emin_lt_emax : emin prec emax < emax - prec.
Proof. unfold emin. lia. Qed.

Lemma round_finish s m e :
  0 ≤ m →
  match m with
  | 0 => S754_zero s
  | Z.pos p => if e <=? emax - prec then S754_finite s p e else S754_infinity s
  | Z.neg _ => S754_nan
  end
  = if m =? 0 then S754_zero s
    else if e <=? emax - prec then S754_finite s (Z.to_pos m) e
         else S754_infinity s.
Proof. destruct m; [reflexivity | reflexivity | lia]. Qed.

(** [binary_round_aux] on a mantissa [mx] that has enough digits for its
    exponent: the mantissa is cut to [mr], the quotient of [mx] by the
    power of two between the two exponents, and the result carries [mr] or
    [mr + 1]; where nothing is cut and the location is exact, it carries
    [mx]. *)
Lemma binary_round_aux_spec s mx ex lx :
  0 ≤ mx → ex ≤ fexp prec emax (Zdigits2 mx + ex) →
  let e1 := fexp prec emax (Zdigits2 mx + ex) in
  let mr := mx / 2 ^ (e1 - ex) in
  mr < 2 ^ prec
  ∧ (e1 = emin prec emax ∨ 2 ^ (prec - 1) ≤ mr)
  ∧ ∃ m1, (m1 = mr ∨ m1 = mr + 1)
      ∧ (e1 = ex → lx = loc_Exact → m1 = mx)
      ∧ binary_round_aux prec emax s mx ex lx
        = if m1 =? 0 then S754_zero s
          else if m1 <? 2 ^ prec then
            if e1 <=? emax - prec then S754_finite s (Z.to_pos m1) e1
            else S754_infinity s
          else
            if e1 + 1 <=? emax - prec
            then S754_finite s (Z.to_pos (2 ^ (prec - 1))) (e1 + 1)
            else S754_infinity s.
Proof.
  intros Hm HP e1 mr.
  assert (e1 = fexp prec emax (Zdigits2 mx + ex)) as He1 by reflexivity.
  assert (mr = mx / 2 ^ (e1 - ex)) as Hmrdef by reflexivity.
  clearbody e1 mr. rewrite <- He1 in HP.
  assert (emin prec emax ≤ e1) as Hemin by (rewrite He1; apply fexp_ge_emin).
  assert (0 ≤ e1 - ex) as Hk by lia.
  assert (0 < 2 ^ (e1 - ex)) as Hpow by (apply Z.pow_pos_nonneg; lia).
  assert (0 ≤ mr) as Hmr0 by (rewrite Hmrdef; apply Z.div_pos; lia).
  assert (mr < 2 ^ prec ∧ (e1 = emin prec emax ∨ 2 ^ (prec - 1) ≤ mr)) as [Hmr Hnorm].
  { destruct (Z.eq_dec mx 0) as [->|Hne].
    - rewrite Hmrdef, Z.div_0_l by lia. split.
      + apply Z.pow_pos_nonneg; lia.
      + left. unfold fexp in He1. cbn [Zdigits2] in He1. lia.
    - pose proof (Zdigits2_bounds mx ltac:(lia)) as [Hlo Hhi].
      pose proof (Zdigits2_nonneg mx) as Hd. split.
      + rewrite Hmrdef. apply Z.div_lt_upper_bound; [done|].
        rewrite <- Z.pow_add_r by lia.
        eapply Z.lt_le_trans; [exact Hhi|].
        apply Z.pow_le_mono_r; [lia|]. unfold fexp in He1. lia.
      + destruct (Z.eq_dec e1 (emin prec emax)) as [|Hnemin]; [by left|right].
        assert (e1 - ex = Zdigits2 mx - prec) as Hshift
          by (unfold fexp in He1; lia).
        rewrite Hmrdef. apply Z.div_le_lower_bound; [done|].
        rewrite <- Z.pow_add_r by lia.
        replace (e1 - ex + (prec - 1)) with (Zdigits2 mx - 1) by lia.
        exact Hlo. }
  split; [exact Hmr|]. split; [exact Hnorm|].
  unfold binary_round_aux.
  pose proof (shr_spec (shr_record_of_loc mx lx) ex (e1 - ex)) as Hshr.
  rewrite shr_record_of_loc_m in Hshr. specialize (Hshr Hm Hk).
  unfold shr_fexp at 1. rewrite <- He1.
  destruct (shr (shr_record_of_loc mx lx) ex (e1 - ex)) as [mrs' e'] eqn:E1.
  cbn [fst snd] in Hshr. destruct Hshr as [Hm' He'].
  replace e' with e1 in * by lia. rewrite <- Hmrdef in Hm'.
  set (m1 := round_nearest_even (shr_m mrs') (loc_of_shr_record mrs')).
  assert (m1 = mr ∨ m1 = mr + 1) as Hm1
    by (unfold m1; rewrite <- Hm'; apply round_nearest_even_cases).
  exists m1. split; [exact Hm1|]. split.
  { intros Heq ->. rewrite shr_not_shifted in E1 by lia.
    assert (mrs' = shr_record_of_loc mx loc_Exact) as Hrec by congruence.
    unfold m1. rewrite Hrec. reflexivity. }
  clearbody m1.
  unfold shr_fexp. cbn [shr_record_of_loc].
  destruct (Z.eqb_spec m1 0) as [->|Hne0].
  { cbn [Zdigits2]. rewrite shr_not_shifted by (unfold fexp; lia). reflexivity. }
  destruct (Z.ltb_spec m1 (2 ^ prec)) as [Hlt|Hge].
  - assert (Zdigits2 m1 ≤ prec) as Hd1 by (apply Zdigits2_le; lia).
    rewrite shr_not_shifted by (unfold fexp; lia). cbn [shr_m].
    rewrite round_finish by lia.
    destruct (Z.eqb_spec m1 0); [lia | reflexivity].
  - assert (m1 = 2 ^ prec) as -> by lia.
    assert (Zdigits2 (2 ^ prec) = prec + 1) as ->.
    { apply Z.le_antisymm.
      - apply Zdigits2_le; [lia|]. split; [lia|].
        apply Z.pow_lt_mono_r; lia.
      - pose proof (Zdigits2_gt (2 ^ prec) prec ltac:(lia) ltac:(lia)). lia. }
    assert (fexp prec emax (prec + 1 + e1) - e1 = 1) as -> by (unfold fexp; lia).
    pose proof (shr_spec {| shr_m := 2 ^ prec; shr_r := false; shr_s := false |}
                  e1 1) as Hshr2.
    cbn [shr_m] in Hshr2. specialize (Hshr2 ltac:(lia) ltac:(lia)).
    destruct (shr _ e1 1) as [mrs'' e''] eqn:E2.
    cbn [fst snd] in Hshr2. destruct Hshr2 as [-> ->].
    assert (2 ^ prec / 2 ^ 1 = 2 ^ (prec - 1)) as ->.
    { replace prec with (1 + (prec - 1)) at 1 by lia.
      rewrite Z.pow_add_r by lia. rewrite Z.mul_comm, Z.div_mul by lia. reflexivity. }
    assert (0 < 2 ^ (prec - 1)) as Hpos by (apply Z.pow_pos_nonneg; lia).
    rewrite round_finish by lia.
    destruct (Z.eqb_spec (2 ^ (prec - 1)) 0); [lia | reflexivity].
Qed.

Lemma binary_round_aux_above_emin s mx ex lx :
  0 ≤ mx → ex ≤ fexp prec emax (Zdigits2 mx + ex) →
  above_emin prec emax (binary_round_aux prec emax s mx ex lx).
Proof.
  intros Hm HP.
  destruct (binary_round_aux_spec s mx ex lx Hm HP)
    as (_ & _ & m1 & _ & _ & ->).
  pose proof (fexp_ge_emin (Zdigits2 mx + ex)) as Hemin.
  destruct (m1 =? 0); [exact I|].
  destruct (m1 <? 2 ^ prec).
  - destruct (_ <=? _); [exact Hemin | exact I].
  - destruct (_ <=? _); [cbn; lia | exact I].
Qed.

Lemma iter_xO_pow2 (m d : positive) :
  Zpos (Pos.iter xO m d) = Zpos m * 2 ^ Zpos d.
Proof.
  induction d as [|d IH] using Pos.peano_ind.
  - cbn [Pos.iter]. rewrite Pos2Z.inj_xO. lia.
  - rewrite Pos.iter_succ, Pos2Z.inj_xO, IH, Pos2Z.inj_succ.
    rewrite Z.pow_succ_r by lia. lia.
Qed.

(** [shl_align] lowers the exponent to [e'] and keeps the value. *)
Lemma shl_align_spec (m : positive) e e' :
  Zpos (fst (shl_align m e e')) = Zpos m * 2 ^ (e - snd (shl_align m e e'))
  ∧ snd (shl_align m e e') = Z.min e e'.
Proof.
  unfold shl_align. destruct (e' - e) as [|d|d] eqn:Hd; cbn [fst snd].
  - rewrite Z.sub_diag. split; lia.
  - rewrite Z.sub_diag. split; lia.
  - rewrite iter_xO_pow2. replace (e - e') with (Z.pos d) by lia. split; lia.
Qed.

Lemma Zdigits2_mul_pow2 m k :
  0 < m → 0 ≤ k → Zdigits2 (m * 2 ^ k) = Zdigits2 m + k.
Proof.
  intros Hm Hk. pose proof (Zdigits2_bounds m Hm) as [Hlo Hhi].
  pose proof (Zdigits2_nonneg m) as Hd.
  assert (0 < Zdigits2 m) as Hd'.
  { destruct (Z.eq_dec (Zdigits2 m) 0) as [H0|]; [|lia].
    rewrite H0 in Hhi. simpl in Hhi. lia. }
  assert (0 < 2 ^ k) as Hpk by (apply Z.pow_pos_nonneg; lia).
  apply Z.le_antisymm.
  - apply Zdigits2_le; [lia|]. split; [lia|].
    rewrite Z.pow_add_r by lia. apply Z.mul_lt_mono_pos_r; lia.
  - assert (Zdigits2 m - 1 + k < Zdigits2 (m * 2 ^ k)); [|lia].
    apply Zdigits2_gt; [lia|].
    rewrite Z.pow_add_r by lia. apply Z.mul_le_mono_nonneg_r; lia.
Qed.

(** The mantissa and exponent that [binary_round] hands to
    [binary_round_aux] have the value of the ones it was given, and enough
    digits. *)
Lemma binary_round_aligned (m : positive) e :
  let e' := fexp prec emax (Zpos (digits2_pos m) + e) in
  let mz := fst (shl_align m e e') in
  let ez := snd (shl_align m e e') in
  Zpos mz = Zpos m * 2 ^ (e - ez)
  ∧ ez = Z.min e e'
  ∧ ez ≤ fexp prec emax (Zdigits2 (Zpos mz) + ez).
Proof.
  intros e' mz ez.
  destruct (shl_align_spec m e e') as [Hv He]. fold mz ez in Hv, He.
  split; [exact Hv|]. split; [exact He|].
  rewrite Hv, Zdigits2_mul_pow2 by lia.
  replace (Zdigits2 (Z.pos m) + (e - ez) + ez) with (Z.pos (digits2_pos m) + e)
    by (cbn [Zdigits2]; lia).
  fold e'. lia.
Qed.

Lemma binary_round_unfold s (m : positive) e :
  binary_round prec emax s m e
  = binary_round_aux prec emax s
      (Zpos (fst (shl_align m e (fexp prec emax (Zpos (digits2_pos m) + e)))))
      (snd (shl_align m e (fexp prec emax (Zpos (digits2_pos m) + e))))
      loc_Exact.
Proof. unfold binary_round. by destruct (shl_align _ _ _). Qed.

Lemma binary_round_above_emin s (m : positive) e :
  above_emin prec emax (binary_round prec emax s m e).
Proof.
  rewrite binary_round_unfold.
  destruct (binary_round_aligned m e) as (_ & _ & HP).
  by apply binary_round_aux_above_emin.
Qed.

(** The quotient that [SFdiv_core_binary] hands to [binary_round_aux]. *)
Lemma SFdiv_core_binary_spec (m1 m2 : positive) e1 e2 :
  ∃ q r e', SFdiv_core_binary prec emax (Zpos m1) e1 (Zpos m2) e2
            = (q, e', new_location (Zpos m2) r)
    ∧ e' ≤ e1 - e2
    ∧ Zpos m1 * 2 ^ (e1 - e2 - e') = Zpos m2 * q + r
    ∧ 0 ≤ r < Zpos m2
    ∧ 0 ≤ q
    ∧ e' ≤ fexp prec emax (Zdigits2 q + e').
Proof.
  unfold SFdiv_core_binary.
  set (D := Zdigits2 (Z.pos m1) + e1 - (Zdigits2 (Z.pos m2) + e2)).
  set (e' := Z.min (fexp prec emax D) (e1 - e2)).
  assert (e' ≤ e1 - e2) as He' by (unfold e'; lia).
  set (m' := match e1 - e2 - e' with
             | 0 => Z.pos m1
             | Z.pos _ => Z.shiftl (Z.pos m1) (e1 - e2 - e')
             | Z.neg _ => 0
             end).
  assert (m' = Z.pos m1 * 2 ^ (e1 - e2 - e')) as Hm'.
  { unfold m'. destruct (e1 - e2 - e') as [|p|p] eqn:Hs; [lia| |lia].
    apply Z.shiftl_mul_pow2. lia. }
  pose proof (Z.div_eucl_eq m' (Z.pos m2) ltac:(lia)) as Heq.
  pose proof (Z.mod_pos_bound m' (Z.pos m2) ltac:(lia)) as Hmod.
  unfold Z.modulo in Hmod.
  destruct (Z.div_eucl m' (Z.pos m2)) as [q r] eqn:Hqr.
  exists q, r, e'. split; [reflexivity|]. split; [exact He'|].
  split; [lia|]. split; [exact Hmod|].
  assert (0 < 2 ^ (e1 - e2 - e')) as Hpow by (apply Z.pow_pos_nonneg; lia).
  assert (0 ≤ m') as Hm'0 by lia.
  assert (0 ≤ q) as Hq by nia.
  split; [exact Hq|].
  pose proof (fexp_ge_emin (Zdigits2 q + e')) as Hemin.
  destruct (Z.le_gt_cases e' (emin prec emax)) as [|Hgt]; [lia|].
  assert (e' ≤ D - prec) as HD by (unfold e', fexp in *; lia).
  pose proof (Zdigits2_bounds (Z.pos m1) ltac:(lia)) as [Hlo1 _].
  pose proof (Zdigits2_bounds (Z.pos m2) ltac:(lia)) as [_ Hhi2].
  assert (0 < Zdigits2 (Z.pos m1) ∧ 0 < Zdigits2 (Z.pos m2)) as [Hd1 Hd2]
    by (cbn [Zdigits2]; lia).
  assert (2 ^ (prec - 1) ≤ q) as Hnormal.
  { assert (2 ^ (prec + Zdigits2 (Z.pos m2) - 1) ≤ m') as Hbig.
    { rewrite Hm'.
      eapply Z.le_trans;
        [|apply Z.mul_le_mono_nonneg_r; [lia | exact Hlo1]].
      rewrite <- Z.pow_add_r by (unfold D in HD; lia).
      apply Z.pow_le_mono_r; [lia|]. unfold D in HD. lia. }
    replace (prec + Zdigits2 (Z.pos m2) - 1)
      with (prec - 1 + Zdigits2 (Z.pos m2)) in Hbig by lia.
    rewrite Z.pow_add_r in Hbig by lia.
    assert (0 < 2 ^ (prec - 1)) by (apply Z.pow_pos_nonneg; lia).
    destruct (Z.le_gt_cases (2 ^ (prec - 1)) q) as [|Hlt]; [done|]. nia. }
  pose proof (Zdigits2_gt q (prec - 1) ltac:(lia) Hnormal).
  unfold fexp. lia.
Qed.

Lemma new_location_exact nb k : new_location nb k = loc_Exact → k = 0.
Proof.
  unfold new_location, new_location_even, new_location_odd.
  destruct (Z.even nb); destruct (Z.eqb_spec k 0); done.
Qed.

Lemma SFdiv_above_emin x y : above_emin prec emax (SFdiv prec emax x y).
Proof.
  destruct x as [sx|sx| |sx mx ex], y as [sy|sy| |sy my ey]; try exact I.
  unfold SFdiv.
  destruct (SFdiv_core_binary_spec mx my ex ey)
    as (q & r & e' & -> & _ & _ & _ & Hq & HP).
  by apply binary_round_aux_above_emin.
Qed.

Open Scope Q_scope.

Lemma pow2_pos (e : Z) : 0 < 2 ^ e.
Proof. by apply Qpower_0_lt. Qed.

Lemma pow2_add (a b : Z) : 2 ^ (a + b) == 2 ^ a * 2 ^ b.
Proof. by apply Qpower_plus. Qed.

Lemma pow2_le (a b : Z) : (a ≤ b)%Z → 2 ^ a <= 2 ^ b.
Proof. intros Hab. by apply Qpower_le_compat_l. Qed.

Lemma pow2_Z (n : Z) : (0 ≤ n)%Z → inject_Z (2 ^ n) == 2 ^ n.
Proof. intros Hn. by rewrite Zpower_Qpower. Qed.

(** The value of what [binary_round_aux] returns, beside the number [x]
    that lies in the interval the mantissa and the location describe:
    the infinity only from [2^(emax-1)] on; otherwise a number within a
    relative error of [2^(1-prec)] of [x], or within [2^emin] of it and
    then equal to [x] where nothing was cut. *)
Lemma binary_round_aux_value mx ex lx (x : Q) :
  (0 ≤ mx)%Z → (ex ≤ fexp prec emax (Zdigits2 mx + ex))%Z →
  inject_Z mx * 2 ^ ex <= x → x < inject_Z (mx + 1) * 2 ^ ex →
  (lx = loc_Exact → x == inject_Z mx * 2 ^ ex) →
  let f := binary_round_aux prec emax false mx ex lx in
  (f = S754_infinity false ∧ 2 ^ (emax - 1) <= x)
  ∨ (finite_nonneg f = true ∧ above_emin prec emax f
     ∧ (Qabs (SF2Q f - x) <= 2 ^ (1 - prec) * x
        ∨ (Qabs (SF2Q f - x) <= 2 ^ emin prec emax
           ∧ ((emin prec emax ≤ ex)%Z → lx = loc_Exact → SF2Q f == x)))).
Proof.
  intros Hm HP Hlo Hhi Hexact f.
  pose proof (binary_round_aux_above_emin false mx ex lx Hm HP) as Hwf.
  fold f in Hwf.
  destruct (binary_round_aux_spec false mx ex lx Hm HP)
    as (Hmr & Hnorm & m1 & Hm1 & Hsame & Heq).
  fold f in Heq.
  pose proof (fexp_ge_emin (Zdigits2 mx + ex)) as Hemin.
  pose proof emin_lt_emax as Hemax.
  remember (fexp prec emax (Zdigits2 mx + ex)) as e1 eqn:He1.
  remember (mx / 2 ^ (e1 - ex))%Z as mr eqn:Hmrdef.
  assert (0 ≤ e1 - ex)%Z as Hk by lia.
  assert (0 < 2 ^ (e1 - ex))%Z as Hpow by (apply Z.pow_pos_nonneg; lia).
  assert (0 ≤ mr)%Z as Hmr0 by (rewrite Hmrdef; apply Z.div_pos; lia).
  assert (mr * 2 ^ (e1 - ex) ≤ mx)%Z as Hcut1.
  { rewrite Hmrdef, Z.mul_comm. by apply Z.mul_div_le. }
  assert (mx + 1 ≤ (mr + 1) * 2 ^ (e1 - ex))%Z as Hcut2.
  { pose proof (Z.mul_succ_div_gt mx (2 ^ (e1 - ex)) Hpow) as Hgt.
    rewrite <- Hmrdef in Hgt. lia. }
  set (P1 := 2 ^ e1).
  assert (0 < P1) as HP1 by apply pow2_pos.
  assert (P1 == inject_Z (2 ^ (e1 - ex)) * 2 ^ ex) as HP1eq.
  { unfold P1. rewrite pow2_Z by done. rewrite <- pow2_add.
    by replace (e1 - ex + ex)%Z with e1 by lia. }
  assert (0 < 2 ^ ex) as Hpex by apply pow2_pos.
  assert (inject_Z mr * P1 <= x) as HY0.
  { eapply Qle_trans; [|exact Hlo]. rewrite HP1eq, Qmult_assoc.
    apply Qmult_le_compat_r; [|lra].
    rewrite <- inject_Z_mult. by rewrite <- Zle_Qle. }
  assert (x < (inject_Z mr + 1) * P1) as HY1.
  { eapply Qlt_le_trans; [exact Hhi|]. rewrite HP1eq, Qmult_assoc.
    apply Qmult_le_compat_r; [|lra].
    change 1 with (inject_Z 1). rewrite <- inject_Z_plus, <- inject_Z_mult.
    by rewrite <- Zle_Qle. }
  assert ((2 ^ (prec - 1) ≤ mr)%Z → P1 <= 2 ^ (1 - prec) * x) as Hrel.
  { intros Hnormal.
    assert (1 <= 2 ^ (1 - prec) * inject_Z mr) as H1.
    { assert (2 ^ (1 - prec) * 2 ^ (prec - 1) == 1) as <-.
      { rewrite <- pow2_add. by replace (1 - prec + (prec - 1))%Z with 0%Z by lia. }
      apply Qmult_le_l; [apply pow2_pos|].
      rewrite <- pow2_Z by lia. by rewrite <- Zle_Qle. }
    eapply Qle_trans; [|apply Qmult_le_l; [apply pow2_pos | exact HY0]].
    rewrite Qmult_assoc. rewrite <- (Qmult_1_l P1) at 1.
    apply Qmult_le_compat_r; [exact H1 | lra]. }
  assert (∀ v, (v == inject_Z mr * P1 ∨ v == (inject_Z mr + 1) * P1) →
               Qabs (v - x) <= P1) as Hclose.
  { intros v Hv. apply Qabs_Qle_condition.
    set (Y := inject_Z mr * P1) in *.
    assert ((inject_Z mr + 1) * P1 == Y + P1) as HYP by (unfold Y; ring).
    rewrite HYP in *. clearbody Y P1.
    destruct Hv as [Hv|Hv]; split; lra. }
  assert (inject_Z m1 * P1 == inject_Z mr * P1
          ∨ inject_Z m1 * P1 == (inject_Z mr + 1) * P1) as Hv1.
  { destruct Hm1 as [->| ->]; [by left|right].
    rewrite inject_Z_plus. reflexivity. }
  assert ((e1 = emin prec emax → (emin prec emax ≤ ex)%Z → lx = loc_Exact →
           inject_Z m1 * P1 == x)) as Hsame'.
  { intros He Hex Hl. assert (e1 = ex) as Hee by lia.
    rewrite (Hsame Hee Hl), (Hexact Hl). unfold P1. by rewrite Hee. }
  destruct (Z.eqb_spec m1 0) as [Hm10|Hm10].
  { right. rewrite Heq. split; [done|]. split; [done|]. right.
    assert (mr = 0)%Z as Hmr00 by lia.
    assert (e1 = emin prec emax) as He.
    { destruct Hnorm as [|Hn]; [done|]. rewrite Hmr00 in Hn.
      pose proof (Z.pow_pos_nonneg 2 (prec - 1)). lia. }
    cbn [SF2Q]. split.
    - rewrite <- He. fold P1.
      assert (0 == inject_Z m1 * P1) as -> by (rewrite Hm10; ring).
      by apply Hclose.
    - intros Hex Hl. rewrite <- (Hsame' He Hex Hl). rewrite Hm10. ring. }
  assert (0 < m1)%Z as Hm1pos by lia.
  assert (∀ e, SF2Q (S754_finite false (Z.to_pos m1) e) == inject_Z m1 * 2 ^ e)
    as Hval.
  { intros e. cbn [SF2Q]. by rewrite Z2Pos.id. }
  assert (Qabs (inject_Z m1 * P1 - x) <= 2 ^ (1 - prec) * x
          ∨ Qabs (inject_Z m1 * P1 - x) <= 2 ^ emin prec emax
            ∧ ((emin prec emax ≤ ex)%Z → lx = loc_Exact → inject_Z m1 * P1 == x))
    as Herr.
  { destruct Hnorm as [He|Hn].
    - right. split; [|by apply Hsame'].
      rewrite <- He. fold P1. by apply Hclose.
    - left. eapply Qle_trans; [by apply Hclose | by apply Hrel]. }
  destruct (Z.ltb_spec m1 (2 ^ prec)) as [Hlt|Hge].
  - destruct (Z.leb_spec e1 (emax - prec)) as [Hfin|Hinf].
    + right. rewrite Heq. split; [done|]. split; [rewrite Heq in Hwf; done|].
      setoid_rewrite (Hval e1). fold P1. exact Herr.
    + left. split; [done|].
      destruct Hnorm as [He|Hn]; [lia|].
      eapply Qle_trans; [|exact HY0].
      assert (2 ^ (emax - 1) <= 2 ^ (prec - 1) * P1) as Hbig.
      { unfold P1. rewrite <- pow2_add. apply pow2_le. lia. }
      eapply Qle_trans; [exact Hbig|].
      apply Qmult_le_compat_r; [|lra].
      rewrite <- pow2_Z by lia. by rewrite <- Zle_Qle.
  - assert (m1 = 2 ^ prec)%Z as Hm1eq by lia.
    assert (mr = 2 ^ prec - 1)%Z as Hmreq by lia.
    assert (2 ^ prec = 2 * 2 ^ (prec - 1))%Z as Hpp.
    { rewrite <- Z.pow_succ_r by lia. f_equal. lia. }
    assert (2 ^ (prec - 1) ≤ mr)%Z as Hn.
    { pose proof (Z.pow_pos_nonneg 2 (prec - 1)). lia. }
    destruct (Z.leb_spec (e1 + 1) (emax - prec)) as [Hfin|Hinf].
    + right. rewrite Heq. split; [done|]. split; [rewrite Heq in Hwf; done|].
      assert (SF2Q (S754_finite false (Z.to_pos (2 ^ (prec - 1))) (e1 + 1))
              == inject_Z m1 * P1) as Hv.
      { cbn [SF2Q]. rewrite Z2Pos.id by (apply Z.pow_pos_nonneg; lia).
        rewrite pow2_add, Hm1eq, Hpp, inject_Z_mult. unfold P1.
        change (2 ^ 1) with 2. change (inject_Z 2) with 2. ring. }
      setoid_rewrite Hv. exact Herr.
    + left. split; [done|].
      eapply Qle_trans; [|exact HY0].
      assert (2 ^ (emax - 1) <= 2 ^ (prec - 1) * P1) as Hbig.
      { unfold P1. rewrite <- pow2_add. apply pow2_le. lia. }
      eapply Qle_trans; [exact Hbig|].
      apply Qmult_le_compat_r; [|lra].
      rewrite <- pow2_Z by lia. by rewrite <- Zle_Qle.
Qed.

Lemma unit_roundoff_bounds : 0 < 2 ^ (1 - prec) ∧ 2 ^ (1 - prec) <= 1 # 2.
Proof.
  split; [apply pow2_pos|].
  change (1 # 2) with (2 ^ (-1)). apply pow2_le. lia.
Qed.

Lemma Qabs_zero_le (a b c : Q) : a == b → 0 <= c → Qabs (a - b) <= c.
Proof.
  intros Hab Hc. assert (a - b == 0) as -> by lra. exact Hc.
Qed.

(** From a value that is exact or within one of the two errors to a
    single bound. *)
Lemma round_error_bound (v X : Q) (P : Prop) :
  0 <= X →
  Qabs (v - X) <= 2 ^ (1 - prec) * X
  ∨ (Qabs (v - X) <= 2 ^ emin prec emax ∧ P) →
  Qabs (v - X) <= 2 ^ (1 - prec) * X + 2 ^ emin prec emax.
Proof.
  intros HX Herr. pose proof unit_roundoff_bounds as [Hu _].
  pose proof (pow2_pos (emin prec emax)) as Heta.
  assert (0 <= 2 ^ (1 - prec) * X) as HuX by (apply Qmult_le_0_compat; lra).
  destruct Herr as [Hrel|[Habs _]]; lra.
Qed.

(** [binary_round] of a number whose exponent is not below [emin]: the
    infinity, or a number within a relative error of [2^(1-prec)]. *)
Lemma binary_round_value (m : positive) e :
  (emin prec emax ≤ e)%Z →
  let X := inject_Z (Zpos m) * 2 ^ e in
  let f := binary_round prec emax false m e in
  (f = S754_infinity false ∧ 2 ^ (emax - 1) <= X)
  ∨ (finite_nonneg f = true ∧ above_emin prec emax f
     ∧ Qabs (SF2Q f - X) <= 2 ^ (1 - prec) * X).
Proof.
  intros He X f. unfold f. rewrite binary_round_unfold.
  destruct (binary_round_aligned m e) as (Hv & Hez & HP).
  set (mz := fst (shl_align m e (fexp prec emax (Zpos (digits2_pos m) + e)))) in *.
  set (ez := snd (shl_align m e (fexp prec emax (Zpos (digits2_pos m) + e)))) in *.
  pose proof (fexp_ge_emin (Zpos (digits2_pos m) + e)) as Hemin.
  assert (emin prec emax ≤ ez)%Z as Hez' by lia.
  clearbody mz ez.
  assert (X == inject_Z (Zpos mz) * 2 ^ ez) as HX.
  { unfold X. rewrite Hv, inject_Z_mult, pow2_Z by lia.
    rewrite <- Qmult_assoc, <- pow2_add.
    by replace (e - ez + ez)%Z with e by lia. }
  assert (0 < 2 ^ ez) as Hpez by apply pow2_pos.
  assert (0 < X) as HXpos.
  { rewrite HX. apply Qmult_lt_0_compat; [|done].
    change 0 with (inject_Z 0). by rewrite <- Zlt_Qlt. }
  pose proof unit_roundoff_bounds as [Hu _].
  destruct (binary_round_aux_value (Zpos mz) ez loc_Exact X) as
    [Hinf|(Hfin & Hwf & Herr)]; [lia | exact HP | | | | by left |].
  - rewrite HX. apply Qle_refl.
  - rewrite HX. apply Qmult_lt_compat_r; [done|]. by rewrite <- Zlt_Qlt; lia.
  - intros _. exact HX.
  - right. split; [done|]. split; [done|].
    destruct Herr as [Hrel|[_ Hex]]; [done|].
    apply Qabs_zero_le; [by apply Hex|].
    apply Qmult_le_0_compat; lra.
Qed.

(** Adding a finite positive number to a zero or a finite positive
    number. *)
Lemma SFadd_value x (my : positive) ey :
  finite_nonneg x = true → above_emin prec emax x → (emin prec emax ≤ ey)%Z →
  let X := SF2Q x + SF2Q (S754_finite false my ey) in
  let f := SFadd prec emax x (S754_finite false my ey) in
  f = S754_infinity false
  ∨ (finite_nonneg f = true ∧ above_emin prec emax f
     ∧ Qabs (SF2Q f - X) <= 2 ^ (1 - prec) * X).
Proof.
  intros Hx Hwf Hey X f. pose proof unit_roundoff_bounds as [Hu _].
  assert (0 < SF2Q (S754_finite false my ey)) as Hy.
  { cbn [SF2Q]. apply Qmult_lt_0_compat; [|apply pow2_pos].
    change 0 with (inject_Z 0). by rewrite <- Zlt_Qlt. }
  destruct x as [sx| | |[] mx ex]; try discriminate.
  - right. unfold f, X. cbn [SFadd]. split; [done|]. split; [done|].
    set (Y := SF2Q (S754_finite false my ey)) in *.
    change (SF2Q (S754_zero sx)) with 0. clearbody Y.
    apply Qabs_zero_le; [ring|]. apply Qmult_le_0_compat; lra.
  - cbn [above_emin] in Hwf. unfold f. cbn [SFadd cond_Zopp].
    destruct (shl_align_spec mx ex (Z.min ex ey)) as [Hv1 He1].
    destruct (shl_align_spec my ey (Z.min ex ey)) as [Hv2 He2].
    set (a := fst (shl_align mx ex (Z.min ex ey))) in *.
    set (b := fst (shl_align my ey (Z.min ex ey))) in *.
    rewrite He1 in Hv1. rewrite He2 in Hv2. clearbody a b.
    change (Z.pos a + Z.pos b)%Z with (Z.pos (a + b)).
    cbn [binary_normalize].
    assert (X == inject_Z (Z.pos (a + b)) * 2 ^ Z.min ex ey) as HX.
    { unfold X. cbn [SF2Q]. rewrite Pos2Z.inj_add, inject_Z_plus, Hv1, Hv2.
      rewrite !inject_Z_mult, !pow2_Z by lia.
      rewrite Qmult_plus_distr_l, <- !Qmult_assoc, <- !pow2_add.
      replace (ex - Z.min ex (Z.min ex ey) + Z.min ex ey)%Z with ex by lia.
      by replace (ey - Z.min ey (Z.min ex ey) + Z.min ex ey)%Z with ey by lia. }
    destruct (binary_round_value (a + b) (Z.min ex ey) ltac:(lia))
      as [[Hinf _]|(Hfin & Hwf' & Herr)]; [by left|right].
    split; [done|]. split; [done|]. by rewrite HX.
Qed.

(** Dividing a zero or a finite positive number by a finite positive
    number. *)
Lemma SFdiv_value x (my : positive) ey :
  finite_nonneg x = true →
  let X := SF2Q x / SF2Q (S754_finite false my ey) in
  let f := SFdiv prec emax x (S754_finite false my ey) in
  (f = S754_infinity false ∧ 2 ^ (emax - 1) <= X)
  ∨ (finite_nonneg f = true ∧ above_emin prec emax f
     ∧ Qabs (SF2Q f - X) <= 2 ^ (1 - prec) * X + 2 ^ emin prec emax).
Proof.
  intros Hx X f.
  pose proof (pow2_pos (emin prec emax)) as Heta.
  pose proof (SFdiv_above_emin x (S754_finite false my ey)) as Hwf. fold f in Hwf.
  destruct x as [sx| | |[] mx ex]; try discriminate.
  - right. unfold f, X. cbn [SFdiv SF2Q]. split; [done|]. split; [done|].
    apply Qabs_zero_le; [unfold Qdiv; ring|]. unfold Qdiv. lra.
  - unfold f in *. cbn [SFdiv xorb] in *.
    destruct (SFdiv_core_binary_spec mx my ex ey)
      as (q & r & e' & Hcore & He' & Hdiv & Hr & Hq & HP).
    rewrite Hcore in *.
    set (A := inject_Z (Z.pos my)).
    assert (0 < A) as HA by (unfold A; change 0 with (inject_Z 0); by rewrite <- Zlt_Qlt).
    set (E := 2 ^ e').
    assert (0 < E) as HE by apply pow2_pos.
    assert (0 < 2 ^ ey) as HEy by apply pow2_pos.
    assert (X == (inject_Z q + inject_Z r / A) * E) as HX.
    { unfold X. cbn [SF2Q]. fold A.
      assert (2 ^ ex == 2 ^ (ex - ey - e') * E * 2 ^ ey) as ->.
      { unfold E. rewrite <- !pow2_add.
        by replace (ex - ey - e' + e' + ey)%Z with ex by lia. }
      assert (inject_Z (Z.pos mx) * 2 ^ (ex - ey - e')
              == A * inject_Z q + inject_Z r) as Hdiv'.
      { rewrite <- pow2_Z by lia. unfold A.
        rewrite <- !inject_Z_mult, <- inject_Z_plus. by rewrite Hdiv. }
      assert (inject_Z (Z.pos mx) * (2 ^ (ex - ey - e') * E * 2 ^ ey) / (A * 2 ^ ey)
              == (inject_Z (Z.pos mx) * 2 ^ (ex - ey - e')) * E / A) as ->
        by (field; split; lra).
      rewrite Hdiv'. field. lra. }
    assert (0 <= inject_Z r / A) as Hr0.
    { apply Qle_shift_div_l; [done|]. rewrite Qmult_0_l.
      change 0 with (inject_Z 0). rewrite <- Zle_Qle. lia. }
    assert (inject_Z r / A < 1) as Hr1.
    { apply Qlt_shift_div_r; [done|]. rewrite Qmult_1_l.
      unfold A. rewrite <- Zlt_Qlt. lia. }
    assert (0 <= X) as HX0.
    { rewrite HX. apply Qmult_le_0_compat; [|lra].
      assert (0 <= inject_Z q)
        by (change 0 with (inject_Z 0); by rewrite <- Zle_Qle).
      lra. }
    destruct (binary_round_aux_value q e' (new_location (Z.pos my) r) X)
      as [Hinf|(Hfin & _ & Herr)]; [done | done | | | | by left |].
    + rewrite HX. apply Qmult_le_compat_r; lra.
    + rewrite HX, inject_Z_plus. apply Qmult_lt_compat_r; [done|].
      change (inject_Z 1) with 1. lra.
    + intros Hloc%new_location_exact. rewrite HX, Hloc.
      change (inject_Z 0) with 0. fold E. clearbody E. unfold Qdiv. ring.
    + right. split; [done|]. split; [done|].
      by apply (round_error_bound _ _ _ HX0 Herr).
Qed.

(** Multiplying a zero or a finite positive number by a finite positive
    number that has all its digits. *)
Lemma SFmul_value x (my : positive) ey :
  finite_nonneg x = true → (prec ≤ Zdigits2 (Zpos my))%Z →
  let X := SF2Q x * SF2Q (S754_finite false my ey) in
  let f := SFmul prec emax x (S754_finite false my ey) in
  (f = S754_infinity false ∧ 2 ^ (emax - 1) <= X)
  ∨ (finite_nonneg f = true ∧ above_emin prec emax f
     ∧ Qabs (SF2Q f - X) <= 2 ^ (1 - prec) * X + 2 ^ emin prec emax).
Proof.
  intros Hx Hmy X f.
  pose proof (pow2_pos (emin prec emax)) as Heta.
  destruct x as [sx| | |[] mx ex]; try discriminate.
  - right. unfold f, X. cbn [SFmul SF2Q]. split; [done|]. split; [done|].
    apply Qabs_zero_le; [ring|]. lra.
  - unfold f. cbn [SFmul xorb].
    assert (X == inject_Z (Z.pos (mx * my)) * 2 ^ (ex + ey)) as HX.
    { unfold X. cbn [SF2Q]. rewrite Pos2Z.inj_mul, inject_Z_mult, pow2_add. ring. }
    assert (0 < 2 ^ (ex + ey)) as HE by apply pow2_pos.
    assert (0 < X) as HX0.
    { rewrite HX. apply Qmult_lt_0_compat; [|done].
      change 0 with (inject_Z 0). by rewrite <- Zlt_Qlt. }
    assert (ex + ey ≤ fexp prec emax (Zdigits2 (Z.pos (mx * my)) + (ex + ey)))%Z
      as HP.
    { pose proof (Zdigits2_bounds (Z.pos my) ltac:(lia)) as [Hlo _].
      assert (2 ^ (prec - 1) ≤ Z.pos (mx * my))%Z as Hbig.
      { assert (2 ^ (prec - 1) ≤ 2 ^ (Zdigits2 (Z.pos my) - 1))%Z
          by (apply Z.pow_le_mono_r; lia).
        rewrite Pos2Z.inj_mul. nia. }
      pose proof (Zdigits2_gt _ (prec - 1) ltac:(lia) Hbig). unfold fexp. lia. }
    pose proof (binary_round_aux_above_emin false (Z.pos (mx * my)) (ex + ey)
                  loc_Exact ltac:(lia) HP) as Hwf.
    destruct (binary_round_aux_value (Z.pos (mx * my)) (ex + ey) loc_Exact X)
      as [Hinf|(Hfin & _ & Herr)]; [lia | done | | | | by left |].
    + rewrite HX. apply Qle_refl.
    + rewrite HX. apply Qmult_lt_compat_r; [done|]. rewrite <- Zlt_Qlt. lia.
    + intros _. exact HX.
    + right. split; [done|]. split; [done|].
      apply (round_error_bound _ _ _ (Qlt_le_weak _ _ HX0) Herr).
Qed.
End RoundingSpec.

(** ** Binary64: the total and the percentages *)

Section Binary64.
Open Scope Q_scope.
Implicit Types (x v t acc : spec_float) (ds : list (RegionDatum spec_float)).

Local Abbreviation u := (1 # 4503599627370496).
Local Abbreviation eta := (1 # 1267650600228229401496703205376).

Lemma b64_prec : (1 < B64.prec)%Z ∧ (B64.prec < B64.emax)%Z.
Proof. unfold B64.prec, B64.emax. lia. Qed.

Lemma b64_unit_roundoff : 2 ^ (1 - B64.prec) == u.
Proof. reflexivity. Qed.

Lemma b64_least : 0 < 2 ^ emin B64.prec B64.emax ∧ 2 ^ emin B64.prec B64.emax <= eta.
Proof. split; [apply Qpower_0_lt; reflexivity|]. vm_compute. discriminate. Qed.

Lemma b64_largest : 300 < 2 ^ (B64.emax - 1).
Proof. vm_compute. reflexivity. Qed.

Lemma b64_zero : (zero : spec_float) = S754_zero false.
Proof. reflexivity. Qed.

Lemma b64_hundred : (of_Z 100 : spec_float) = S754_finite false 7036874417766400 (-46).
Proof. vm_compute. reflexivity. Qed.

Lemma SF2Q_hundred : SF2Q (S754_finite false 7036874417766400 (-46)) == 100.
Proof. reflexivity. Qed.

Lemma SF2Q_pos (m : positive) e : 0 < SF2Q (S754_finite false m e).
Proof.
  cbn [SF2Q]. apply Qmult_lt_0_compat; [|by apply Qpower_0_lt].
  change 0 with (inject_Z 0). by rewrite <- Zlt_Qlt.
Qed.

Lemma SF2Q_nonneg x : finite_nonneg x = true → 0 <= SF2Q x.
Proof.
  destruct x as [| | |[] m e]; try discriminate; intros _; try apply Qle_refl.
  apply Qlt_le_weak, SF2Q_pos.
Qed.

(** A number that is not less than 0: a zero, a finite number of sign
    [+], or the infinity of that sign. *)
Lemma b64_nonneg_cases x :
  n_le zero x = true →
  (∃ s, x = S754_zero s) ∨ x = S754_infinity false
  ∨ ∃ m e, x = S754_finite false m e.
Proof.
  destruct x as [s|[]| |[] m e]; try discriminate; intros _; eauto.
Qed.

Lemma b64_positive_finite t :
  finite_nonneg t = true → is_positive t = true →
  ∃ m e, t = S754_finite false m e.
Proof.
  destruct t as [[]| | |[] m e]; intros H1 H2;
    try discriminate H1; try discriminate H2; eauto.
Qed.

Lemma d3_sum_step_b64 acc (d : RegionDatum spec_float) :
  d3_sum_step armsTrade acc d
  = if B64.truthy (ToNumber (Some (armsTrade d)))
    then SFadd B64.prec B64.emax acc (ToNumber (Some (armsTrade d)))
    else acc.
Proof. reflexivity. Qed.

(** From the infinity, [d3.sum] stays at the infinity. *)
Lemma b64_sum_from_infinity ds :
  Forall (λ d, n_le zero (ToNumber (Some (armsTrade d))) = true) ds →
  foldl (d3_sum_step armsTrade) (S754_infinity false) ds = S754_infinity false.
Proof.
  induction 1 as [|d ds Hd _ IH]; [reflexivity|].
  cbn [foldl]. rewrite d3_sum_step_b64.
  destruct (b64_nonneg_cases _ Hd) as [[s ->]|[->|(m & e & ->)]]; exact IH.
Qed.

Lemma value_sum_nonneg ds :
  Forall (λ d, finite_nonneg (ToNumber (Some (armsTrade d))) = true) ds →
  0 <= value_sum ds.
Proof.
  induction 1 as [|d ds Hd _ IH]; [apply Qle_refl|].
  cbn [value_sum foldr]. fold (value_sum ds).
  pose proof (SF2Q_nonneg _ Hd). lra.
Qed.

(** One more addition: the relative error grows by two units. *)
Lemma sum_step_error (A A' S v c : Q) :
  0 <= S → 0 <= v → 0 <= c → c <= 1 →
  Qabs (A - S) <= c * S →
  Qabs (A' - (A + v)) <= u * (A + v) →
  Qabs (A' - (S + v)) <= (c + 2 * u) * (S + v).
Proof.
  intros HS Hv Hc0 Hc1 HA HA'.
  assert ((c + 2 * u) * (S + v) == c * S + c * v + 2 * u * S + 2 * u * v) as ->
    by ring.
  assert (0 <= c * S) as HK0 by (by apply Qmult_le_0_compat).
  assert (0 <= c * v) as HL0 by (by apply Qmult_le_0_compat).
  assert (c * S <= S) as HK1.
  { rewrite <- (Qmult_1_l S) at 2. by apply Qmult_le_compat_r. }
  apply Qabs_Qle_condition in HA as [HA1 HA2].
  apply Qabs_Qle_condition in HA' as [HA'1 HA'2].
  apply Qabs_Qle_condition.
  set (K := c * S) in *. set (L := c * v) in *. clearbody K L.
  split; lra.
Qed.

Lemma Qabs_le_weaken (a b b' k k' Z Z' : Q) :
  b == b' → Z == Z' → 0 <= Z → k <= k' →
  Qabs (a - b) <= k * Z → Qabs (a - b') <= k' * Z'.
Proof.
  intros Hb HZ' HZ Hk Ha. rewrite <- Hb, <- HZ'.
  eapply Qle_trans; [exact Ha|]. by apply Qmult_le_compat_r.
Qed.

(** [d3.sum] from an accumulator that is within a relative error [c] of
    [S]: the infinity, or a finite number within [c] and two units per
    value of the sum; and then every value is finite. *)
Lemma b64_sum_from ds acc (S c : Q) :
  Forall (λ d, n_le zero (ToNumber (Some (armsTrade d))) = true
               ∧ above_emin B64.prec B64.emax (ToNumber (Some (armsTrade d)))) ds →
  finite_nonneg acc = true → above_emin B64.prec B64.emax acc →
  0 <= S → 0 <= c →
  c + 2 * u * inject_Z (Z.of_nat (length ds)) <= 1 →
  Qabs (SF2Q acc - S) <= c * S →
  let r := foldl (d3_sum_step armsTrade) acc ds in
  r = S754_infinity false
  ∨ (finite_nonneg r = true ∧ above_emin B64.prec B64.emax r
     ∧ Forall (λ d, finite_nonneg (ToNumber (Some (armsTrade d))) = true) ds
     ∧ Qabs (SF2Q r - (S + value_sum ds))
       <= (c + 2 * u * inject_Z (Z.of_nat (length ds))) * (S + value_sum ds)).
Proof.
  intros Hds. revert acc S c.
  induction Hds as [|d ds [Hd Hwf] Hds IH]; intros acc S c Hacc Hawf HS Hc Hlen Herr r.
  - right. split; [exact Hacc|]. split; [exact Hawf|]. split; [constructor|].
    unfold r. cbn [foldl value_sum foldr length].
    change (inject_Z (Z.of_nat 0)) with 0.
    eapply Qabs_le_weaken; cycle 4; [exact Herr | ring | ring | exact HS | lra].
  - assert (Forall (λ d, n_le zero (ToNumber (Some (armsTrade d))) = true) ds)
      as Hds' by (eapply Forall_impl; [exact Hds | by intros ? [? _]]).
    assert (inject_Z (Z.of_nat (length (d :: ds)))
            == inject_Z (Z.of_nat (length ds)) + 1) as Hn.
    { cbn [length]. rewrite Nat2Z.inj_succ. unfold Z.succ.
      rewrite inject_Z_plus. reflexivity. }
    assert (0 <= inject_Z (Z.of_nat (length ds))) as Hn0.
    { change 0 with (inject_Z 0). rewrite <- Zle_Qle. lia. }
    rewrite Hn in Hlen. unfold r. cbn [foldl value_sum foldr]. fold (value_sum ds).
    rewrite d3_sum_step_b64.
    destruct (b64_nonneg_cases _ Hd) as [[s Hv]|[Hv|(m & e & Hv)]];
      rewrite Hv in *; cbn [B64.truthy].
    + (* a zero is skipped *)
      destruct (IH acc S c Hacc Hawf HS Hc ltac:(lra) Herr)
        as [Hinf|(Hfin & Hrwf & Hvals & Hr)]; [by left|right].
      split; [exact Hfin|]. split; [exact Hrwf|].
      split; [constructor; [by rewrite Hv | exact Hvals]|].
      pose proof (value_sum_nonneg ds Hvals) as Hvs.
      rewrite Hn. change (SF2Q (S754_zero s)) with 0.
      eapply Qabs_le_weaken; cycle 4; [exact Hr | ring | ring | lra | lra].
    + (* the infinity *)
      left. destruct acc as [sa| | |[] ma ea]; try discriminate;
        cbn [SFadd]; by apply b64_sum_from_infinity.
    + (* a finite number *)
      cbn [above_emin] in Hwf.
      destruct b64_prec as [Hp1 Hp2].
      destruct (SFadd_value B64.prec B64.emax Hp1 Hp2 acc m e Hacc Hawf Hwf)
        as [Hinf|(Hfin' & Hwf' & Hadd)].
      { left. rewrite Hinf. by apply b64_sum_from_infinity. }
      set (acc' := SFadd B64.prec B64.emax acc (S754_finite false m e)) in *.
      clearbody acc'.
      pose proof (SF2Q_pos m e) as Hvpos.
      set (vq := SF2Q (S754_finite false m e)) in *. clearbody vq.
      rewrite b64_unit_roundoff in Hadd.
      assert (Qabs (SF2Q acc' - (S + vq)) <= (c + 2 * u) * (S + vq)) as Herr'.
      { apply (sum_step_error (SF2Q acc)); [done | lra | done | lra | done | done]. }
      destruct (IH acc' (S + vq) (c + 2 * u) Hfin' Hwf' ltac:(lra) ltac:(lra)
                  ltac:(lra) Herr')
        as [Hinf|(Hfin & Hrwf & Hvals & Hr)]; [by left|right].
      split; [exact Hfin|]. split; [exact Hrwf|].
      split; [constructor; [by rewrite Hv | exact Hvals]|].
      pose proof (value_sum_nonneg ds Hvals) as Hvs.
      rewrite Hn.
      eapply Qabs_le_weaken; cycle 4; [exact Hr | ring | ring | lra | lra].
Qed.

(** One percentage: the quotient by the total, rounded, times 100, rounded
    again. *)
Lemma b64_percent_close (t : spec_float) (d : RegionDatum spec_float)
    (mt : positive) (et : Z) :
  t = S754_finite false mt et →
  finite_nonneg (ToNumber (Some (armsTrade d))) = true →
  SF2Q (ToNumber (Some (armsTrade d))) <= 2 * SF2Q t →
  finite_nonneg (percent t d) = true
  ∧ Qabs (SF2Q (percent t d)
          - 100 * (SF2Q (ToNumber (Some (armsTrade d))) / SF2Q t))
    <= 300 * u * (SF2Q (ToNumber (Some (armsTrade d))) / SF2Q t) + 201 * eta.
Proof.
  intros -> Hv Hle. unfold percent.
  set (v := ToNumber (Some (armsTrade d))) in *. clearbody v.
  pose proof (SF2Q_pos mt et) as Ht. pose proof (SF2Q_nonneg v Hv) as Hv0.
  destruct b64_prec as [Hp1 Hp2]. destruct b64_least as [Heta0 Heta].
  pose proof b64_largest as Hbig.
  change (n_div v (S754_finite false mt et))
    with (SFdiv B64.prec B64.emax v (S754_finite false mt et)).
  rewrite b64_hundred.
  change (n_mul ?a ?b) with (SFmul B64.prec B64.emax a b).
  set (w := SF2Q v / SF2Q (S754_finite false mt et)).
  assert (0 <= w ∧ w <= 2) as [Hw0 Hw2].
  { unfold w. split.
    - apply Qle_shift_div_l; [done | lra].
    - apply Qle_shift_div_r; [done | lra]. }
  destruct (SFdiv_value B64.prec B64.emax Hp1 Hp2 v mt et Hv)
    as [[_ Hinf]|(Hq & _ & Hqerr)].
  { fold w in Hinf. lra. }
  fold w in Hqerr. rewrite b64_unit_roundoff in Hqerr.
  set (q := SFdiv B64.prec B64.emax v (S754_finite false mt et)) in *.
  clearbody q. pose proof (SF2Q_nonneg q Hq) as Hq0.
  apply Qabs_Qle_condition in Hqerr as [Hq1 Hq2].
  destruct (SFmul_value B64.prec B64.emax Hp1 Hp2 q 7036874417766400 (-46) Hq)
    as [[_ Hinf]|(Hp & _ & Hperr)]; [unfold B64.prec; cbn; lia | |].
  { rewrite SF2Q_hundred in Hinf. set (qq := SF2Q q) in *. clearbody w qq.
    set (e0 := 2 ^ emin B64.prec B64.emax) in *. clearbody e0. lra. }
  rewrite SF2Q_hundred, b64_unit_roundoff in Hperr.
  split; [exact Hp|].
  set (p := SFmul B64.prec B64.emax q _) in *. clearbody p.
  apply Qabs_Qle_condition in Hperr as [Hp1' Hp2'].
  apply Qabs_Qle_condition.
  set (qq := SF2Q q) in *. set (pp := SF2Q p) in *.
  set (e0 := 2 ^ emin B64.prec B64.emax) in *. clearbody w qq pp e0.
  split; lra.
Qed.

(** [toFixed(f)] of a number that is not negative and below [10^21]: a
    decimal without sign whose digits are the integer nearest to the
    number times [10^f]. *)
Lemma b64_toFixed_close (f : nat) (p : spec_float) :
  finite_nonneg p = true →
  SF2Q p < inject_Z (10 ^ 21) →
  ∃ n, toFixed f p = FixedDigits false n
       ∧ Qabs (inject_Z (Z.of_N n) - SF2Q p * inject_Z (10 ^ Z.of_nat f)) <= 1 # 2.
Proof.
  intros Hp Hlt. destruct p as [s| | |[] m e]; try discriminate.
  - exists 0%N. split; [reflexivity|]. cbn [SF2Q].
    apply Qabs_zero_le; [ring | discriminate].
  - unfold toFixed. cbn [n_round B64.number B64.round SF2Q] in *.
    assert (0 < 10 ^ Z.of_nat f)%Z as Hten by (apply Z.pow_pos_nonneg; lia).
    set (F := (10 ^ Z.of_nat f)%Z) in *. clearbody F.
    destruct (Z.leb_spec 0 e) as [He|He].
    + assert (inject_Z (Z.pos m) * 2 ^ e == inject_Z (Z.pos m * 2 ^ e)) as Hval.
      { rewrite inject_Z_mult. by rewrite Zpower_Qpower. }
      rewrite Hval in *. rewrite <- Zlt_Qlt in Hlt.
      destruct (Z.leb_spec (10 ^ 21) (Z.pos m * 2 ^ e)) as [|_]; [lia|].
      eexists. split; [reflexivity|].
      assert (0 < 2 ^ e)%Z by (apply Z.pow_pos_nonneg; lia).
      rewrite Z2N.id by nia. rewrite Hval, <- inject_Z_mult.
      apply Qabs_zero_le; [|discriminate].
      f_equiv. lia.
    + set (D := (2 ^ (- e))%Z).
      assert (0 < D)%Z as HD by (apply Z.pow_pos_nonneg; lia).
      assert (2 ^ e == / inject_Z D) as Hpow.
      { unfold D. rewrite Zpower_Qpower by lia. change (inject_Z 2) with 2.
        rewrite <- Qpower_opp. by rewrite Z.opp_involutive. }
      assert (0 < inject_Z D) as HDq
        by (change 0 with (inject_Z 0); by rewrite <- Zlt_Qlt).
      assert (Z.pos m < 10 ^ 21 * D)%Z as Hm.
      { rewrite Hpow in Hlt.
        apply (proj2 (Qmult_lt_r _ _ (inject_Z D) HDq)) in Hlt.
        assert (inject_Z (Z.pos m) * / inject_Z D * inject_Z D
                == inject_Z (Z.pos m)) as Hm' by (field; lra).
        rewrite Hm' in Hlt.
        rewrite <- !inject_Z_mult in Hlt. by rewrite <- Zlt_Qlt in Hlt. }
      fold D. destruct (Z.leb_spec (10 ^ 21 * D) (Z.pos m)) as [|_]; [lia|].
      eexists. split; [reflexivity|].
      set (k := ((2 * (Z.pos m * F) + D) / (2 * D))%Z).
      pose proof (Z.mul_div_le (2 * (Z.pos m * F) + D) (2 * D) ltac:(lia)) as Hlo.
      pose proof (Z.mul_succ_div_gt (2 * (Z.pos m * F) + D) (2 * D) ltac:(lia))
        as Hhi.
      fold k in Hlo, Hhi.
      assert (0 ≤ k)%Z as Hk by (apply Z.div_pos; nia).
      rewrite Z2N.id by done.
      rewrite Hpow.
      assert (inject_Z (Z.pos m) * / inject_Z D * inject_Z F
              == inject_Z (Z.pos m * F) / inject_Z D) as ->
        by (rewrite inject_Z_mult; field; lra).
      assert (inject_Z (2 * D * k) <= inject_Z (2 * (Z.pos m * F)) + inject_Z D)
        as Hlo' by (rewrite <- inject_Z_plus, <- Zle_Qle; lia).
      assert (inject_Z (2 * (Z.pos m * F)) <= inject_Z (2 * D * k) + inject_Z D)
        as Hhi' by (rewrite <- inject_Z_plus, <- Zle_Qle; lia).
      assert ((inject_Z k - inject_Z (Z.pos m * F) / inject_Z D) * (2 * inject_Z D)
              == inject_Z (2 * D * k) - inject_Z (2 * (Z.pos m * F))) as Hscaled
        by (rewrite !inject_Z_mult; change (inject_Z 2) with 2; field; lra).
      apply Qabs_Qle_condition. split.
      * apply (Qmult_le_r _ _ (2 * inject_Z D)); [lra|]. rewrite Hscaled.
        assert (- (1 # 2) * (2 * inject_Z D) == - inject_Z D) as -> by ring.
        lra.
      * apply (Qmult_le_r _ _ (2 * inject_Z D)); [lra|]. rewrite Hscaled.
        assert ((1 # 2) * (2 * inject_Z D) == inject_Z D) as -> by ring.
        lra.
Qed.

Lemma value_sum_cons (d : RegionDatum spec_float) ds :
  value_sum (d :: ds) = SF2Q (ToNumber (Some (armsTrade d))) + value_sum ds.
Proof. reflexivity. Qed.

Lemma value_le_sum ds :
  Forall (λ d, finite_nonneg (ToNumber (Some (armsTrade d))) = true) ds →
  Forall (λ d, SF2Q (ToNumber (Some (armsTrade d))) <= value_sum ds) ds.
Proof.
  induction 1 as [|d ds Hd Hds IH]; [constructor|].
  rewrite value_sum_cons.
  pose proof (SF2Q_nonneg _ Hd). pose proof (value_sum_nonneg ds Hds).
  constructor; [lra|].
  eapply Forall_impl; [exact IH|]. cbn beta. intros d' Hd'. lra.
Qed.

Lemma length_cons_Q {A : Type} (a : A) (l : list A) :
  inject_Z (Z.of_nat (length (a :: l))) == inject_Z (Z.of_nat (length l)) + 1.
Proof.
  cbn [length]. rewrite Nat2Z.inj_succ. unfold Z.succ.
  rewrite inject_Z_plus. reflexivity.
Qed.

Lemma length_Q_nonneg {A : Type} (l : list A) :
  0 <= inject_Z (Z.of_nat (length l)).
Proof. change 0 with (inject_Z 0). rewrite <- Zle_Qle. lia. Qed.

(** The percentages of the legend, each rounded to two decimals, add up
    to a number of hundredths that is within half a hundredth per region,
    and the rounding errors of the quotients and products, of the sum of
    the exact percentages. *)
Lemma b64_percentage_sum_close t (mt : positive) (et : Z) domain ds :
  t = S754_finite false mt et →
  Forall (λ d, finite_nonneg (ToNumber (Some (armsTrade d))) = true
               ∧ SF2Q (ToNumber (Some (armsTrade d))) <= 2 * SF2Q t) ds →
  ∃ (s : Q) (N : Z),
    percentage_sum (fst (legendInfo_from t domain ds)) = Some s
    ∧ s == inject_Z N / 100
    ∧ Qabs (s - 100 * (value_sum ds / SF2Q t))
      <= ((1 # 200) + 201 * eta) * inject_Z (Z.of_nat (length ds))
         + 300 * u * (value_sum ds / SF2Q t).
Proof.
  intros Ht Hds. revert domain.
  induction Hds as [|d ds [Hd Hle] Hds IH]; intros domain.
  - exists 0, 0%Z. split; [reflexivity|]. split; [reflexivity|].
    cbn [value_sum foldr length]. change (inject_Z (Z.of_nat 0)) with 0.
    apply Qabs_zero_le; [unfold Qdiv; ring|].
    unfold Qdiv. ring_simplify. discriminate.
  - cbn [legendInfo_from].
    destruct (scaleOrdinal schemeCategory10 domain (region d)) as [c domain1].
    destruct (IH domain1) as (s & N & Hs & HsN & Hclose).
    destruct (legendInfo_from t domain1 ds) as [es domain2].
    cbn [fst] in *. cbn [percentage_sum l_percentage]. rewrite Hs.
    destruct (b64_percent_close t d mt et Ht Hd Hle) as [Hp Hperr].
    pose proof (SF2Q_nonneg _ Hd) as Hv0.
    assert (0 < SF2Q t) as Ht0 by (rewrite Ht; apply SF2Q_pos).
    set (w := SF2Q (ToNumber (Some (armsTrade d))) / SF2Q t) in *.
    assert (0 <= w ∧ w <= 2) as [Hw0 Hw2].
    { unfold w. split.
      - apply Qle_shift_div_l; [done | lra].
      - apply Qle_shift_div_r; [done | lra]. }
    assert (value_sum (d :: ds) / SF2Q t == w + value_sum ds / SF2Q t) as HW.
    { rewrite value_sum_cons. unfold w, Qdiv. ring. }
    apply Qabs_Qle_condition in Hperr as [Hp1 Hp2].
    destruct (b64_toFixed_close 2 (percent t d) Hp) as (n & -> & Hn).
    { change (inject_Z (10 ^ 21)) with (1000000000000000000000 # 1).
      set (pp := SF2Q (percent t d)) in *. clearbody pp w. lra. }
    cbn [fixed_value]. eexists _, (Z.of_N n + N)%Z. split; [reflexivity|].
    change (inject_Z (10 ^ Z.of_nat 2)) with 100 in *.
    split.
    { rewrite HsN, inject_Z_plus. unfold Qdiv. ring. }
    rewrite HW, length_cons_Q.
    pose proof (length_Q_nonneg ds) as Hn0.
    apply Qabs_Qle_condition in Hn as [Hn1 Hn2].
    apply Qabs_Qle_condition in Hclose as [Hc1 Hc2].
    apply Qabs_Qle_condition.
    set (pp := SF2Q (percent t d)) in *.
    set (nn := inject_Z (Z.of_N n)) in *.
    set (W := value_sum ds / SF2Q t) in *.
    set (k := inject_Z (Z.of_nat (length ds))) in *.
    assert (nn / 100 == nn * (1 # 100)) as -> by (unfold Qdiv; reflexivity).
    clearbody pp nn W k w. split; lra.
Qed.

(** [d3.sum] over values that are not negative: when the total is
    finite, so is every value, and the total is within a relative error
    of two units per region of the sum of the values. *)
Lemma b64_total_close ds :
  Forall (λ d, n_le zero (ToNumber (Some (armsTrade d))) = true) ds →
  Forall (λ d, above_emin B64.prec B64.emax (ToNumber (Some (armsTrade d)))) ds →
  (Z.of_nat (length ds) < 2 ^ 32)%Z →
  finite_nonneg (d3_sum ds armsTrade) = true →
  Forall (λ d, finite_nonneg (ToNumber (Some (armsTrade d))) = true) ds
  ∧ Qabs (SF2Q (d3_sum ds armsTrade) - value_sum ds)
    <= 2 * u * inject_Z (Z.of_nat (length ds)) * value_sum ds.
Proof.
  intros Hnonneg Hwf Hlen Hfin.
  assert (inject_Z (Z.of_nat (length ds)) < 4294967296) as Hlen'.
  { change 4294967296 with (inject_Z (2 ^ 32)). by rewrite <- Zlt_Qlt. }
  pose proof (length_Q_nonneg ds) as Hn0.
  destruct (b64_sum_from ds zero 0 0) as [Hinf|(_ & _ & Hvals & Herr)].
  - apply Forall_and. by split.
  - reflexivity.
  - exact I.
  - apply Qle_refl.
  - apply Qle_refl.
  - lra.
  - apply Qabs_zero_le; [reflexivity | ring_simplify; apply Qle_refl].
  - unfold d3_sum in Hfin. rewrite Hinf in Hfin. discriminate.
  - split; [exact Hvals|]. unfold d3_sum.
    eapply Qabs_le_weaken; cycle 4; [exact Herr | ring | ring | | lra].
    pose proof (value_sum_nonneg ds Hvals). lra.
Qed.

(** The finite values of the output have exponents of the format: they
    are read from a string or are quotients by 1000. *)
Lemma b64_read_above_emin (l : literal) :
  above_emin B64.prec B64.emax (B64.read l).
Proof.
  destruct b64_prec as [Hp1 Hp2].
  destruct l as [|s|s [|m] e]; try exact I.
  cbn [B64.read]. unfold B64.of_decimal. destruct (0 <=? e)%Z.
  - by apply binary_round_above_emin.
  - by apply SFdiv_above_emin.
Qed.

Lemma b64_values_above_emin year data :
  Forall (λ d, above_emin B64.prec B64.emax (ToNumber (Some (armsTrade d))))
         (regionArmsData year data : list (RegionDatum spec_float)).
Proof.
  destruct b64_prec as [Hp1 Hp2].
  apply (regionArmsData_values (above_emin B64.prec B64.emax)).
  - exact I.
  - apply b64_read_above_emin.
  - intros a b. by apply SFdiv_above_emin.
Qed.

(** The total against the sum of the values, and the share of a value,
    when the total is finite and greater than 0. *)
Lemma b64_shares ds (mt : positive) (et : Z) :
  Forall (λ d, n_le zero (ToNumber (Some (armsTrade d))) = true) ds →
  Forall (λ d, above_emin B64.prec B64.emax (ToNumber (Some (armsTrade d)))) ds →
  (Z.of_nat (length ds) < 2 ^ 32)%Z →
  d3_sum ds armsTrade = S754_finite false mt et →
  let t := SF2Q (S754_finite false mt et) in
  let n := inject_Z (Z.of_nat (length ds)) in
  1 <= n
  ∧ Forall (λ d, finite_nonneg (ToNumber (Some (armsTrade d))) = true
                 ∧ SF2Q (ToNumber (Some (armsTrade d))) <= 2 * t) ds
  ∧ 0 <= value_sum ds / t
  ∧ value_sum ds / t <= 1 + 8 * u * n
  ∧ Qabs (value_sum ds / t - 1) <= 4 * u * n.
Proof.
  intros Hnonneg Hwf Hlen Ht t n.
  assert (finite_nonneg (d3_sum ds armsTrade) = true) as Hfin by (by rewrite Ht).
  destruct (b64_total_close ds Hnonneg Hwf Hlen Hfin) as [Hvals Herr].
  rewrite Ht in Herr. fold t n in Herr.
  assert (0 < t) as Ht0 by apply SF2Q_pos.
  assert (n < 4294967296) as Hn.
  { change 4294967296 with (inject_Z (2 ^ 32)). unfold n. by rewrite <- Zlt_Qlt. }
  assert (1 <= n) as Hn1.
  { destruct ds as [|d ds]; [discriminate Ht|].
    unfold n. change 1 with (inject_Z 1). rewrite <- Zle_Qle. cbn [length]. lia. }
  pose proof (value_sum_nonneg ds Hvals) as HS0.
  set (S := value_sum ds) in *.
  assert (2 * u * n * S <= (1 # 2) * S) as HK
    by (apply Qmult_le_compat_r; [lra | done]).
  apply Qabs_Qle_condition in Herr as [He1 He2].
  assert (S <= 2 * t) as HS2 by lra.
  assert (2 * u * n * S <= 2 * u * n * (2 * t)) as HK'
    by (apply Qmult_le_l; [lra | done]).
  assert (S / t * t == S) as HWt by (field; lra).
  assert (0 <= S / t) as HW0 by (apply Qle_shift_div_l; [done | lra]).
  assert (Qabs (S / t - 1) <= 4 * u * n) as HW.
  { apply Qabs_Qle_condition. split.
    - apply (Qmult_le_r _ _ t Ht0).
      assert ((S / t - 1) * t == S - t) as -> by (field; lra).
      assert (- (4 * u * n) * t == - (2 * u * n * (2 * t))) as -> by ring. lra.
    - apply (Qmult_le_r _ _ t Ht0).
      assert ((S / t - 1) * t == S - t) as -> by (field; lra).
      assert (4 * u * n * t == 2 * u * n * (2 * t)) as -> by ring. lra. }
  split; [exact Hn1|]. split.
  { pose proof (value_le_sum ds Hvals) as Hle. fold S in Hle.
    apply Forall_and. split; [exact Hvals|].
    eapply Forall_impl; [exact Hle|]. cbn beta. intros d Hd. lra. }
  split; [exact HW0|]. split; [|exact HW].
  apply Qabs_Qle_condition in HW as [_ HW2]. lra.
Qed.

Lemma b64_legend_sum_close ds (mt : positive) (et : Z) domain :
  Forall (λ d, n_le zero (ToNumber (Some (armsTrade d))) = true) ds →
  Forall (λ d, above_emin B64.prec B64.emax (ToNumber (Some (armsTrade d)))) ds →
  (Z.of_nat (length ds) < 2 ^ 32)%Z →
  d3_sum ds armsTrade = S754_finite false mt et →
  ∃ (s : Q) (N : Z),
    percentage_sum (fst (legendInfo_from (d3_sum ds armsTrade) domain ds)) = Some s
    ∧ s == inject_Z N / 100
    ∧ Qabs (s - 100)
      <= ((1 # 200) + (1 # 1099511627776)) * inject_Z (Z.of_nat (length ds)).
Proof.
  intros Hnonneg Hwf Hlen Ht.
  destruct (b64_shares ds mt et Hnonneg Hwf Hlen Ht)
    as (Hn1 & Hshares & HW0 & HW1 & HW).
  destruct (b64_percentage_sum_close (d3_sum ds armsTrade) mt et domain ds Ht)
    as (s & N & Hs & HsN & Hclose).
  { by rewrite Ht. }
  exists s, N. split; [exact Hs|]. split; [exact HsN|].
  rewrite Ht in Hclose.
  assert (inject_Z (Z.of_nat (length ds)) < 4294967296) as Hn.
  { change 4294967296 with (inject_Z (2 ^ 32)). by rewrite <- Zlt_Qlt. }
  apply Qabs_Qle_condition in Hclose as [Hc1 Hc2].
  apply Qabs_Qle_condition in HW as [HW2 HW3].
  apply Qabs_Qle_condition.
  set (W := value_sum ds / SF2Q (S754_finite false mt et)) in *.
  set (n := inject_Z (Z.of_nat (length ds))) in *.
  clearbody W n. split; lra.
Qed.

(** C1, amended. In binary64, when the value of every region is not
    negative and the total of the selected year is finite and greater
    than 0, the percentages of the legend, each rounded to two decimals,
    add up to 100 within half a hundredth and [2^-40] per region: within
    0.1 for at most twenty-one regions, and no closer than that in
    general. *)
Theorem rounded_percentages_near_100 (data : list (gmap string string)) (year : Z) :
  let ds : list (RegionDatum spec_float) := regionArmsData year data in
  Forall (λ d, n_le zero (ToNumber (Some (armsTrade d))) = true) ds →
  finite_nonneg (total year data) = true →
  is_positive (total year data : spec_float) = true →
  (Z.of_nat (length ds) < 2 ^ 32)%Z →
  ∃ s, percentage_sum (legendInfo year data : list (LegendEntry spec_float)) = Some s
       ∧ Qabs (s - 100)
         <= ((1 # 200) + (1 # 1099511627776)) * inject_Z (Z.of_nat (length ds))
       ∧ ((length ds ≤ 21)%nat → Qabs (s - 100) <= 1 # 10).
Proof.
  intros ds Hnonneg Hfin Hpos Hlen.
  destruct (b64_positive_finite _ Hfin Hpos) as (mt & et & Ht).
  assert (Forall (λ d, above_emin B64.prec B64.emax (ToNumber (Some (armsTrade d))))
                 ds) as Hwf by apply b64_values_above_emin.
  unfold legendInfo, total in *. fold ds in Ht |- *.
  destruct (b64_legend_sum_close ds mt et [] Hnonneg Hwf Hlen Ht)
    as (s & N & Hs & HsN & Hclose).
  exists s. split; [exact Hs|]. split; [exact Hclose|].
  intros Hfew.
  assert (inject_Z (Z.of_nat (length ds)) <= 21) as Hn.
  { change 21 with (inject_Z 21). rewrite <- Zle_Qle. lia. }
  pose proof (length_Q_nonneg ds) as Hn0.
  apply Qabs_Qle_condition in Hclose as [Hc1 Hc2].
  rewrite HsN in Hc1, Hc2.
  assert (inject_Z N / 100 == inject_Z N * (1 # 100)) as HN
    by (unfold Qdiv; reflexivity).
  rewrite HN in Hc1, Hc2.
  assert (9989 < N < 10011)%Z as [HN1 HN2].
  { split; rewrite Zlt_Qlt.
    - change (inject_Z 9989) with 9989.
      set (n := inject_Z (Z.of_nat (length ds))) in *.
      set (x := inject_Z N) in *. clearbody n x. lra.
    - change (inject_Z 10011) with 10011.
      set (n := inject_Z (Z.of_nat (length ds))) in *.
      set (x := inject_Z N) in *. clearbody n x. lra. }
  assert (9990 <= inject_Z N ∧ inject_Z N <= 10010) as [HN3 HN4].
  { split.
    - change 9990 with (inject_Z 9990). rewrite <- Zle_Qle. lia.
    - change 10010 with (inject_Z 10010). rewrite <- Zle_Qle. lia. }
  rewrite HsN, HN. apply Qabs_Qle_condition.
  set (x := inject_Z N) in *. clearbody x. split; lra.
Qed.
End Binary64.

(** * The claims on sample rows, in binary64 *)

(** The example of the specification: Europe 5000 and Asia 3000 in 2020
    give 5.0 and 3.0, the total 8.0, and 62.50 and 37.50 per cent. *)
Example europe_asia_legend :
  legendInfo 2020 europe_asia
  = [ {| l_region := Some "Europe"; l_color := "#1f77b4";
         l_percentage := FixedDigits false 6250;
         l_armsTrade := VNum (of_Z 5 : spec_float) |};
      {| l_region := Some "Asia"; l_color := "#ff7f0e";
         l_percentage := FixedDigits false 3750;
         l_armsTrade := VNum (of_Z 3) |} ]
  ∧ total 2020 europe_asia = (of_Z 8 : spec_float).
Proof. split; vm_compute; reflexivity. Qed.

Example aggregates_dropped :
  region <$> (regionArmsData 2020 with_aggregates : list (RegionDatum spec_float))
  = [Some "Europe"; Some "Asia"].
Proof. vm_compute. reflexivity. Qed.

(** C1, counterexample. Thirty-two regions with equal values have 3.125
    per cent each, which [toFixed(2)] renders as 3.13: the percentages of
    the legend add up to 100.16, further than 0.1 from 100, in a valid year
    and with a total greater than 0. *)
Lemma thirty_two_regions_exceed_tolerance :
  1950 ≤ 2020 ≤ 2023
  ∧ is_positive (total 2020 thirty_two_regions : spec_float) = true
  ∧ ∃ s, percentage_sum (legendInfo 2020 thirty_two_regions
                          : list (LegendEntry spec_float)) = Some s
         ∧ (s == 100.16)%Q
         ∧ ¬ (Qabs (s - 100) <= 1 # 10)%Q.
Proof.
  split; [lia|]. split; [vm_compute; reflexivity|].
  eexists. split; [vm_compute; reflexivity|].
  split; [vm_compute; reflexivity|].
  vm_compute. intros Hle. apply Hle. reflexivity.
Qed.

(** An eleventh region takes the first colour of the palette again. *)
Example palette_wraps :
  fst (scaleOrdinal schemeCategory10 (seq 0 10) 10%nat) = "#1f77b4".
Proof. reflexivity. Qed.

Lemma europe_asia_values :
  regionArmsData 2020 europe_asia
  = [ {| region := Some "Europe"; armsTrade := VNum (of_Z 5 : spec_float) |};
      {| region := Some "Asia"; armsTrade := VNum (of_Z 3) |} ].
Proof. vm_compute. reflexivity. Qed.

(** C1, witness of the amended claim: Europe 5 and Asia 3. *)
Lemma rounded_percentages_near_100_witness :
  Forall (λ d, n_le zero (ToNumber (Some (armsTrade d))) = true)
         (regionArmsData 2020 europe_asia : list (RegionDatum spec_float))
  ∧ finite_nonneg (total 2020 europe_asia) = true
  ∧ is_positive (total 2020 europe_asia : spec_float) = true
  ∧ Z.of_nat (length (regionArmsData 2020 europe_asia
                       : list (RegionDatum spec_float))) < 2 ^ 32
  ∧ ∃ s, percentage_sum (legendInfo 2020 europe_asia
                          : list (LegendEntry spec_float)) = Some s
         ∧ (Qabs (s - 100)
            <= ((1 # 200) + (1 # 1099511627776))
               * inject_Z (Z.of_nat (length (regionArmsData 2020 europe_asia
                                              : list (RegionDatum spec_float)))))%Q
         ∧ ((length (regionArmsData 2020 europe_asia
                      : list (RegionDatum spec_float)) ≤ 21)%nat
            → (Qabs (s - 100) <= 1 # 10)%Q).
Proof.
  assert (Forall (λ d, n_le zero (ToNumber (Some (armsTrade d))) = true)
                 (regionArmsData 2020 europe_asia : list (RegionDatum spec_float)))
    as Hvalues.
  { rewrite europe_asia_values.
    repeat (constructor; [vm_compute; reflexivity|]). constructor. }
  assert (finite_nonneg (total 2020 europe_asia) = true) as Hfinite
    by (vm_compute; reflexivity).
  assert (is_positive (total 2020 europe_asia : spec_float) = true) as Hpositive
    by (vm_compute; reflexivity).
  assert (Z.of_nat (length (regionArmsData 2020 europe_asia
                             : list (RegionDatum spec_float))) < 2 ^ 32) as Hlength
    by (rewrite europe_asia_values; vm_compute; reflexivity).
  split; [exact Hvalues|]. split; [exact Hfinite|]. split; [exact Hpositive|].
  split; [exact Hlength|].
  exact (rounded_percentages_near_100 europe_asia 2020
           Hvalues Hfinite Hpositive Hlength).
Defined.

(** Why the amended claim asks for a finite total.  A cell that reads as
    the infinity makes the total the infinity, which is greater than 0:
    the percentage of that region is NaN and the one of the other is 0. *)
Example infinite_total_no_percentage :
  total 2020 infinite_cell = (S754_infinity false : spec_float)
  ∧ is_positive (total 2020 infinite_cell : spec_float) = true
  ∧ l_percentage <$> (legendInfo 2020 infinite_cell : list (LegendEntry spec_float))
    = [FixedToString S754_nan; FixedDigits false 0]
  ∧ percentage_sum (legendInfo 2020 infinite_cell : list (LegendEntry spec_float))
    = None.
Proof. repeat split; vm_compute; reflexivity. Qed.

(** The same by overflow, in a year whose cells are not divided by 1000:
    two finite values of 1e308 have the infinity for their sum, and both
    percentages are 0. *)
Example overflowing_total_no_percentage :
  SF2Q <$> ((λ d, ToNumber (Some (armsTrade d)))
              <$> (regionArmsData 2024 two_huge : list (RegionDatum spec_float)))
  = [SF2Q (B64.read (parse_numeric "1e308")); SF2Q (B64.read (parse_numeric "1e308"))]
  ∧ total 2024 two_huge = (S754_infinity false : spec_float)
  ∧ l_percentage <$> (legendInfo 2024 two_huge : list (LegendEntry spec_float))
    = [FixedDigits false 0; FixedDigits false 0].
Proof. repeat split; vm_compute; reflexivity. Qed.

(** Why it asks for values that are not negative: 3e15 and a negative
    value one less in magnitude have the total 1, and percentages of
    3e17 and nearly -3e17, which binary64 holds to the nearest 64 and 32:
    they add up to 128. *)
Example cancelling_values_far_from_100 :
  total 2020 cancelling = (of_Z 1 : spec_float)
  ∧ ∃ s, percentage_sum (legendInfo 2020 cancelling
                          : list (LegendEntry spec_float)) = Some s
         ∧ (s == 128)%Q.
Proof.
  split; [vm_compute; reflexivity|].
  eexists. split; vm_compute; reflexivity.
Qed.

(** Twenty-one regions is as far as 0.1 goes: these twenty-two have
    percentages that all round up, and the legend adds up to 100.11. *)
Example twenty_two_regions_exceed_tolerance :
  is_positive (total 2020 twenty_two_regions : spec_float) = true
  ∧ ∃ s, percentage_sum (legendInfo 2020 twenty_two_regions
                          : list (LegendEntry spec_float)) = Some s
         ∧ (s == 100.11)%Q.
Proof.
  split; [vm_compute; reflexivity|].
  eexists. split; vm_compute; reflexivity.
Qed.

(** C2, witness: the cell "5000" is stored as 5. *)
Lemma transformer_converts_cell_witness :
  1950 ≤ 2020 ≤ 2023
  ∧ (convert_row (VStr <$> csv "Europe" [("2020", "5000")])
     : gmap string (value spec_float)) !! key 2020
    = Some (VNum (S754_finite false 5629499534213120 (-50))).
Proof.
  split; [lia|].
  destruct (transformer_converts_cell (csv "Europe" [("2020", "5000")]) 2020
              ltac:(lia)) as [Hstored _].
  rewrite Hstored. vm_compute. reflexivity.
Defined.

(** The cells the claim names, run through the transformer: a number, a
    text, an empty cell and a missing one. *)
Example transformer_on_cells :
  let stored (cells : list (string * string)) :=
    (convert_row (VStr <$> csv "Europe" cells)
     : gmap string (value spec_float)) !! key 2020 in
  stored [("2020", "5000")] = Some (VNum (of_Z 5))
  ∧ stored [("2020", "2500")] = Some (VNum (S754_finite false 5629499534213120 (-51)))
  ∧ stored [("2020", "n/a")] = Some (VNum (S754_zero false))
  ∧ stored [("2020", EmptyString)] = Some (VNum (S754_zero false))
  ∧ stored [] = Some (VNum (S754_zero false)).
Proof. repeat split; vm_compute; reflexivity. Qed.

(** C4, witness: Europe appears twice, with 5000 and then 7000; its datum
    carries 5, the value of the first row. *)
Lemma first_occurrence_wins_witness :
  let r : gmap string (value spec_float) :=
    convert_row (VStr <$> csv "Europe" [("2020", "5000")]) in
  list_find (λ d, label d = Some "Europe")
            (filteredData (transformed europe_twice)) = Some (0%nat, r)
  ∧ ∃ x, x ∈ regionArmsData 2020 europe_twice
         ∧ region x = Some "Europe"
         ∧ armsTrade x = or_zero (r !! key 2020)
         ∧ ∀ x', x' ∈ regionArmsData 2020 europe_twice →
                 region x' = Some "Europe" → x' = x.
Proof.
  intros r.
  assert (list_find (λ d, label d = Some "Europe")
                    (filteredData (transformed europe_twice)) = Some (0%nat, r))
    as Hfind by (vm_compute; reflexivity).
  split; [exact Hfind|].
  exact (first_occurrence_wins (num := spec_float) europe_twice 2020
           (Some "Europe") 0%nat r Hfind).
Defined.

Example europe_twice_value :
  regionArmsData 2020 europe_twice
  = [ {| region := Some "Europe"; armsTrade := VNum (of_Z 5 : spec_float) |};
      {| region := Some "Asia"; armsTrade := VNum (of_Z 3) |} ].
Proof. vm_compute. reflexivity. Qed.

(** C5, witness: the only cell of the year is not numeric, the total is 0. *)
Lemma zero_total_placeholder_witness :
  n_eq (total 2020 europe_not_numeric : spec_float) zero = true
  ∧ fst (useEffect 2020 (inl europe_not_numeric) (initial : component spec_float))
    = inl tt
  ∧ console (snd (useEffect 2020 (inl europe_not_numeric)
                               (initial : component spec_float)))
    = console (initial : component spec_float)
  ∧ svg (snd (useEffect 2020 (inl europe_not_numeric)
                           (initial : component spec_float)))
    = [text 250 30 ("Arms Imports by Region (" +:+ key 2020 +:+ ")");
       text 250 300 "No data available for this year"]
  ∧ text 250 300 "No data available for this year"
      ∈ svg (snd (useEffect 2020 (inl europe_not_numeric)
                              (initial : component spec_float)))
  ∧ ∀ g, paths g ∉ svg (snd (useEffect 2020 (inl europe_not_numeric)
                                       (initial : component spec_float))).
Proof.
  split; [vm_compute; reflexivity|].
  apply (zero_total_placeholder (num := spec_float) 2020 europe_not_numeric initial).
  vm_compute. reflexivity.
Defined.

(** The surface of that run, evaluated. *)
Example zero_total_surface :
  svg (snd (useEffect 2020 (inl europe_not_numeric)
                      (initial : component spec_float)))
  = [text 250 30 "Arms Imports by Region (2020)";
     text 250 300 "No data available for this year"].
Proof. vm_compute. reflexivity. Qed.

(** C6, counterexample. After a failed fetch the surface is not empty: the
    run has drawn the title of the selected year, so part of the view is
    rendered although no chart is. *)
Lemma failed_fetch_leaves_title :
  svg (snd (useEffect 2020 (inr "TypeError: Failed to fetch")
                      (initial : component spec_float)))
  = [text 250 30 "Arms Imports by Region (2020)"]
  ∧ svg (snd (useEffect 2020 (inr "TypeError: Failed to fetch")
                        (initial : component spec_float)))
    ≠ svg (initial : component spec_float).
Proof. split; [vm_compute; reflexivity | vm_compute; discriminate]. Qed.

(** C7. A pointer move at (100, 200) over a slice stores (110, 210) in the
    tooltip state, and the [div] adds ten pixels again: it is rendered at
    left 120, top 220, twenty pixels from the pointer in each axis and not
    the ten of the claim.  Before the move, with the position stored on
    entering the slice, the same [div] is ten pixels from the pointer. *)
Lemma mousemove_tooltip_twenty_pixels :
  let event := {| pageX := of_Z 100; pageY := of_Z 200 |} in
  let hovering := {| visible := true; x := of_Z 100; y := of_Z 200;
                     content := "Europe" |} in
  on_mousemove event hovering
  = {| visible := true; x := of_Z 110; y := of_Z 210; content := "Europe" |}
  ∧ tooltip_view (on_mousemove event hovering)
    = Some {| top := (of_Z 220 : spec_float); left := of_Z 120;
              children := "Europe" |}
  ∧ tooltip_view hovering
    = Some {| top := (of_Z 210 : spec_float); left := of_Z 110;
              children := "Europe" |}.
Proof. repeat split; vm_compute; reflexivity. Qed.

(** C8, counterexample. A row with the cell -5000 gives its region the
    value -5, which is less than 0. *)
Lemma negative_cell_negative_value :
  regionArmsData 2020 europe_negative
  = [ {| region := Some "Europe"; armsTrade := VNum (of_Z (-5) : spec_float) |} ]
  ∧ ¬ Forall (λ d : RegionDatum spec_float,
                n_le zero (ToNumber (Some (armsTrade d))) = true)
             (regionArmsData 2020 europe_negative).
Proof.
  assert (regionArmsData 2020 europe_negative
          = [ {| region := Some "Europe";
                 armsTrade := VNum (of_Z (-5) : spec_float) |} ])
    as Hds by (vm_compute; reflexivity).
  split; [exact Hds|]. rewrite Hds.
  intros Hall%Forall_inv.
  assert (n_le (zero : spec_float) (of_Z (-5)) = false) as Hneg
    by (vm_compute; reflexivity).
  cbn [armsTrade ToNumber] in Hall. congruence.
Qed.

(** C8, witness of the amended claim. *)
Lemma one_datum_per_region_witness :
  1950 ≤ 2020 ≤ 2023
  ∧ NoDup (region <$> (regionArmsData 2020 europe_twice
                        : list (RegionDatum spec_float)))
  ∧ (∀ l, l ∈ region <$> (regionArmsData 2020 europe_twice
                           : list (RegionDatum spec_float))
          ↔ l ∈ label <$> (filteredData (transformed europe_twice)
                            : list (gmap string (value spec_float))))
  ∧ Forall (λ x : RegionDatum spec_float,
      ∃ raw n, raw ∈ europe_twice
        ∧ raw !! "Imports by Regions" = region x
        ∧ armsTrade x = VNum n
        ∧ (n_le zero n = true
           ∨ ∃ s, raw !! key 2020 = Some s
                  ∧ parse_numeric s ≠ LNaN
                  ∧ n_le (zero : spec_float) (of_literal (parse_numeric s)) = false))
      (regionArmsData 2020 europe_twice).
Proof.
  split; [lia|].
  apply (one_datum_per_region (num := spec_float) europe_twice 2020). lia.
Defined.

(** C9, counterexample. Two runs in a row, the rows of the second in the
    other order: Europe is blue in the first and orange in the second. *)
Lemma colour_follows_position :
  let st1 := snd (useEffect 2020 (inl europe_asia) (initial : component spec_float)) in
  let st2 := snd (useEffect 2020 (inl asia_europe) st1) in
  assigned_colors st1
  = [(Some "Europe", "#1f77b4"); (Some "Asia", "#ff7f0e");
     (Some "Europe", "#1f77b4"); (Some "Asia", "#ff7f0e")]
  ∧ assigned_colors st2
    = [(Some "Asia", "#1f77b4"); (Some "Europe", "#ff7f0e");
       (Some "Asia", "#1f77b4"); (Some "Europe", "#ff7f0e")]
  ∧ ¬ (∀ l c1 c2, (l, c1) ∈ assigned_colors st1 →
                  (l, c2) ∈ assigned_colors st2 → c1 = c2).
Proof.
  intros st1 st2.
  assert (assigned_colors st1
          = [(Some "Europe", "#1f77b4"); (Some "Asia", "#ff7f0e");
             (Some "Europe", "#1f77b4"); (Some "Asia", "#ff7f0e")]) as H1
    by (vm_compute; reflexivity).
  assert (assigned_colors st2
          = [(Some "Asia", "#1f77b4"); (Some "Europe", "#ff7f0e");
             (Some "Asia", "#1f77b4"); (Some "Europe", "#ff7f0e")]) as H2
    by (vm_compute; reflexivity).
  split; [exact H1|]. split; [exact H2|].
  intros Hsame.
  assert ("#1f77b4" = "#ff7f0e") as Heq; [|discriminate].
  apply (Hsame (Some "Europe")).
  - rewrite H1. left.
  - rewrite H2. right. left.
Qed.

(** C9, witness of the amended claim: the same rows in 2019 and in 2020. *)
Lemma same_rows_same_colors_witness :
  n_eq (total 2019 two_years : spec_float) zero = false
  ∧ n_eq (total 2020 two_years : spec_float) zero = false
  ∧ (Some "Asia", "#ff7f0e")
      ∈ assigned_colors (snd (useEffect 2019 (inl two_years)
                                         (initial : component spec_float)))
  ∧ (Some "Asia", "#ff7f0e")
      ∈ assigned_colors (snd (useEffect 2020 (inl two_years)
                                         (initial : component spec_float)))
  ∧ "#ff7f0e" = "#ff7f0e".
Proof.
  assert ((Some "Asia", "#ff7f0e")
            ∈ assigned_colors (snd (useEffect 2019 (inl two_years)
                                      (initial : component spec_float)))) as H1.
  { apply list_elem_of_In. vm_compute. tauto. }
  assert ((Some "Asia", "#ff7f0e")
            ∈ assigned_colors (snd (useEffect 2020 (inl two_years)
                                      (initial : component spec_float)))) as H2.
  { apply list_elem_of_In. vm_compute. tauto. }
  split; [vm_compute; reflexivity|]. split; [vm_compute; reflexivity|].
  split; [exact H1|]. split; [exact H2|].
  apply (same_rows_same_colors (num := spec_float) two_years 2019 2020
           initial initial (Some "Asia") "#ff7f0e" "#ff7f0e");
    [vm_compute; reflexivity | vm_compute; reflexivity | exact H1 | exact H2].
Defined.

(** * Further properties of the component *)

(** ** Further properties of the transformer *)

Section TransformerFrame.
Context {num : Type} `{JSNumber num}.
Implicit Types (raw : gmap string string) (data : list (gmap string string)).

(** X1. The loop over the years writes the cells of the years 1950 to 2023
    and no other: every other property of a row, the region label and the
    cells of years outside the range among them, is left as [d3.csv]
    delivered it. *)
Theorem transformer_leaves_other_cells raw (k : string) :
  (∀ y, 1950 ≤ y ≤ 2023 → k ≠ key y) →
  (convert_row (VStr <$> raw) : gmap string (value num)) !! k = VStr <$> raw !! k.
Proof.
  intros Hk. unfold convert_row.
  rewrite convert_years_other by (by apply not_a_year_key).
  apply lookup_fmap.
Qed.

(** X2. For a selected year outside 1950 to 2023 (an integer that a
    JavaScript number holds exactly) the value of a region is not scaled:
    it is the string of the cell as it stands in a row with the label of
    the region, or 0 when that cell is missing or empty. *)
Theorem out_of_range_year_unscaled year data :
  year < 1950 ∨ 2023 < year →
  - 9007199254740991 ≤ year ≤ 9007199254740991 →
  Forall (λ x : RegionDatum num,
            ∃ raw, raw ∈ data
                   ∧ raw !! "Imports by Regions" = region x
                   ∧ armsTrade x = or_zero (VStr <$> raw !! key year))
         (regionArmsData year data).
Proof.
  intros Hy _. apply Forall_forall. intros x Hx.
  destruct (regionArmsData_row year data x Hx) as (raw & Hraw & Hl & Hv).
  exists raw. split; [exact Hraw|]. split; [exact Hl|].
  rewrite Hv. f_equal. unfold convert_row.
  rewrite convert_years_other; [apply lookup_fmap|].
  apply not_a_year_key. intros y Hrange Hk. apply key_inj in Hk. lia.
Qed.


Lemma transformed_app data1 data2 :
  (transformed (data1 ++ data2) : list (gmap string (value num)))
  = transformed data1 ++ transformed data2.
Proof. unfold transformed. apply map_app. Qed.

Lemma transformed_cons raw data :
  (transformed (raw :: data) : list (gmap string (value num)))
  = convert_row (VStr <$> raw) :: transformed data.
Proof. reflexivity. Qed.

Lemma filteredData_app (l1 l2 : list (gmap string (value num))) :
  filteredData (l1 ++ l2) = filteredData l1 ++ filteredData l2.
Proof. unfold filteredData. apply filter_app. Qed.

Lemma filteredData_cons (r : gmap string (value num)) l :
  filteredData (r :: l)
  = if decide (label r ≠ Some "World total"
               ∧ label r ≠ Some "International organizations")
    then r :: filteredData l else filteredData l.
Proof. unfold filteredData. rewrite filter_cons. reflexivity. Qed.

(** X3. A row that carries one of the two reserved labels has no effect,
    wherever it stands in the data: the regions and their values, the
    total and the legend are those of the data without that row. *)
Theorem aggregate_row_ignored year data1 raw data2 :
  raw !! "Imports by Regions" = Some "World total"
  ∨ raw !! "Imports by Regions" = Some "International organizations" →
  (regionArmsData year (data1 ++ raw :: data2) : list (RegionDatum num))
  = regionArmsData year (data1 ++ data2)
  ∧ (total year (data1 ++ raw :: data2) : num) = total year (data1 ++ data2)
  ∧ (legendInfo year (data1 ++ raw :: data2) : list (LegendEntry num))
    = legendInfo year (data1 ++ data2).
Proof.
  intros Hraw.
  assert ((regionArmsData year (data1 ++ raw :: data2) : list (RegionDatum num))
          = regionArmsData year (data1 ++ data2)) as Hsame.
  { unfold regionArmsData. do 2 f_equal.
    rewrite !transformed_app, transformed_cons, !filteredData_app,
      filteredData_cons, label_transformed.
    rewrite decide_False; [reflexivity|].
    intros [H1 H2]. destruct Hraw; congruence. }
  split; [exact Hsame|]. unfold legendInfo, total. by rewrite Hsame.
Qed.
End TransformerFrame.

(** ** The groups of [d3.group], by their first values *)

Section GroupHeads.
Context {K A : Type} `{EqDecision K}.
Implicit Types (g : list (K * list A)) (l : list A) (key : A → K).

Lemma heads_keys g : (heads g).*1 = g.*1.
Proof.
  unfold heads. rewrite <- list_fmap_compose. apply list_fmap_ext.
  by intros ? [k vs].
Qed.

Lemma group_groups_nonempty l key : Forall (λ kv, kv.2 ≠ []) (group l key).
Proof.
  apply Forall_forall. intros [k vs] Hin. by eapply group_nonempty.
Qed.

Lemma heads_group_add k a g :
  Forall (λ kv, kv.2 ≠ []) g →
  heads (group_add k a g)
  = if decide (k ∈ g.*1) then heads g else heads g ++ [(k, Some a)].
Proof.
  induction 1 as [|[k' vs] g Hvs _ IH]; [done|].
  cbn [group_add]. destruct (decide (k = k')) as [->|Hne].
  - rewrite decide_True by (by left). unfold heads. rewrite !fmap_cons.
    cbn [fst snd] in *. f_equal. f_equal. by destruct vs.
  - unfold heads in *. rewrite !fmap_cons, IH. cbn [fst snd].
    destruct (decide (k ∈ g.*1)) as [Hin|Hnin].
    + rewrite decide_True by (by right). done.
    + rewrite decide_False; [done|]. intros [?|?]%elem_of_cons; congruence.
Qed.

Lemma heads_group_snoc l a key :
  heads (group (l ++ [a]) key)
  = if decide (key a ∈ key <$> l) then heads (group l key)
    else heads (group l key) ++ [(key a, Some a)].
Proof.
  rewrite group_snoc, heads_group_add by apply group_groups_nonempty.
  destruct (decide (key a ∈ (group l key).*1)) as [Hin|Hnin].
  - rewrite decide_True; [done|]. by apply elem_of_group_keys.
  - rewrite decide_False; [done|]. by rewrite <- elem_of_group_keys.
Qed.

Lemma keys_group_snoc l a key :
  (group (l ++ [a]) key).*1
  = if decide (key a ∈ key <$> l) then (group l key).*1
    else (group l key).*1 ++ [key a].
Proof.
  rewrite <- !heads_keys, heads_group_snoc.
  destruct (decide _); [done|]. by rewrite fmap_app.
Qed.

(** A value whose key has been seen before adds no group and changes no
    first value. *)
Lemma heads_group_repeat l1 a l2 key :
  key a ∈ key <$> l1 →
  heads (group (l1 ++ a :: l2) key) = heads (group (l1 ++ l2) key).
Proof.
  intros Ha. induction l2 as [|b l2 IH] using rev_ind.
  - rewrite app_nil_r, heads_group_snoc. by rewrite decide_True.
  - replace (l1 ++ a :: l2 ++ [b]) with ((l1 ++ a :: l2) ++ [b])
      by (by rewrite <- (assoc_L (++))).
    rewrite (assoc_L (++) l1 l2 [b]), !heads_group_snoc, IH.
    destruct (decide (key b ∈ key <$> l1 ++ a :: l2)) as [Hin|Hnin].
    + rewrite decide_True; [done|].
      rewrite fmap_app, fmap_cons in Hin. rewrite fmap_app.
      apply elem_of_app in Hin as [?|[->|?]%elem_of_cons];
        apply elem_of_app; auto.
    + rewrite decide_False; [done|]. intros Hin. apply Hnin.
      rewrite fmap_app in Hin. rewrite fmap_app, fmap_cons.
      apply elem_of_app in Hin as [?|?]; apply elem_of_app; [by left|].
      right. by right.
Qed.

(** The keys come in the order of their first values. *)
Lemma group_keys_order l key (i j : nat) ki kj :
  (group l key).*1 !! i = Some ki →
  (group l key).*1 !! j = Some kj →
  (i < j)%nat →
  ∃ a b xa xb,
    list_find (λ x, key x = ki) l = Some (a, xa)
    ∧ list_find (λ x, key x = kj) l = Some (b, xb)
    ∧ (a < b)%nat.
Proof.
  revert i j ki kj. induction l as [|x l IH] using rev_ind; intros i j ki kj.
  - intros Hi. by destruct i.
  - rewrite keys_group_snoc.
    destruct (decide (key x ∈ key <$> l)) as [Hin|Hnin].
    + intros Hi Hj Hlt.
      destruct (IH i j ki kj Hi Hj Hlt) as (a & b & xa & xb & Ha & Hb & Hab).
      exists a, b, xa, xb. split; [by apply list_find_app_l|].
      split; [by apply list_find_app_l | done].
    + intros Hi Hj Hlt.
      apply lookup_app_Some in Hj as [Hj|[Hlen Hj]].
      * rewrite lookup_app_l in Hi by (apply lookup_lt_Some in Hj; lia).
        destruct (IH i j ki kj Hi Hj Hlt) as (a & b & xa & xb & Ha & Hb & Hab).
        exists a, b, xa, xb. split; [by apply list_find_app_l|].
        split; [by apply list_find_app_l | done].
      * apply list_lookup_singleton_Some in Hj as [Hj <-].
        rewrite lookup_app_l in Hi by lia.
        assert (ki ∈ key <$> l) as Hki.
        { apply elem_of_group_keys. by eapply list_elem_of_lookup_2. }
        apply list_elem_of_fmap in Hki as (y & -> & Hy).
        destruct (list_find_elem_of (λ z, key z = key y) l y Hy eq_refl)
          as [[a xa] Ha].
        assert (a < length l)%nat as Hbound.
        { apply list_find_Some in Ha as [Hl _]. by apply lookup_lt_Some in Hl. }
        exists a, (length l), xa, x. split; [by apply list_find_app_l|].
        split; [|done]. apply list_find_app_Some. right.
        split; [lia|]. split.
        -- apply list_find_None, Forall_forall. intros z Hz Hkz.
           apply Hnin. rewrite <- Hkz. by apply list_elem_of_fmap_2.
        -- rewrite Nat.sub_diag. cbn. by rewrite decide_True.
Qed.
End GroupHeads.

Section TransformerOrder.
Context {num : Type} `{JSNumber num}.
Implicit Types (raw : gmap string string) (data : list (gmap string string)).

Lemma regionArmsData_heads year data :
  (regionArmsData year data : list (RegionDatum num))
  = (λ kh, {| region := kh.1;
              armsTrade := match kh.2 with
                           | Some d => or_zero (d !! key year)
                           | None => VNum zero
                           end |})
    <$> heads (group (filteredData (transformed data)) label).
Proof.
  unfold regionArmsData, heads. rewrite <- list_fmap_compose.
  apply list_fmap_ext. intros _ [k [|d vs]] _; reflexivity.
Qed.

Lemma filteredData_transformed_insert data1 raw data2 :
  (filteredData (transformed (data1 ++ raw :: data2))
   : list (gmap string (value num)))
  = filteredData (transformed data1)
    ++ (if decide (raw !! "Imports by Regions" ≠ Some "World total"
                   ∧ raw !! "Imports by Regions"
                     ≠ Some "International organizations")
        then [convert_row (VStr <$> raw)] else [])
    ++ filteredData (transformed data2).
Proof.
  rewrite transformed_app, transformed_cons, filteredData_app,
    filteredData_cons, label_transformed.
  by destruct (decide _).
Qed.

(** X4. A row whose label is already carried by an earlier row has no
    effect: the regions and their values, the total and the legend are
    those of the data without that row. *)
Theorem later_duplicate_ignored year data1 raw data2 :
  raw !! "Imports by Regions" ∈ (λ r, r !! "Imports by Regions") <$> data1 →
  (regionArmsData year (data1 ++ raw :: data2) : list (RegionDatum num))
  = regionArmsData year (data1 ++ data2)
  ∧ (total year (data1 ++ raw :: data2) : num) = total year (data1 ++ data2)
  ∧ (legendInfo year (data1 ++ raw :: data2) : list (LegendEntry num))
    = legendInfo year (data1 ++ data2).
Proof.
  intros (raw1 & Hsame & Hraw1)%list_elem_of_fmap.
  assert ((regionArmsData year (data1 ++ raw :: data2) : list (RegionDatum num))
          = regionArmsData year (data1 ++ data2)) as Hout.
  { rewrite !regionArmsData_heads. f_equal.
    rewrite filteredData_transformed_insert, transformed_app, filteredData_app.
    destruct (decide _) as [[Hw Hi]|_]; [|reflexivity].
    cbn [app]. apply heads_group_repeat.
    rewrite label_transformed.
    apply list_elem_of_fmap. exists (convert_row (VStr <$> raw1)).
    split; [by rewrite label_transformed|].
    apply list_elem_of_filter. rewrite label_transformed, <- Hsame.
    split; [done|]. unfold transformed. apply list_elem_of_In.
    apply (in_map (λ d, convert_row (VStr <$> d))). by apply list_elem_of_In. }
  split; [exact Hout|]. unfold legendInfo, total. by rewrite Hout.
Qed.

(** X5. The regions come out in the order in which their labels first
    appear among the rows that reach the grouping: of two data of the
    output, the earlier one has its first row earlier. *)
Theorem regions_in_order_of_first_rows year data (i j : nat)
    (xi xj : RegionDatum num) :
  regionArmsData year data !! i = Some xi →
  regionArmsData year data !! j = Some xj →
  (i < j)%nat →
  ∃ a b ra rb,
    list_find (λ d, label d = region xi) (filteredData (transformed data))
    = Some (a, ra)
    ∧ list_find (λ d, label d = region xj) (filteredData (transformed data))
      = Some (b, rb)
    ∧ (a < b)%nat.
Proof.
  intros Hi Hj Hlt.
  apply (group_keys_order (filteredData (transformed data)) label i j).
  - rewrite <- regions_regionArmsData with (year := year).
    by rewrite list_lookup_fmap, Hi.
  - rewrite <- regions_regionArmsData with (year := year).
    by rewrite list_lookup_fmap, Hj.
  - exact Hlt.
Qed.
End TransformerOrder.

(** X6. In binary64, after the transformer the cell of every year from
    1950 to 2023 holds a number, and that number is neither NaN nor the
    negative zero, whatever the cell was. *)
Theorem year_cells_are_numbers (raw : gmap string string) (year : Z) :
  1950 ≤ year ≤ 2023 →
  ∃ n : spec_float,
    (convert_row (VStr <$> raw) : gmap string (value spec_float)) !! key year
    = Some (VNum n)
    ∧ n ≠ S754_nan ∧ n ≠ S754_zero true.
Proof.
  intros Hy. rewrite convert_row_lookup by exact Hy.
  eexists. split; [reflexivity|]. unfold n_or_zero.
  destruct (n_div _ _) as [s| | |s m e]; cbn; split; discriminate.
Qed.

(** ** Further properties of the effect *)

Section EffectFacts.
Context {num : Type} `{JSNumber num}.
Implicit Types (st : component num) (data : list (gmap string string)).

Lemma useEffect_placeholder year data st :
  n_eq (total year data) zero = true →
  useEffect year (inl data) st
  = (inl tt,
     {| svg := [title year; placeholder];
        tooltip := tooltip st;
        legendData := legendData st;
        totalArmsTrade := total year data;
        console := console st;
        requests := requests st ++ [dataUrl] |}).
Proof.
  intros Ht. rewrite useEffect_resolved. unfold on_data.
  fold (total year data). rewrite Ht. reflexivity.
Qed.

(** X7. Every run redraws the surface from nothing: whatever was drawn
    before, the surface then holds the title alone after a failure, the
    title and the placeholder when the total is 0, and otherwise the
    title, the slices and their labels. *)
Theorem surface_redrawn year (response : list (gmap string string) + error) st :
  svg (snd (useEffect year response st))
  = match response with
    | inr _ => [title year]
    | inl data =>
      if n_eq (total year data) zero then [title year; placeholder]
      else [title year; paths (slicesInfo year data);
            percent_labels (labelsInfo year data)]
    end.
Proof.
  destruct response as [data|e]; [|reflexivity].
  destruct (n_eq (total year data) zero) eqn:Ht.
  - by rewrite useEffect_placeholder.
  - by rewrite useEffect_chart.
Qed.

(** X8. After a fetch that succeeded the total shown is the total of the
    selected year, but the legend is replaced only when that total is not
    0: with a total of 0 the legend of the run before stays. *)
Theorem legend_kept_on_zero_total year data st :
  totalArmsTrade (snd (useEffect year (inl data) st)) = total year data
  ∧ legendData (snd (useEffect year (inl data) st))
    = if n_eq (total year data) zero then legendData st
      else legendInfo year data.
Proof.
  destruct (n_eq (total year data) zero) eqn:Ht.
  - by rewrite useEffect_placeholder.
  - by rewrite useEffect_chart.
Qed.

(** X9. Whatever the response, a run sends one request, to the fixed
    address, leaves the tooltip alone, settles without an error, and
    writes on the console only when the response is a failure. *)
Theorem effect_frame year (response : list (gmap string string) + error) st :
  fst (useEffect year response st) = inl tt
  ∧ requests (snd (useEffect year response st)) = requests st ++ [dataUrl]
  ∧ tooltip (snd (useEffect year response st)) = tooltip st
  ∧ console (snd (useEffect year response st))
    = match response with
      | inl _ => console st
      | inr e => console st ++ [("Error loading data:", e)]
      end.
Proof.
  destruct response as [data|e]; [|by repeat split].
  destruct (n_eq (total year data) zero) eqn:Ht.
  - by rewrite useEffect_placeholder.
  - by rewrite useEffect_chart.
Qed.
End EffectFacts.

(** ** Further properties of the colours *)

Section ColourFacts.
Context {num : Type} `{JSNumber num}.
Implicit Types (ds : list (RegionDatum num)) (domain : list (option string))
  (data : list (gmap string string)).

Lemma legendInfo_from_fields t domain ds :
  l_region <$> fst (legendInfo_from t domain ds) = region <$> ds
  ∧ l_armsTrade <$> fst (legendInfo_from t domain ds) = armsTrade <$> ds
  ∧ l_percentage <$> fst (legendInfo_from t domain ds)
    = (λ d, toFixed 2 (percent t d)) <$> ds.
Proof.
  revert domain. induction ds as [|d ds IH]; intros domain; [done|].
  cbn [legendInfo_from].
  destruct (scaleOrdinal schemeCategory10 domain (region d)) as [c domain1].
  specialize (IH domain1).
  destruct (legendInfo_from t domain1 ds) as [es domain2].
  cbn [fst] in *. destruct IH as (IH1 & IH2 & IH3).
  rewrite !fmap_cons, IH1, IH2, IH3. done.
Qed.

Lemma slices_from_data domain ds : datum <$> fst (slices_from domain ds) = ds.
Proof.
  revert domain. induction ds as [|d ds IH]; intros domain; [done|].
  cbn [slices_from].
  destruct (scaleOrdinal schemeCategory10 domain (region d)) as [c domain1].
  specialize (IH domain1). destruct (slices_from domain1 ds) as [ss domain2].
  cbn [fst] in *. by rewrite fmap_cons, IH.
Qed.

(** Asked again once the legend is computed, the scale answers with the
    colours of the legend. *)
Lemma slices_from_legend t domain ds ext :
  fill <$> fst (slices_from (snd (legendInfo_from t domain ds) ++ ext) ds)
  = l_color <$> fst (legendInfo_from t domain ds)
  ∧ snd (slices_from (snd (legendInfo_from t domain ds) ++ ext) ds)
    = snd (legendInfo_from t domain ds) ++ ext.
Proof.
  revert domain ext. induction ds as [|d ds IH]; intros domain ext; [done|].
  cbn [legendInfo_from].
  destruct (scaleOrdinal schemeCategory10 domain (region d)) as [c domain1] eqn:Hc.
  apply scaleOrdinal_known in Hc as [Hk _].
  destruct (legendInfo_from_known t domain1 ds) as ([ext1 Hext] & _ & _).
  specialize (IH domain1 ext).
  destruct (legendInfo_from t domain1 ds) as [es domain2].
  cbn [fst snd] in *. subst domain2. cbn [slices_from].
  rewrite <- (assoc_L (++)), (Hk (ext1 ++ ext)), (assoc_L (++)).
  destruct (slices_from ((domain1 ++ ext1) ++ ext) ds) as [ss domain3].
  cbn [fst snd] in *. destruct IH as [IH1 IH2].
  by rewrite !fmap_cons, IH1.
Qed.

(** X10. The slices and the legend agree: there is one slice and one
    legend entry for each region, in the order of the regions, with the
    value of the region, and the fill of a slice is the colour of its
    legend entry. *)
Theorem slices_match_legend year data :
  datum <$> (slicesInfo year data : list (slice num)) = regionArmsData year data
  ∧ l_region <$> (legendInfo year data : list (LegendEntry num))
    = region <$> regionArmsData year data
  ∧ l_armsTrade <$> (legendInfo year data : list (LegendEntry num))
    = armsTrade <$> regionArmsData year data
  ∧ fill <$> (slicesInfo year data : list (slice num))
    = l_color <$> (legendInfo year data : list (LegendEntry num)).
Proof.
  unfold slicesInfo, legendInfo. cbn zeta.
  destruct (legendInfo_from_fields (total year data) []
              (regionArmsData year data)) as (H1 & H2 & _).
  destruct (slices_from_legend (total year data) []
              (regionArmsData year data) []) as [H3 _].
  rewrite app_nil_r in H3.
  split; [apply slices_from_data|]. split; [exact H1|]. split; [exact H2|exact H3].
Qed.

Lemma index_of_None (k : option string) domain :
  k ∉ domain → index_of k domain = None.
Proof.
  induction domain as [|k' domain IH]; [done|].
  intros [Hne Hk]%not_elem_of_cons. cbn [index_of].
  rewrite decide_False by done. by rewrite IH.
Qed.

(** With regions that are all different and new to the scale, the colours
    of the legend run through the palette in order, and around. *)
Lemma legendInfo_from_colors t domain ds :
  NoDup (domain ++ (region <$> ds)) →
  l_color <$> fst (legendInfo_from t domain ds)
  = (λ j, nth ((length domain + j) mod 10) schemeCategory10 EmptyString)
    <$> seq 0 (length ds).
Proof.
  revert domain. induction ds as [|d ds IH]; intros domain Hnd; [done|].
  cbn [legendInfo_from]. unfold scaleOrdinal at 1.
  rewrite index_of_None.
  2:{ rewrite fmap_cons in Hnd. apply NoDup_app in Hnd as (_ & Hdis & _).
      intros Hin. apply (Hdis _ Hin). by left. }
  specialize (IH (domain ++ [region d])).
  destruct (legendInfo_from t (domain ++ [region d]) ds) as [es domain2].
  cbn [fst length seq] in *. rewrite !fmap_cons. cbn [l_color].
  change (length schemeCategory10) with 10%nat.
  rewrite Nat.add_0_r. f_equal.
  rewrite IH.
  - rewrite <- fmap_S_seq, <- list_fmap_compose. apply list_fmap_ext.
    intros _ j _. cbn. rewrite length_app. cbn [length].
    by replace (length domain + 1 + j)%nat with (length domain + S j)%nat by lia.
  - rewrite fmap_cons in Hnd. by rewrite <- (assoc_L (++)).
Qed.

Lemma legendInfo_colors year data :
  l_color <$> (legendInfo year data : list (LegendEntry num))
  = (λ j, nth (j mod 10) schemeCategory10 EmptyString)
    <$> seq 0 (length (regionArmsData year data : list (RegionDatum num))).
Proof.
  unfold legendInfo. rewrite legendInfo_from_colors; [done|].
  rewrite app_nil_l, regions_regionArmsData.
  apply (group_spec (filteredData (transformed data)) (label (num := num))).
Qed.

Lemma legendInfo_color_lookup year data (i : nat) (e : LegendEntry num) :
  legendInfo year data !! i = Some e →
  l_color e = nth (i mod 10) schemeCategory10 EmptyString.
Proof.
  intros He.
  assert ((l_color <$> legendInfo year data) !! i = Some (l_color e)) as Hc
    by (by rewrite list_lookup_fmap, He).
  rewrite legendInfo_colors, list_lookup_fmap in Hc.
  destruct (seq 0 _ !! i) as [j|] eqn:Hj; [|discriminate].
  apply lookup_seq in Hj as [-> _]. by injection Hc as <-.
Qed.

(** X11. The colour of a legend entry follows its place alone: the entry
    at place [i], counted from 0, has the colour at place [i mod 10] of
    the palette of ten. *)
Theorem legend_colour_by_position year data (i : nat) (e : LegendEntry num) :
  legendInfo year data !! i = Some e →
  l_color e = nth (i mod 10) schemeCategory10 EmptyString.
Proof. apply legendInfo_color_lookup. Qed.

(** X12. With ten regions or fewer, no two legend entries have the same
    colour. *)
Theorem ten_regions_distinct_colours year data :
  (length (regionArmsData year data : list (RegionDatum num)) ≤ 10)%nat →
  NoDup (l_color <$> (legendInfo year data : list (LegendEntry num))).
Proof.
  intros Hlen. rewrite legendInfo_colors.
  destruct (length (regionArmsData year data)) as [|n]; [constructor|].
  do 10 (destruct n as [|n];
         [apply (bool_decide_unpack _ (dec := decide _)); vm_compute; exact I|]).
  lia.
Qed.

(** X13. With more than ten regions the colours come round again: the
    entries at places [i] and [i + 10] have the same colour. *)
Theorem colours_repeat_after_ten year data (i : nat) (e1 e2 : LegendEntry num) :
  legendInfo year data !! i = Some e1 →
  legendInfo year data !! (i + 10)%nat = Some e2 →
  l_color e1 = l_color e2.
Proof.
  intros H1 H2.
  rewrite (legendInfo_color_lookup _ _ _ _ H1), (legendInfo_color_lookup _ _ _ _ H2).
  f_equal. rewrite <- (Nat.Div0.add_mod_idemp_r i 10 10).
  change (10 mod 10)%nat with 0%nat. by rewrite Nat.add_0_r.
Qed.
End ColourFacts.

(** ** Further properties of the total and the percentages, in binary64 *)

Section Binary64Facts.
Open Scope Q_scope.
Implicit Types (ds : list (RegionDatum spec_float))
  (data : list (gmap string string)).

Local Abbreviation u := (1 # 4503599627370496).
Local Abbreviation eta := (1 # 1267650600228229401496703205376).

(** X14. In binary64, when the value of every region is not negative and
    the total is finite, every value is finite and the total that
    [d3.sum] returns is the sum of the values up to the rounding of its
    additions: within a relative error of [2^-51] per region. *)
Theorem total_close_to_sum_of_values year data :
  let ds : list (RegionDatum spec_float) := regionArmsData year data in
  Forall (λ d, n_le zero (ToNumber (Some (armsTrade d))) = true) ds →
  finite_nonneg (total year data) = true →
  (Z.of_nat (length ds) < 2 ^ 32)%Z →
  Forall (λ d, finite_nonneg (ToNumber (Some (armsTrade d))) = true) ds
  ∧ Qabs (SF2Q (total year data) - value_sum ds)
    <= (1 # 2251799813685248) * inject_Z (Z.of_nat (length ds)) * value_sum ds.
Proof.
  intros ds Hnonneg Hfin Hlen.
  destruct (b64_total_close ds Hnonneg (b64_values_above_emin year data) Hlen Hfin)
    as [Hvals Herr].
  split; [exact Hvals|]. unfold total. fold ds.
  eapply Qle_trans; [exact Herr|].
  apply Qmult_le_compat_r; [|by apply value_sum_nonneg].
  apply Qmult_le_compat_r; [discriminate | apply length_Q_nonneg].
Qed.

(** Once the accumulator of [d3.sum] is greater than 0, it stays so. *)
Lemma b64_sum_stays_positive ds acc :
  Forall (λ d, n_le zero (ToNumber (Some (armsTrade d))) = true
               ∧ above_emin B64.prec B64.emax (ToNumber (Some (armsTrade d)))) ds →
  (acc = S754_infinity false
   ∨ ∃ m e, acc = S754_finite false m e ∧ (emin B64.prec B64.emax ≤ e)%Z) →
  n_eq (foldl (d3_sum_step armsTrade) acc ds) zero = false.
Proof.
  intros Hds. revert acc.
  induction Hds as [|d ds [Hd Hwf] _ IH]; intros acc Hacc.
  - by destruct Hacc as [->|(m & e & -> & _)].
  - cbn [foldl]. apply IH. rewrite d3_sum_step_b64.
    destruct (b64_nonneg_cases _ Hd) as [[s Hv]|[Hv|(m & e & Hv)]];
      rewrite Hv in *; cbn [B64.truthy].
    + exact Hacc.
    + left. by destruct Hacc as [->|(ma & ea & -> & _)].
    + destruct Hacc as [->|(ma & ea & -> & Hea)]; [by left|].
      cbn [above_emin] in Hwf. destruct b64_prec as [Hp1 Hp2].
      destruct (SFadd_value B64.prec B64.emax Hp1 Hp2
                  (S754_finite false ma ea) m e eq_refl Hea Hwf)
        as [Hinf|(Hfin & Hwf' & Herr)]; [by left|right].
      pose proof (SF2Q_pos ma ea) as Ha. pose proof (SF2Q_pos m e) as Hm.
      rewrite b64_unit_roundoff in Herr.
      set (r := SFadd _ _ _ _) in *. clearbody r.
      apply Qabs_Qle_condition in Herr as [Herr _].
      assert (0 < SF2Q r) as Hr.
      { set (a := SF2Q (S754_finite false ma ea)) in *.
        set (b := SF2Q (S754_finite false m e)) in *. clearbody a b. lra. }
      destruct r as [s'| | |[] mr er]; try discriminate.
      by exists mr, er.
Qed.

(** X15. In binary64, when the value of every region is not negative, the
    total is 0, and the placeholder takes the place of the chart, exactly
    when the value of every region is 0. *)
Theorem zero_total_iff_all_zero year data :
  let ds : list (RegionDatum spec_float) := regionArmsData year data in
  Forall (λ d, n_le zero (ToNumber (Some (armsTrade d))) = true) ds →
  n_eq (total year data : spec_float) zero = true
  ↔ Forall (λ d, n_eq (ToNumber (Some (armsTrade d))) zero = true) ds.
Proof.
  intros ds Hnonneg.
  pose proof (b64_values_above_emin year data) as Hwf. fold ds in Hwf.
  unfold total, d3_sum. fold ds. clearbody ds.
  assert (Forall (λ d, n_le zero (ToNumber (Some (armsTrade d))) = true
                       ∧ above_emin B64.prec B64.emax
                           (ToNumber (Some (armsTrade d)))) ds) as Hds
    by (apply Forall_and; by split).
  clear Hnonneg Hwf. rewrite b64_zero.
  induction Hds as [|d ds [Hd Hwf] Hds IH].
  - split; [constructor | reflexivity].
  - cbn [foldl]. rewrite d3_sum_step_b64.
    destruct (b64_nonneg_cases _ Hd) as [[s Hv]|[Hv|(m & e & Hv)]];
      rewrite Hv in *; cbn [B64.truthy SFadd].
    + rewrite IH. split.
      * intros Hall. constructor; [by rewrite Hv | exact Hall].
      * by intros Hall%Forall_inv_tail.
    + split.
      * intros Hz. rewrite b64_sum_stays_positive in Hz; [done | done | by left].
      * intros Hall%Forall_inv. by rewrite Hv in Hall.
    + split.
      * intros Hz.
        rewrite b64_sum_stays_positive in Hz; [done | done | right; eauto].
      * intros Hall%Forall_inv. by rewrite Hv in Hall.
Qed.

(** [toFixed(f)] of a percentage that the rounding has left at 100.001 at
    most has no sign and at most the digits of 100. *)
Lemma b64_toFixed_percent_bounded (f : nat) (c : Z) (p : spec_float) :
  inject_Z (10 ^ Z.of_nat f) == inject_Z c → (0 ≤ c ≤ 100)%Z →
  finite_nonneg p = true → SF2Q p <= 100 + (1 # 1000) →
  ∃ n, toFixed f p = FixedDigits false n ∧ (Z.of_N n ≤ 100 * c)%Z.
Proof.
  intros Hc Hc0 Hp Hle.
  destruct (b64_toFixed_close f p Hp) as (n & Hn & Herr).
  { change (inject_Z (10 ^ 21)) with (1000000000000000000000 # 1). lra. }
  exists n. split; [exact Hn|].
  rewrite Hc in Herr. apply Qabs_Qle_condition in Herr as [_ Herr].
  assert (0 <= inject_Z c ∧ inject_Z c <= 100) as [Hc1 Hc2].
  { split; [change 0 with (inject_Z 0) | change 100 with (inject_Z 100)];
      rewrite <- Zle_Qle; lia. }
  assert (SF2Q p * inject_Z c <= (100 + (1 # 1000)) * inject_Z c) as Hpc
    by (by apply Qmult_le_compat_r).
  assert (inject_Z (Z.of_N n) < inject_Z (100 * c + 1)) as Hlt.
  { rewrite inject_Z_plus, inject_Z_mult.
    change (inject_Z 100) with 100. change (inject_Z 1) with 1.
    set (x := inject_Z (Z.of_N n)) in *. set (y := SF2Q p * inject_Z c) in *.
    set (z := inject_Z c) in *. clearbody x y z. lra. }
  rewrite <- Zlt_Qlt in Hlt. lia.
Qed.

(** X16. In binary64, when the value of every region is not negative and
    the total is finite and greater than 0, every percentage shown lies
    between 0 and 100: in the legend a decimal without sign of at most
    100.00, on the slices one of at most 100.0. *)
Theorem percentages_between_0_and_100 year data :
  let ds : list (RegionDatum spec_float) := regionArmsData year data in
  Forall (λ d, n_le zero (ToNumber (Some (armsTrade d))) = true) ds →
  finite_nonneg (total year data) = true →
  is_positive (total year data : spec_float) = true →
  (Z.of_nat (length ds) < 2 ^ 32)%Z →
  Forall (λ e, ∃ n, l_percentage e = FixedDigits false n ∧ (n <= 10000)%N)
         (legendInfo year data : list (LegendEntry spec_float))
  ∧ Forall (λ s, ∃ n, s = FixedDigits false n ∧ (n <= 1000)%N)
           (labelsInfo year data : list (fixed_string spec_float)).
Proof.
  intros ds Hnonneg Hfin Hpos Hlen.
  destruct (b64_positive_finite _ Hfin Hpos) as (mt & et & Ht).
  pose proof (b64_values_above_emin year data) as Hwf. fold ds in Hwf.
  unfold labelsInfo, legendInfo, total in *. fold ds in Ht |- *.
  destruct (legendInfo_from_fields (d3_sum ds armsTrade) [] ds) as (_ & _ & Hperc).
  destruct (b64_shares ds mt et Hnonneg Hwf Hlen Ht)
    as (Hn1 & Hshares & HW0 & HW1 & _).
  assert (inject_Z (Z.of_nat (length ds)) < 4294967296) as Hn.
  { change 4294967296 with (inject_Z (2 ^ 32)). by rewrite <- Zlt_Qlt. }
  assert (0 < SF2Q (S754_finite false mt et)) as Ht0 by apply SF2Q_pos.
  assert (Forall (λ d, finite_nonneg (percent (d3_sum ds armsTrade) d) = true
                       ∧ SF2Q (percent (d3_sum ds armsTrade) d)
                         <= 100 + (1 # 1000)) ds) as Hrange.
  { assert (Forall (λ d, finite_nonneg (ToNumber (Some (armsTrade d))) = true) ds)
      as Hvals by (eapply Forall_impl; [exact Hshares | by intros ? [? _]]).
    pose proof (value_le_sum ds Hvals) as Hle.
    pose proof (proj2 (Forall_and _ _) (conj Hshares Hle)) as Hboth.
    eapply Forall_impl; [exact Hboth|]. cbn beta.
    intros d [[Hd Hd2] HdS].
    rewrite Ht.
    destruct (b64_percent_close (S754_finite false mt et) d mt et eq_refl Hd Hd2)
      as [Hp Hperr].
    split; [exact Hp|].
    assert (SF2Q (ToNumber (Some (armsTrade d))) / SF2Q (S754_finite false mt et)
            <= value_sum ds / SF2Q (S754_finite false mt et)) as Hw.
    { unfold Qdiv. apply Qmult_le_compat_r; [exact HdS|].
      apply Qlt_le_weak, Qinv_lt_0_compat, Ht0. }
    pose proof (SF2Q_nonneg _ Hd) as Hv0.
    assert (0 <= SF2Q (ToNumber (Some (armsTrade d)))
                 / SF2Q (S754_finite false mt et)) as Hw0
      by (apply Qle_shift_div_l; [done | lra]).
    apply Qabs_Qle_condition in Hperr as [_ Hperr].
    set (w := SF2Q (ToNumber (Some (armsTrade d)))
              / SF2Q (S754_finite false mt et)) in *.
    set (W := value_sum ds / SF2Q (S754_finite false mt et)) in *.
    set (n := inject_Z (Z.of_nat (length ds))) in *.
    set (p := SF2Q (percent _ d)) in *. clearbody w W n p. lra. }
  split.
  - apply (Forall_fmap l_percentage
             (λ s, ∃ n, s = FixedDigits false n ∧ (n <= 10000)%N)).
    rewrite Hperc.
    apply Forall_fmap. eapply Forall_impl; [exact Hrange|]. cbn beta.
    intros d [Hp Hp100]. unfold compose. cbn beta.
    destruct (b64_toFixed_percent_bounded 2 100 _ eq_refl ltac:(lia) Hp Hp100)
      as (n & -> & Hn').
    exists n. split; [done|]. lia.
  - apply Forall_fmap. eapply Forall_impl; [exact Hrange|]. cbn beta.
    intros d [Hp Hp100]. unfold compose. cbn beta.
    destruct (b64_toFixed_percent_bounded 1 10 _ eq_refl ltac:(lia) Hp Hp100)
      as (n & -> & Hn').
    exists n. split; [done|]. lia.
Qed.
End Binary64Facts.

(** ** Further properties of the tooltip *)

Section TooltipFacts.
Context {num : Type} `{JSNumber num}.
Variable toLocaleString : value num → string.
Variable NumberToString : num → string.

(** X17. While the pointer stays on a slice the tooltip is visible and
    keeps the text set on entering, however the pointer moves; its stored
    position is that of the last move plus 10, or that of the entering when
    there was no move.  Leaving the slice hides the tooltip and puts its
    state back to the initial one. *)
Theorem hover_keeps_content (t : num) (enter : MouseEvent num)
    (d : RegionDatum num) (prev : TooltipState num)
    (moves : list (MouseEvent num)) :
  let entered := on_mouseenter toLocaleString NumberToString t enter d prev in
  let hovering := foldl (λ s event, on_mousemove event s) entered moves in
  visible hovering = true
  ∧ content hovering = content entered
  ∧ (x hovering, y hovering)
    = match last moves with
      | Some event => (n_add (pageX event) (of_Z 10), n_add (pageY event) (of_Z 10))
      | None => (pageX enter, pageY enter)
      end
  ∧ on_mouseleave hovering = tooltip initial
  ∧ tooltip_view (on_mouseleave hovering) = None.
Proof.
  intros entered hovering. unfold hovering.
  induction moves as [|event moves IH] using rev_ind.
  - repeat split.
  - rewrite foldl_app, last_snoc. cbn [foldl].
    destruct IH as (Hv & Hc & _). repeat split; assumption.
Qed.
End TooltipFacts.

(** ** Running the effect again *)

Section EffectAgain.
Context {num : Type} `{JSNumber num}.
Implicit Types (st : component num).

(** X18. Running the effect again with the same year and the same
    response changes nothing of what is shown: surface, legend, total and
    tooltip are as after the first run. *)
Theorem rerun_shows_the_same year (response : list (gmap string string) + error) st :
  let once := snd (useEffect year response st) in
  let twice := snd (useEffect year response once) in
  svg twice = svg once
  ∧ legendData twice = legendData once
  ∧ totalArmsTrade twice = totalArmsTrade once
  ∧ tooltip twice = tooltip once.
Proof.
  destruct response as [data|e]; [|by repeat split].
  destruct (n_eq (total year data) zero) eqn:Ht; cbn zeta.
  - by rewrite !useEffect_placeholder.
  - by rewrite !useEffect_chart.
Qed.
End EffectAgain.

(** * The further properties on sample rows *)

(** X1, witness: the cell of 2024 is outside the loop over the years. *)
Lemma transformer_leaves_other_cells_witness :
  (∀ y, 1950 ≤ y ≤ 2023 → key 2024 ≠ key y)
  ∧ (convert_row (VStr <$> csv "Europe" [("2020", "5000"); ("2024", "6000")])
     : gmap string (value spec_float)) !! key 2024
    = VStr <$> csv "Europe" [("2020", "5000"); ("2024", "6000")] !! key 2024.
Proof.
  assert (∀ y, 1950 ≤ y ≤ 2023 → key 2024 ≠ key y) as Hk.
  { intros y Hy Heq. apply key_inj in Heq. lia. }
  split; [exact Hk|].
  exact (transformer_leaves_other_cells (num := spec_float) _ _ Hk).
Defined.

Example europe_2024_cells :
  (convert_row (VStr <$> csv "Europe" [("2020", "5000"); ("2024", "6000")])
   : gmap string (value spec_float)) !! key 2024 = Some (VStr "6000")
  ∧ (convert_row (VStr <$> csv "Europe" [("2020", "5000"); ("2024", "6000")])
     : gmap string (value spec_float)) !! key 2020 = Some (VNum (of_Z 5)).
Proof. split; vm_compute; reflexivity. Qed.

(** X2, witness: in 2024 the value of Europe is the string of the cell. *)
Lemma out_of_range_year_unscaled_witness :
  (2024 < 1950 ∨ 2023 < 2024)
  ∧ - 9007199254740991 ≤ 2024 ≤ 9007199254740991
  ∧ Forall (λ x : RegionDatum spec_float,
              ∃ raw, raw ∈ europe_2024
                     ∧ raw !! "Imports by Regions" = region x
                     ∧ armsTrade x = or_zero (VStr <$> raw !! key 2024))
           (regionArmsData 2024 europe_2024).
Proof.
  assert (2024 < 1950 ∨ 2023 < 2024) as Hy by (right; lia).
  assert (- 9007199254740991 ≤ 2024 ≤ 9007199254740991) as Hsafe by lia.
  split; [exact Hy|]. split; [exact Hsafe|].
  exact (out_of_range_year_unscaled (num := spec_float) 2024 europe_2024 Hy Hsafe).
Defined.

Example europe_2024_unscaled :
  regionArmsData 2024 europe_2024
  = [ {| region := Some "Europe"; armsTrade := (VStr "6000" : value spec_float) |} ]
  ∧ total 2024 europe_2024 = (of_Z 6000 : spec_float)
  ∧ total 2020 europe_2024 = (of_Z 5 : spec_float).
Proof. repeat split; vm_compute; reflexivity. Qed.

(** X3, witness: a row "World total" between Europe and Asia. *)
Lemma aggregate_row_ignored_witness :
  let data1 := [csv "Europe" [("2020", "5000")]] in
  let raw := csv "World total" [("2020", "8000")] in
  let data2 := [csv "Asia" [("2020", "3000")]] in
  (raw !! "Imports by Regions" = Some "World total"
   ∨ raw !! "Imports by Regions" = Some "International organizations")
  ∧ (regionArmsData 2020 (data1 ++ raw :: data2) : list (RegionDatum spec_float))
    = regionArmsData 2020 (data1 ++ data2)
  ∧ (total 2020 (data1 ++ raw :: data2) : spec_float) = total 2020 (data1 ++ data2)
  ∧ (legendInfo 2020 (data1 ++ raw :: data2) : list (LegendEntry spec_float))
    = legendInfo 2020 (data1 ++ data2).
Proof.
  intros data1 raw data2.
  assert (raw !! "Imports by Regions" = Some "World total"
          ∨ raw !! "Imports by Regions" = Some "International organizations")
    as Hraw by (left; vm_compute; reflexivity).
  split; [exact Hraw|].
  exact (aggregate_row_ignored (num := spec_float) 2020 data1 raw data2 Hraw).
Defined.

(** X4, witness: a second row for Europe after Europe and Asia. *)
Lemma later_duplicate_ignored_witness :
  let data1 := [csv "Europe" [("2020", "5000")]; csv "Asia" [("2020", "3000")]] in
  let raw := csv "Europe" [("2020", "7000")] in
  raw !! "Imports by Regions" ∈ (λ r, r !! "Imports by Regions") <$> data1
  ∧ (regionArmsData 2020 (data1 ++ raw :: []) : list (RegionDatum spec_float))
    = regionArmsData 2020 (data1 ++ [])
  ∧ (total 2020 (data1 ++ raw :: []) : spec_float) = total 2020 (data1 ++ [])
  ∧ (legendInfo 2020 (data1 ++ raw :: []) : list (LegendEntry spec_float))
    = legendInfo 2020 (data1 ++ []).
Proof.
  intros data1 raw.
  assert (raw !! "Imports by Regions" ∈ (λ r, r !! "Imports by Regions") <$> data1)
    as Hraw.
  { apply list_elem_of_In. left. vm_compute. reflexivity. }
  split; [exact Hraw|].
  exact (later_duplicate_ignored (num := spec_float) 2020 data1 raw [] Hraw).
Defined.

(** X5, witness: Europe, first met in the first row, comes before Asia,
    first met in the second. *)
Lemma regions_in_order_of_first_rows_witness :
  let europe := {| region := Some "Europe"; armsTrade := VNum (of_Z 5 : spec_float) |} in
  let asia := {| region := Some "Asia"; armsTrade := VNum (of_Z 3 : spec_float) |} in
  regionArmsData 2020 europe_twice !! 0%nat = Some europe
  ∧ regionArmsData 2020 europe_twice !! 1%nat = Some asia
  ∧ (0 < 1)%nat
  ∧ ∃ a b ra rb,
      list_find (λ d, label d = region europe)
                (filteredData (transformed europe_twice
                               : list (gmap string (value spec_float))))
      = Some (a, ra)
      ∧ list_find (λ d, label d = region asia)
                  (filteredData (transformed europe_twice
                                 : list (gmap string (value spec_float))))
        = Some (b, rb)
      ∧ (a < b)%nat.
Proof.
  intros europe asia.
  assert (regionArmsData 2020 europe_twice !! 0%nat = Some europe) as H0
    by (vm_compute; reflexivity).
  assert (regionArmsData 2020 europe_twice !! 1%nat = Some asia) as H1
    by (vm_compute; reflexivity).
  split; [exact H0|]. split; [exact H1|]. split; [lia|].
  exact (regions_in_order_of_first_rows (num := spec_float) 2020 europe_twice
           0 1 europe asia H0 H1 ltac:(lia)).
Defined.

(** X6, witness: a cell that is not numeric. *)
Lemma year_cells_are_numbers_witness :
  1950 ≤ 2020 ≤ 2023
  ∧ ∃ n : spec_float,
      (convert_row (VStr <$> csv "Europe" [("2020", "n/a")])
       : gmap string (value spec_float)) !! key 2020 = Some (VNum n)
      ∧ n ≠ S754_nan ∧ n ≠ S754_zero true.
Proof.
  split; [lia|].
  apply (year_cells_are_numbers (csv "Europe" [("2020", "n/a")]) 2020). lia.
Defined.

(** X11, witness: Asia, at place 1, is orange. *)
Lemma legend_colour_by_position_witness :
  let asia := {| l_region := Some "Asia"; l_color := "#ff7f0e";
                 l_percentage := FixedDigits false 3750;
                 l_armsTrade := VNum (of_Z 3 : spec_float) |} in
  legendInfo 2020 europe_asia !! 1%nat = Some asia
  ∧ l_color asia = nth (1 mod 10) schemeCategory10 EmptyString.
Proof.
  intros asia.
  assert (legendInfo 2020 europe_asia !! 1%nat = Some asia) as H1
    by (vm_compute; reflexivity).
  split; [exact H1|].
  exact (legend_colour_by_position (num := spec_float) 2020 europe_asia 1 asia H1).
Defined.

(** X12, witness: two regions. *)
Lemma ten_regions_distinct_colours_witness :
  (length (regionArmsData 2020 europe_asia : list (RegionDatum spec_float)) ≤ 10)%nat
  ∧ NoDup (l_color <$> (legendInfo 2020 europe_asia : list (LegendEntry spec_float))).
Proof.
  assert (length (regionArmsData 2020 europe_asia : list (RegionDatum spec_float))
          ≤ 10)%nat as Hlen.
  { assert (length (regionArmsData 2020 europe_asia : list (RegionDatum spec_float))
            = 2%nat) as -> by (vm_compute; reflexivity). lia. }
  split; [exact Hlen|].
  exact (ten_regions_distinct_colours (num := spec_float) 2020 europe_asia Hlen).
Defined.

(** X13, witness: of thirty-two regions, the fourth and the fourteenth are
    both red. *)
Lemma colours_repeat_after_ten_witness :
  let r3 := {| l_region := Some "R3"; l_color := "#d62728";
               l_percentage := FixedDigits false 313;
               l_armsTrade := VNum (of_Z 1 : spec_float) |} in
  let r13 := {| l_region := Some "R13"; l_color := "#d62728";
                l_percentage := FixedDigits false 313;
                l_armsTrade := VNum (of_Z 1 : spec_float) |} in
  legendInfo 2020 thirty_two_regions !! 3%nat = Some r3
  ∧ legendInfo 2020 thirty_two_regions !! (3 + 10)%nat = Some r13
  ∧ l_color r3 = l_color r13.
Proof.
  intros r3 r13.
  assert (legendInfo 2020 thirty_two_regions !! 3%nat = Some r3) as H3
    by (vm_compute; reflexivity).
  assert (legendInfo 2020 thirty_two_regions !! (3 + 10)%nat = Some r13) as H13
    by (vm_compute; reflexivity).
  split; [exact H3|]. split; [exact H13|].
  exact (colours_repeat_after_ten (num := spec_float) 2020 thirty_two_regions
           3 r3 r13 H3 H13).
Defined.

(** X14, witness: 5 and 3. *)
Lemma total_close_to_sum_of_values_witness :
  Forall (λ d, n_le zero (ToNumber (Some (armsTrade d))) = true)
         (regionArmsData 2020 europe_asia : list (RegionDatum spec_float))
  ∧ finite_nonneg (total 2020 europe_asia) = true
  ∧ Z.of_nat (length (regionArmsData 2020 europe_asia
                       : list (RegionDatum spec_float))) < 2 ^ 32
  ∧ Forall (λ d, finite_nonneg (ToNumber (Some (armsTrade d))) = true)
           (regionArmsData 2020 europe_asia : list (RegionDatum spec_float))
  ∧ (Qabs (SF2Q (total 2020 europe_asia)
           - value_sum (regionArmsData 2020 europe_asia))
     <= (1 # 2251799813685248)
        * inject_Z (Z.of_nat (length (regionArmsData 2020 europe_asia
                                       : list (RegionDatum spec_float))))
        * value_sum (regionArmsData 2020 europe_asia))%Q.
Proof.
  assert (Forall (λ d, n_le zero (ToNumber (Some (armsTrade d))) = true)
                 (regionArmsData 2020 europe_asia : list (RegionDatum spec_float)))
    as Hvalues.
  { rewrite europe_asia_values.
    repeat (constructor; [vm_compute; reflexivity|]). constructor. }
  assert (finite_nonneg (total 2020 europe_asia) = true) as Hfinite
    by (vm_compute; reflexivity).
  assert (Z.of_nat (length (regionArmsData 2020 europe_asia
                             : list (RegionDatum spec_float))) < 2 ^ 32) as Hlength
    by (rewrite europe_asia_values; vm_compute; reflexivity).
  split; [exact Hvalues|]. split; [exact Hfinite|]. split; [exact Hlength|].
  exact (total_close_to_sum_of_values 2020 europe_asia Hvalues Hfinite Hlength).
Defined.

Example europe_asia_total_exact :
  (SF2Q (total 2020 europe_asia) == 8)%Q
  ∧ (value_sum (regionArmsData 2020 europe_asia) == 8)%Q.
Proof. split; vm_compute; reflexivity. Qed.

(** X15, witness: 5 and 3, and a total that is not 0. *)
Lemma zero_total_iff_all_zero_witness :
  Forall (λ d, n_le zero (ToNumber (Some (armsTrade d))) = true)
         (regionArmsData 2020 europe_asia : list (RegionDatum spec_float))
  ∧ (n_eq (total 2020 europe_asia : spec_float) zero = true
     ↔ Forall (λ d, n_eq (ToNumber (Some (armsTrade d))) zero = true)
              (regionArmsData 2020 europe_asia : list (RegionDatum spec_float))).
Proof.
  assert (Forall (λ d, n_le zero (ToNumber (Some (armsTrade d))) = true)
                 (regionArmsData 2020 europe_asia : list (RegionDatum spec_float)))
    as Hvalues.
  { rewrite europe_asia_values.
    repeat (constructor; [vm_compute; reflexivity|]). constructor. }
  split; [exact Hvalues|].
  exact (zero_total_iff_all_zero 2020 europe_asia Hvalues).
Defined.

(** X16, witness: 62.50 and 37.50 in the legend, 62.5 and 37.5 on the
    slices. *)
Lemma percentages_between_0_and_100_witness :
  Forall (λ d, n_le zero (ToNumber (Some (armsTrade d))) = true)
         (regionArmsData 2020 europe_asia : list (RegionDatum spec_float))
  ∧ finite_nonneg (total 2020 europe_asia) = true
  ∧ is_positive (total 2020 europe_asia : spec_float) = true
  ∧ Z.of_nat (length (regionArmsData 2020 europe_asia
                       : list (RegionDatum spec_float))) < 2 ^ 32
  ∧ Forall (λ e, ∃ n, l_percentage e = FixedDigits false n ∧ (n <= 10000)%N)
           (legendInfo 2020 europe_asia : list (LegendEntry spec_float))
  ∧ Forall (λ s, ∃ n, s = FixedDigits false n ∧ (n <= 1000)%N)
           (labelsInfo 2020 europe_asia : list (fixed_string spec_float)).
Proof.
  assert (Forall (λ d, n_le zero (ToNumber (Some (armsTrade d))) = true)
                 (regionArmsData 2020 europe_asia : list (RegionDatum spec_float)))
    as Hvalues.
  { rewrite europe_asia_values.
    repeat (constructor; [vm_compute; reflexivity|]). constructor. }
  assert (finite_nonneg (total 2020 europe_asia) = true) as Hfinite
    by (vm_compute; reflexivity).
  assert (is_positive (total 2020 europe_asia : spec_float) = true) as Hpositive
    by (vm_compute; reflexivity).
  assert (Z.of_nat (length (regionArmsData 2020 europe_asia
                             : list (RegionDatum spec_float))) < 2 ^ 32) as Hlength
    by (rewrite europe_asia_values; vm_compute; reflexivity).
  split; [exact Hvalues|]. split; [exact Hfinite|]. split; [exact Hpositive|].
  split; [exact Hlength|].
  exact (percentages_between_0_and_100 2020 europe_asia
           Hvalues Hfinite Hpositive Hlength).
Defined.

Example europe_asia_labels :
  labelsInfo 2020 europe_asia
  = [FixedDigits false 625; (FixedDigits false 375 : fixed_string spec_float)].
Proof. vm_compute. reflexivity. Qed.
